(** * CubeFloorRenderer: the floor-tile registry and its batched rendering

    A shallow embedding of the static class [CubeFloorRenderer] and the
    properties of its registry, exclusion set, area rasterizer, renderer
    and disposal.

    Conventions of the embedding.
    - Grid coordinates are integers, so the fields of [CubePosition] are
      [Z].  A JavaScript number is a double: counting on such a number
      rounds from 2^53 on ([roundToDouble]), and a template literal
      prints the decimal numeral of a safe integer, which is [pretty]
      on [Z].
    - [Map<K,V>] is an insertion-ordered association list ([JSMap]); the
      order is observable through [forEach].
    - [Set<string>] is a [gset string]; its iteration order is only ever
      printed.
    - The three.js objects the class touches live in an explicit store
      ([World]): the children of every scene, the [THREE.Group] objects by
      identity, and the log of [dispose()] calls on geometries and
      materials.  [Object3D.add] appends to the children, [remove] takes
      the object out if it is there, [clear] empties the children,
      [traverse] visits the object and then its descendants, and
      [dispose()] on a geometry or a material never fails.
    - World positions are exact rationals ([Qc]).
    - [getPathCoordinates] computes with square roots and quotients, so
      its numbers are the binary64 doubles of the kernel ([PrimFloat]),
      with [Math.floor], [Math.ceil] and [Math.round] written out on
      the mantissa and exponent of a double (module [Path]).
    - [console.log] output is not part of the model, and neither are
      faults of the texture manager or of three.js. *)

From Stdlib Require Import QArith Qcanon Ascii.
From Stdlib Require Floats Uint63.
From stdpp Require Import gmap strings list pretty numbers sorting.

Open Scope Z_scope.

#[local] Set Warnings "-clear-no-such-hyp".

(** ** Insertion-ordered maps (ECMAScript [Map]) *)

Module JSMap.
Section ops.
Context {K V : Type} `{EqDecision K}.

(** [new Map()] and [Map.prototype.clear]. *)
Definition empty : list (K * V) := [].

(** [Map.prototype.get]: [None] stands for [undefined]. *)
Fixpoint get (k : K) (m : list (K * V)) : option V :=
  match m with
  | [] => None
  | (k', v) :: m' => if decide (k' = k) then Some v else get k m'
  end.

(** [Map.prototype.set]: an existing key keeps its place in the
    iteration order and only its value is replaced; a new key is
    appended. *)
Fixpoint set (k : K) (v : V) (m : list (K * V)) : list (K * V) :=
  match m with
  | [] => [(k, v)]
  | (k', v') :: m' =>
      if decide (k' = k) then (k', v) :: m' else (k', v') :: set k v m'
  end.

(** [Map.prototype.delete]. *)
Fixpoint delete (k : K) (m : list (K * V)) : list (K * V) :=
  match m with
  | [] => []
  | (k', v') :: m' =>
      if decide (k' = k) then m' else (k', v') :: delete k m'
  end.

(** The keys in iteration order. *)
Definition keys (m : list (K * V)) : list K := m.*1.

(** [Map.prototype.forEach((value, key) => ...)] threading a state [S]
    through the callback. *)
Definition forEach {S : Type} (f : V -> K -> S -> S)
    (m : list (K * V)) (s : S) : S :=
  fold_left (fun acc kv => f kv.2 kv.1 acc) m s.
End ops.
End JSMap.

(** ** Data model *)

Record CubePosition : Type := mkCubePosition { x : Z; y : Z }.

Inductive CubeInfoType : Type := room | hallway | overlap.

Record CubeInfo : Type := mkCubeInfo {
  position : CubePosition;
  color : Z;
  type : CubeInfoType
}.

(** [CubeType] of the texture manager, restricted to the two tags this
    class passes. *)
Inductive CubeType : Type := room_floor | hallway_floor.

Record CubeFloorOptions : Type := mkCubeFloorOptions {
  cubeSize : option Qc;
  floorColor : option Z;
  yOffset : option Qc
}.

Global Instance CubePosition_eq_dec : EqDecision CubePosition.
Proof. solve_decision. Defined.
Global Instance CubeInfoType_eq_dec : EqDecision CubeInfoType.
Proof. solve_decision. Defined.
Global Instance CubeInfo_eq_dec : EqDecision CubeInfo.
Proof. solve_decision. Defined.
Global Instance CubeType_eq_dec : EqDecision CubeType.
Proof. solve_decision. Defined.

(** Identities of three.js objects. *)
Definition Scene : Type := nat.
Definition ObjId : Type := nat.

(** The purple written on every overlap. *)
Definition OVERLAP_COLOR : Z := 0x800080.

(** [Number.isSafeInteger]: the integers every one of which is a
    double of its own. *)
Definition isSafeInteger (z : Z) : Prop := - 2 ^ 53 < z < 2 ^ 53.

(** [`${x},${y}`].  A template literal prints a safe integer as its
    decimal numeral, which is [pretty]; beyond the safe integers a
    number prints the shortest digits that identify it, and in exponent
    form from 1e21 on, which [pretty] does not model: what is said of
    the characters of a key holds for safe integers only. *)
Definition getCubeKey (x y : Z) : string :=
  pretty x +:+ "," +:+ pretty y.

Definition keyOf (coord : CubePosition) : string :=
  getCubeKey coord.(x) coord.(y).

(** The string a [CubeInfoType] is at run time. *)
Definition type_tag (t : CubeInfoType) : string :=
  match t with
  | room => "room"
  | hallway => "hallway"
  | overlap => "overlap"
  end.

(** ** Numbers that hold integers

    A JavaScript number is a binary64 double.  A number that holds an
    integer is modelled by that integer; [roundToDouble] is the double
    an integer result is rounded to (to nearest, ties to the even
    mantissa of 53 bits), so that [x++] is [increment].  Up to 2^53 in
    absolute value every integer is a double and nothing is rounded;
    overflow to [Infinity] (from 2^1024 on) is not modelled. *)

Definition roundToDouble (z : Z) : Z :=
  let n := Z.abs z in
  if bool_decide (n < 2 ^ 53) then z
  else
    let e := Z.log2 n - 52 in
    let q := n / 2 ^ e in
    let r := n mod 2 ^ e in
    let half := 2 ^ (e - 1) in
    let q' :=
      if bool_decide (r < half) then q
      else if bool_decide (half < r) then q + 1
      else if Z.even q then q else q + 1 in
    Z.sgn z * (q' * 2 ^ e).

(** [x++] *)
Definition increment (x : Z) : Z := roundToDouble (x + 1).

(** ** Ascending loops

    [for (let i = start; i <= stop; i++) body(i)] on a state.  The
    loop of the source need not end, so the model counts the tests it
    may make: [None] when [fuel] tests were not enough. *)

Fixpoint for_leq {A : Type} (fuel : nat) (i stop : Z)
    (body : Z -> A -> option A) (acc : A) : option A :=
  match fuel with
  | O => None
  | S fuel' =>
      if bool_decide (i <= stop)
      then match body i acc with
           | Some acc' => for_leq fuel' (increment i) stop body acc'
           | None => None
           end
      else Some acc
  end.

(** What such a loop collects when no increment rounds: the bodies of
    [start], [start + 1], ..., [stop] in this order, [stop - start + 1]
    of them when that is positive and none otherwise. *)

Fixpoint for_upto_go {A : Type} (n : nat) (i : Z) (body : Z -> list A)
    : list A :=
  match n with
  | O => []
  | S n' => body i ++ for_upto_go n' (i + 1) body
  end.

Definition for_upto {A : Type} (start stop : Z) (body : Z -> list A)
    : list A :=
  for_upto_go (Z.to_nat (stop - start + 1)) start body.

(** ** The renderer and the three.js store *)

Section Renderer.
(** [THREE.MeshLambertMaterial] as handed out by the texture manager,
    and the two collaborators of this class that live in other files:
    [TextureManager.createMaterialWithTexture] and
    [CubeConfig.getCubeSize]. *)
Context {Material : Type}.
Variable createMaterialWithTexture : CubeType -> Material.
Variable getCubeSize : Qc.

Record BoxGeometry : Type := mkBoxGeometry {
  geometry_id : ObjId;
  geometry_width : Qc;
  geometry_height : Qc;
  geometry_depth : Qc
}.

Record Mesh : Type := mkMesh {
  mesh_geometry : BoxGeometry;
  mesh_material : Material;
  mesh_position : Qc * Qc * Qc;
  mesh_name : string;
  castShadow : bool;
  receiveShadow : bool
}.

Record Group : Type := mkGroup {
  group_name : string;
  group_children : list Mesh
}.

(** What [dispose()] was called on. *)
Inductive Resource : Type :=
| GeometryResource (g : BoxGeometry)
| MaterialResource (m : Material).

Record World : Type := mkWorld {
  scene_children : gmap Scene (list ObjId);
  groups : gmap ObjId Group;
  next_id : ObjId;
  disposed : list Resource
}.

(** The three static fields of the class, and the store. *)
Record State : Type := mkState {
  cubeRegistry : list (string * CubeInfo);
  sceneGroups : list (Scene * ObjId);
  excludedCoordinates : gset string;
  world : World
}.

Definition initial (w : World) : State :=
  mkState JSMap.empty JSMap.empty ∅ w.

(** *** three.js operations used by the class *)

Definition childrenOf (scene : Scene) (w : World) : list ObjId :=
  default [] (w.(scene_children) !! scene).

Definition groupChildren (g : ObjId) (w : World) : list Mesh :=
  default [] (group_children <$> w.(groups) !! g).

(** [new THREE.Group()] *)
Definition new_Group (w : World) : World * ObjId :=
  (mkWorld w.(scene_children)
           (<[w.(next_id) := mkGroup "" []]> w.(groups))
           (S w.(next_id)) w.(disposed),
   w.(next_id)).

Definition set_group_name (g : ObjId) (name : string) (w : World) : World :=
  mkWorld w.(scene_children)
          (alter (fun G => mkGroup name G.(group_children)) g w.(groups))
          w.(next_id) w.(disposed).

(** [scene.add(object)] for an object that has no parent yet. *)
Definition Scene_add (scene : Scene) (obj : ObjId) (w : World) : World :=
  mkWorld (<[scene := childrenOf scene w ++ [obj]]> w.(scene_children))
          w.(groups) w.(next_id) w.(disposed).

(** [children.splice(children.indexOf(object), 1)] when the index is
    not -1. *)
Fixpoint remove_first (obj : ObjId) (l : list ObjId) : list ObjId :=
  match l with
  | [] => []
  | o :: l' => if decide (o = obj) then l' else o :: remove_first obj l'
  end.

(** [scene.remove(object)] *)
Definition Scene_remove (scene : Scene) (obj : ObjId) (w : World) : World :=
  mkWorld (<[scene := remove_first obj (childrenOf scene w)]>
             w.(scene_children))
          w.(groups) w.(next_id) w.(disposed).

(** [group.clear()] *)
Definition Group_clear (g : ObjId) (w : World) : World :=
  mkWorld w.(scene_children)
          (alter (fun G => mkGroup G.(group_name) []) g w.(groups))
          w.(next_id) w.(disposed).

(** [group.add(mesh)] for a freshly made mesh. *)
Definition Group_add (g : ObjId) (m : Mesh) (w : World) : World :=
  mkWorld w.(scene_children)
          (alter (fun G => mkGroup G.(group_name) (G.(group_children) ++ [m]))
                 g w.(groups))
          w.(next_id) w.(disposed).

(** [new THREE.BoxGeometry(width, height, depth)] *)
Definition new_BoxGeometry (width height depth : Qc) (w : World)
    : World * BoxGeometry :=
  (mkWorld w.(scene_children) w.(groups) (S w.(next_id)) w.(disposed),
   mkBoxGeometry w.(next_id) width height depth).

Definition log_dispose (r : Resource) (w : World) : World :=
  mkWorld w.(scene_children) w.(groups) w.(next_id) (w.(disposed) ++ [r]).

(** *** Registry and exclusion set *)

Definition set_cubeRegistry (r : list (string * CubeInfo)) (s : State)
    : State :=
  mkState r s.(sceneGroups) s.(excludedCoordinates) s.(world).

Definition set_excludedCoordinates (e : gset string) (s : State) : State :=
  mkState s.(cubeRegistry) s.(sceneGroups) e s.(world).

Definition set_world (w : World) (s : State) : State :=
  mkState s.(cubeRegistry) s.(sceneGroups) s.(excludedCoordinates) w.

Definition clearRegistry (s : State) : State :=
  set_excludedCoordinates ∅ (set_cubeRegistry JSMap.empty s).

(** The callback of [coordinates.forEach] in [setExcludedCoordinates];
    the registry lookup it makes only chooses a log line. *)
Definition excludeCoordinate (s : State) (coord : CubePosition) : State :=
  let key := getCubeKey coord.(x) coord.(y) in
  set_excludedCoordinates ({[key]} ∪ s.(excludedCoordinates)) s.

Definition setExcludedCoordinates (coordinates : list CubePosition)
    (s : State) : State :=
  fold_left excludeCoordinate coordinates (set_excludedCoordinates ∅ s).

Definition unregisterCoordinate (s : State) (coord : CubePosition)
    : State :=
  let key := getCubeKey coord.(x) coord.(y) in
  set_cubeRegistry (JSMap.delete key s.(cubeRegistry)) s.

Definition unregisterCoordinates (coordinates : list CubePosition)
    (s : State) : State :=
  fold_left unregisterCoordinate coordinates s.

Definition getAllCoordinates (s : State) : list CubePosition :=
  JSMap.forEach (fun cubeInfo _ coordinates =>
                   coordinates ++ [cubeInfo.(position)])
                s.(cubeRegistry) [].

(** The callback of [coordinates.forEach] in [registerCubes]. *)
Definition registerCube (color : Z) (type : CubeInfoType)
    (s : State) (coord : CubePosition) : State :=
  let key := getCubeKey coord.(x) coord.(y) in
  if bool_decide (key ∈ s.(excludedCoordinates)) then s
  else
    match JSMap.get key s.(cubeRegistry) with
    | Some existing =>
        set_cubeRegistry
          (JSMap.set key (mkCubeInfo coord 0x800080 overlap)
                     s.(cubeRegistry)) s
    | None =>
        set_cubeRegistry
          (JSMap.set key (mkCubeInfo coord color type) s.(cubeRegistry)) s
    end.

Definition registerCubes (coordinates : list CubePosition) (color : Z)
    (type : CubeInfoType) (s : State) : State :=
  fold_left (registerCube color type) coordinates s.

(** *** Rendering *)

(** The texture tag chosen for a record. *)
Definition floorCubeType (t : CubeInfoType) : CubeType :=
  match t with
  | overlap => hallway_floor
  | hallway => hallway_floor
  | room => room_floor
  end.

Definition floorCube (geometry : BoxGeometry) (cubeSize yOffset : Qc)
    (cubeInfo : CubeInfo) : Mesh :=
  let material := createMaterialWithTexture (floorCubeType cubeInfo.(type)) in
  let cubeWorldX := (Qc_of_Z cubeInfo.(position).(x) * cubeSize)%Qc in
  let cubeWorldZ := (Qc_of_Z cubeInfo.(position).(y) * cubeSize)%Qc in
  mkMesh geometry material
         (cubeWorldX, (yOffset + cubeSize / 2)%Qc, cubeWorldZ)
         ("FloorCube_" +:+ type_tag cubeInfo.(type) +:+ "_"
            +:+ pretty cubeInfo.(position).(x) +:+ "_"
            +:+ pretty cubeInfo.(position).(y))
         true true.

(** The callback of [this.cubeRegistry.forEach] in [renderAllCubes]. *)
Definition renderCube (excluded : gset string) (sceneGroup : ObjId)
    (geometry : BoxGeometry) (cubeSize yOffset : Qc)
    (cubeInfo : CubeInfo) (key : string) (w : World) : World :=
  if bool_decide (key ∈ excluded) then w
  else Group_add sceneGroup (floorCube geometry cubeSize yOffset cubeInfo) w.

(** [let sceneGroup = this.sceneGroups.get(scene); if (!sceneGroup) ...] *)
Definition sceneGroupFor (scene : Scene) (s : State) : State * ObjId :=
  match JSMap.get scene s.(sceneGroups) with
  | Some sceneGroup => (s, sceneGroup)
  | None =>
      let '(w1, sceneGroup) := new_Group s.(world) in
      let w2 := set_group_name sceneGroup "AllFloorCubes" w1 in
      (mkState s.(cubeRegistry)
               (JSMap.set scene sceneGroup s.(sceneGroups))
               s.(excludedCoordinates)
               (Scene_add scene sceneGroup w2),
       sceneGroup)
  end.

Definition renderAllCubes (scene : Scene) (options : CubeFloorOptions)
    (s : State) : State * ObjId :=
  let cubeSize := default getCubeSize options.(cubeSize) in
  let yOffset := default 0%Qc options.(yOffset) in
  let '(s1, sceneGroup) := sceneGroupFor scene s in
  let w1 := Group_clear sceneGroup s1.(world) in
  let '(w2, geometry) := new_BoxGeometry cubeSize cubeSize cubeSize w1 in
  let w3 :=
    JSMap.forEach
      (renderCube s1.(excludedCoordinates) sceneGroup geometry
                  cubeSize yOffset)
      s1.(cubeRegistry) w2 in
  (set_world w3 s1, sceneGroup).

(** *** Area rasterizer *)

(** The two nested loops of the source; [coordinates.push] appends. *)
Definition getAreaCoordinates (fuel : nat) (startX startY endX endY : Z)
    : option (list CubePosition) :=
  for_leq fuel startX endX
    (fun x coordinates =>
       for_leq fuel startY endY
         (fun y coordinates => Some (coordinates ++ [mkCubePosition x y]))
         coordinates)
    [].

(** The rectangle as the specification describes it ([areaCoordinates]
    there): the integer pairs of [startX..endX] x [startY..endY] with
    [x] ascending outermost and [y] ascending innermost.  It is what
    [getAreaCoordinates] is compared with. *)
Definition areaCoordinates (startX startY endX endY : Z)
    : list CubePosition :=
  for_upto startX endX (fun x =>
    for_upto startY endY (fun y => [mkCubePosition x y])).

(** *** Disposal *)

(** What the callback of [group.traverse] does on one mesh of the
    group: its geometry is disposed, then its material. *)
Definition disposeMesh (w : World) (child : Mesh) : World :=
  log_dispose (MaterialResource child.(mesh_material))
    (log_dispose (GeometryResource child.(mesh_geometry)) w).

(** The callback of [this.sceneGroups.forEach] in [dispose]; the
    traversal visits the group itself, which is not a mesh, and then
    its children. *)
Definition disposeSceneGroup (group : ObjId) (scene : Scene) (w : World)
    : World :=
  let w1 := Scene_remove scene group w in
  fold_left disposeMesh (groupChildren group w1) w1.

Definition dispose (s : State) : State :=
  let w := JSMap.forEach disposeSceneGroup s.(sceneGroups) s.(world) in
  mkState JSMap.empty JSMap.empty ∅ w.

(** *** Insertion order

    The order in which keys were first inserted: a key is appended the
    first time it is seen and never moves afterwards. *)
Definition insert_once (ks : list string) (k : string) : list string :=
  if decide (k ∈ ks) then ks else ks ++ [k].

Definition insertion_order (ks : list string) (inserted : list string)
    : list string :=
  fold_left insert_once inserted ks.

(** Every record sits under the key of its own position. *)
Definition registry_wf (s : State) : Prop :=
  Forall (fun kv => kv.1 = keyOf kv.2.(position)) s.(cubeRegistry).

(** *** Scan order of an area

    [p] comes before [q] when the outer loop variable [x] is smaller,
    or it is the same and the inner loop variable [y] is smaller. *)
Definition scan_before (p q : CubePosition) : Prop :=
  p.(x) < q.(x) \/ (p.(x) = q.(x) /\ p.(y) < q.(y)).

(** *** What a render pass allocates *)

(** The geometry a render pass allocates. *)
Definition passGeometry (options : CubeFloorOptions) (w : World)
    : BoxGeometry :=
  let cubeSize := default getCubeSize options.(cubeSize) in
  mkBoxGeometry w.(next_id) cubeSize cubeSize cubeSize.

(** *** Invariant of the class and its store

    Every container the class tracks is an allocated group, no object
    is a child of a scene twice (the contract of [Object3D.add]), and
    identities in use lie below the next one to be handed out. *)
Record State_wf (s : State) : Prop := mkState_wf {
  wf_tracked : forall scene g,
    JSMap.get scene s.(sceneGroups) = Some g ->
    is_Some (s.(world).(groups) !! g);
  wf_children_NoDup : forall scene, NoDup (childrenOf scene s.(world));
  wf_children_allocated : forall scene o,
    o ∈ childrenOf scene s.(world) -> (o < s.(world).(next_id))%nat;
  wf_groups_allocated : forall g,
    is_Some (s.(world).(groups) !! g) -> (g < s.(world).(next_id))%nat
}.

(** *** What a disposal releases

    The [dispose()] calls made for one container: for each of its
    cubes the geometry, then the material. *)
Definition releasedBy (children : list Mesh) : list Resource :=
  children ≫= fun child =>
    [GeometryResource child.(mesh_geometry);
     MaterialResource child.(mesh_material)].

(** *** The de-duplication that ends [getPathCoordinates]

    [coordinates.filter((coord, index, arr) =>
       arr.findIndex(c => c.x === coord.x && c.y === coord.y) === index)]
    on coordinates that are integers.  [Array.prototype.findIndex]
    gives -1 when nothing matches. *)

Fixpoint findIndex_from {A : Type} (p : A -> bool) (i : Z) (arr : list A)
    : Z :=
  match arr with
  | [] => -1
  | c :: arr' => if p c then i else findIndex_from p (i + 1) arr'
  end.

Definition findIndex {A : Type} (p : A -> bool) (arr : list A) : Z :=
  findIndex_from p 0 arr.

Fixpoint filter_from {A : Type} (p : A -> Z -> bool) (index : Z)
    (arr : list A) : list A :=
  match arr with
  | [] => []
  | coord :: arr' =>
      if p coord index then coord :: filter_from p (index + 1) arr'
      else filter_from p (index + 1) arr'
  end.

Definition sameCoord (coord c : CubePosition) : bool :=
  bool_decide (c.(x) = coord.(x)) && bool_decide (c.(y) = coord.(y)).

Definition uniqueCoords (coordinates : list CubePosition)
    : list CubePosition :=
  filter_from
    (fun coord index =>
       bool_decide (findIndex (sameCoord coord) coordinates = index))
    0 coordinates.

(** The first occurrences of a list, given what came before it. *)
Fixpoint first_occurrences (seen l : list CubePosition)
    : list CubePosition :=
  match l with
  | [] => []
  | c :: l' =>
      if decide (c ∈ seen) then first_occurrences (seen ++ [c]) l'
      else c :: first_occurrences (seen ++ [c]) l'
  end.

End Renderer.

(** ** Sequences of calls

    The methods that change the state, as values, so that statements can
    range over everything a caller may do. *)

(** The [type] argument of [registerCubes]: ['room' | 'hallway']. *)
Inductive RegisteredType : Type := registered_room | registered_hallway.

Definition registeredType (t : RegisteredType) : CubeInfoType :=
  match t with
  | registered_room => room
  | registered_hallway => hallway
  end.

Inductive Call : Type :=
| call_clearRegistry
| call_setExcludedCoordinates (coordinates : list CubePosition)
| call_unregisterCoordinates (coordinates : list CubePosition)
| call_registerCubes (coordinates : list CubePosition) (color : Z)
    (type : RegisteredType)
| call_renderAllCubes (scene : Scene) (options : CubeFloorOptions)
| call_dispose.

Section Calls.
Context {Material : Type}.
Variable createMaterialWithTexture : CubeType -> Material.
Variable getCubeSize : Qc.

Definition call (s : @State Material) (c : Call) : @State Material :=
  match c with
  | call_clearRegistry => clearRegistry s
  | call_setExcludedCoordinates coordinates =>
      setExcludedCoordinates coordinates s
  | call_unregisterCoordinates coordinates =>
      unregisterCoordinates coordinates s
  | call_registerCubes coordinates color type =>
      registerCubes coordinates color (registeredType type) s
  | call_renderAllCubes scene options =>
      (renderAllCubes createMaterialWithTexture getCubeSize scene options s).1
  | call_dispose => dispose s
  end.

Definition calls (cs : list Call) (s : @State Material) : @State Material :=
  fold_left call cs s.

(** What every reachable state satisfies besides [State_wf]: a key
    holds one record, the record's position is the one the key was made
    from, an overlap record is purple, and no two scenes share a
    container. *)
Record Registry_inv (s : @State Material) : Prop := mkRegistry_inv {
  inv_keys_NoDup : NoDup (JSMap.keys s.(cubeRegistry));
  inv_positions : registry_wf s;
  inv_overlap_color :
    Forall (fun kv => kv.2.(type) = overlap -> kv.2.(color) = 0x800080)
           s.(cubeRegistry);
  inv_scenes_NoDup : NoDup (JSMap.keys s.(sceneGroups));
  inv_containers_NoDup : NoDup s.(sceneGroups).*2
}.

(** Every container the class tracks is a child of the scene it is
    tracked for: [scene.add] when it is created, [scene.remove] only
    when the table is cleared. *)
Definition Containers_attached (s : @State Material) : Prop :=
  forall scene g,
    JSMap.get scene s.(sceneGroups) = Some g ->
    g ∈ childrenOf scene s.(world).

End Calls.

(** A string without a comma. *)
Fixpoint comma_free (s : string) : Prop :=
  match s with
  | EmptyString => True
  | String c s' => c <> ","%char /\ comma_free s'
  end.

(** * PlayerManager

    The static class [PlayerManager]: the colour a player id hashes to,
    and the two-frame sprite animation it keeps per player.

    - A string is the list of its UTF-16 code units, as [split('')] and
      [charCodeAt(0)] see it.
    - [<<] and [&] work on 32-bit integers: their operands go through
      [ToInt32], written out here.
    - [Date.now()] is an argument ([now], in milliseconds).
    - The three.js objects a sprite player is made of live in a store of
      their own; numbers that are only stored are exact rationals (the
      double [Math.PI] is 884279719003555 / 2^48).
    - [Player] and [CharacterData] are declared in another file; they
      have the fields the methods read. *)

Module PlayerManager.

(** ** [generatePlayerColor] *)

(** [ToInt32]: the integer modulo 2^32, in [-2^31, 2^31). *)
Definition ToInt32 (n : Z) : Z := (n + 2 ^ 31) mod 2 ^ 32 - 2 ^ 31.

(** [a << n] *)
Definition shiftLeft (a n : Z) : Z :=
  ToInt32 (Z.shiftl (ToInt32 a) (Z.land n 31)).

(** [a & b] *)
Definition bitAnd (a b : Z) : Z := Z.land (ToInt32 a) (ToInt32 b).

Definition colors : list string :=
  ["#ff6b6b"; "#4ecdc4"; "#45b7d1"; "#96ceb4";
   "#ffeaa7"; "#dda0dd"; "#98d8c8"; "#f7dc6f"].

(** The callback of [reduce]; [b] is [b.charCodeAt(0)]. *)
Definition hashStep (a b : Z) : Z :=
  let a := (shiftLeft a 5 - a) + b in
  bitAnd a a.

Definition hashOf (playerId : list Z) : Z := fold_left hashStep playerId 0.

(** [None] stands for [undefined], which an index outside the array
    would give. *)
Definition generatePlayerColor (playerId : list Z) : option string :=
  let hash := hashOf playerId in
  colors !! Z.to_nat (Z.rem (Z.abs hash) (Z.of_nat (length colors))).

(** The code units of a string of ASCII characters. *)
Fixpoint codeUnits (s : string) : list Z :=
  match s with
  | EmptyString => []
  | String c s' => Z.of_N (N_of_ascii c) :: codeUnits s'
  end.

(** The hash as a polynomial in 31, before any wrap-around. *)
Definition polynomialHash (playerId : list Z) : Z :=
  fold_left (fun a b => 31 * a + b) playerId 0.

(** ** Sprite players *)

Inductive Direction : Type := fr | bk | lf | rt.

Definition direction_tag (d : Direction) : string :=
  match d with fr => "fr" | bk => "bk" | lf => "lf" | rt => "rt" end.

Inductive TextureFilter : Type := NearestFilter | LinearFilter.
Inductive Wrapping : Type := ClampToEdgeWrapping | RepeatWrapping.
Inductive Side : Type := FrontSide | BackSide | DoubleSide.

Record CharacterData : Type := mkCharacterData {
  name : string;
  type : string;
  style : string
}.

Record Player : Type := mkPlayer {
  id : string;
  character : option CharacterData;
  position : Qc * Qc * Qc
}.

Record Texture : Type := mkTexture {
  texture_id : ObjId;
  texture_url : string;
  magFilter : TextureFilter;
  minFilter : TextureFilter;
  wrapS : Wrapping;
  wrapT : Wrapping
}.

Record PlaneGeometry : Type := mkPlaneGeometry {
  geometry_id : ObjId;
  geometry_width : Qc;
  geometry_height : Qc
}.

Record MeshBasicMaterial : Type := mkMeshBasicMaterial {
  material_id : ObjId;
  map : Texture;
  transparent : bool;
  alphaTest : Qc;
  side : Side;
  needsUpdate : bool
}.

Record SpriteMesh : Type := mkSpriteMesh {
  geometry : PlaneGeometry;
  material : MeshBasicMaterial;
  mesh_position : Qc * Qc * Qc;
  rotation_y : Qc;
  parent : option ObjId
}.

Record UserData : Type := mkUserData {
  isPlayer : bool;
  playerId : string;
  isLocalPlayer : bool;
  spriteMesh : ObjId;
  userData_character : CharacterData
}.

Record PlayerGroup : Type := mkPlayerGroup {
  children : list ObjId;
  group_position : Qc * Qc * Qc;
  userData : UserData
}.

Record AnimationMixer : Type := mkAnimationMixer {
  mixer_id : ObjId;
  mixer_root : ObjId
}.

Record SpriteAnimation : Type := mkSpriteAnimation {
  mixer : AnimationMixer;
  currentFrame : Z;
  lastFrameTime : Z;
  isMoving : bool;
  direction : Direction
}.

(** What [dispose()] was called on. *)
Inductive Disposal : Type :=
| TextureDisposal (t : Texture)
| GeometryDisposal (g : PlaneGeometry)
| MaterialDisposal (m : MeshBasicMaterial).

(** The three static maps, and the store of the objects they refer to. *)
Record State : Type := mkState {
  spriteAnimations : list (string * SpriteAnimation);
  spriteMeshReferences : list (string * ObjId);
  spriteTextures : list (string * (Texture * Texture));
  meshes : gmap ObjId SpriteMesh;
  playerGroups : gmap ObjId PlayerGroup;
  next_id : ObjId;
  disposed : list Disposal
}.

Definition initial : State := mkState [] [] [] ∅ ∅ O [].

Definition Math_PI : Qc := Q2Qc (884279719003555 # 281474976710656).

Inductive Result (A : Type) : Type :=
| Returns (a : A)
| Throws (message : string).
Arguments Returns {A} a.
Arguments Throws {A} message.

(** What [createSpritePlayerModel] returns; [actions] is [{}]. *)
Record PlayerModel : Type := mkPlayerModel {
  model : ObjId;
  model_mixer : option AnimationMixer
}.

Definition set_spriteAnimations (a : list (string * SpriteAnimation))
    (s : State) : State :=
  mkState a s.(spriteMeshReferences) s.(spriteTextures) s.(meshes)
          s.(playerGroups) s.(next_id) s.(disposed).

Definition set_meshes (m : gmap ObjId SpriteMesh) (s : State) : State :=
  mkState s.(spriteAnimations) s.(spriteMeshReferences) s.(spriteTextures)
          m s.(playerGroups) s.(next_id) s.(disposed).

Definition log_dispose (d : Disposal) (s : State) : State :=
  mkState s.(spriteAnimations) s.(spriteMeshReferences) s.(spriteTextures)
          s.(meshes) s.(playerGroups) s.(next_id) (s.(disposed) ++ [d]).

(** [material.map = newTexture; material.needsUpdate = true] *)
Definition setMaterialMap (newTexture : Texture) (mesh : SpriteMesh)
    : SpriteMesh :=
  mkSpriteMesh mesh.(geometry)
    (mkMeshBasicMaterial mesh.(material).(material_id) newTexture
       mesh.(material).(transparent) mesh.(material).(alphaTest)
       mesh.(material).(side) true)
    mesh.(mesh_position) mesh.(rotation_y) mesh.(parent).

Definition updateSpriteTexture (playerId : string) (s : State) : State :=
  match JSMap.get playerId s.(spriteAnimations) with
  | None => s
  | Some animData =>
      match JSMap.get playerId s.(spriteMeshReferences) with
      | None => s
      | Some spriteMeshRef =>
          match JSMap.get playerId s.(spriteTextures) with
          | None => s
          | Some textures =>
              let newTexture :=
                if bool_decide (animData.(currentFrame) = 1)
                then textures.1 else textures.2 in
              set_meshes
                (alter (setMaterialMap newTexture) spriteMeshRef s.(meshes)) s
          end
      end
  end.

(** [animData] is the object the map holds, so that assigning to its
    fields changes the entry in place. *)
Definition updateSpriteAnimation (playerId : string) (isMoving : bool)
    (now : Z) (s : State) : State :=
  match JSMap.get playerId s.(spriteAnimations) with
  | None => s
  | Some animData =>
      let FRAME_DURATION := 500 in
      let animData :=
        mkSpriteAnimation animData.(mixer) animData.(currentFrame)
          animData.(lastFrameTime) isMoving animData.(direction) in
      let s := set_spriteAnimations
                 (JSMap.set playerId animData s.(spriteAnimations)) s in
      if isMoving
         && bool_decide (now - animData.(lastFrameTime) > FRAME_DURATION)
      then
        let animData :=
          mkSpriteAnimation animData.(mixer)
            (if bool_decide (animData.(currentFrame) = 1) then 2 else 1)
            now isMoving animData.(direction) in
        updateSpriteTexture playerId
          (set_spriteAnimations
             (JSMap.set playerId animData s.(spriteAnimations)) s)
      else if negb isMoving then
        if bool_decide (animData.(currentFrame) <> 1) then
          let animData :=
            mkSpriteAnimation animData.(mixer) 1 animData.(lastFrameTime)
              isMoving animData.(direction) in
          updateSpriteTexture playerId
            (set_spriteAnimations
               (JSMap.set playerId animData s.(spriteAnimations)) s)
        else s
      else s
  end.

Definition spritePath (character : CharacterData) (direction : Direction)
    (frame : string) : string :=
  "/assets/sprites/last-guardian-sprites/" +:+ character.(type)
    +:+ character.(style) +:+ "_" +:+ direction_tag direction
    +:+ frame +:+ ".gif".

(** Identities are handed out in the order of the [new] expressions and
    of the two [textureLoader.load] calls: group, geometry, the two
    textures, material, mesh, mixer. *)
Definition createSpritePlayerModel (player : Player) (isLocalPlayer : bool)
    (now : Z) (s : State) : State * Result PlayerModel :=
  match player.(character) with
  | None =>
      (s, Throws "Player must have character data for sprite rendering")
  | Some character =>
      let n := s.(next_id) in
      let playerGroup := n in
      let spriteGeometry := mkPlaneGeometry (n + 1)%nat 1%Qc (Q2Qc (3 # 2)) in
      let direction := if isLocalPlayer then bk else fr in
      let frame := 1 in
      let frame1Texture :=
        mkTexture (n + 2)%nat (spritePath character direction "1")
          NearestFilter NearestFilter ClampToEdgeWrapping
          ClampToEdgeWrapping in
      let frame2Texture :=
        mkTexture (n + 3)%nat (spritePath character direction "2")
          NearestFilter NearestFilter ClampToEdgeWrapping
          ClampToEdgeWrapping in
      let spriteTextures' :=
        JSMap.set player.(id) (frame1Texture, frame2Texture)
          s.(spriteTextures) in
      let spriteMaterial :=
        mkMeshBasicMaterial (n + 4)%nat frame1Texture true (Q2Qc (1 # 10))
          DoubleSide false in
      let spriteMesh := (n + 5)%nat in
      let spriteMeshObject :=
        mkSpriteMesh spriteGeometry spriteMaterial
          (0, Q2Qc (3 # 4), 0)%Qc
          (if negb isLocalPlayer then Math_PI else 0%Qc)
          (Some playerGroup) in
      let playerGroupObject :=
        mkPlayerGroup [spriteMesh] player.(position)
          (mkUserData true player.(id) isLocalPlayer spriteMesh character) in
      let animation :=
        mkSpriteAnimation (mkAnimationMixer (n + 6)%nat playerGroup)
          frame now false direction in
      let spriteAnimations' :=
        JSMap.set player.(id) animation s.(spriteAnimations) in
      let spriteMeshReferences' :=
        JSMap.set player.(id) spriteMesh s.(spriteMeshReferences) in
      (mkState spriteAnimations' spriteMeshReferences' spriteTextures'
               (<[spriteMesh := spriteMeshObject]> s.(meshes))
               (<[playerGroup := playerGroupObject]> s.(playerGroups))
               (n + 7)%nat s.(disposed),
       Returns (mkPlayerModel playerGroup
                  (mixer <$> JSMap.get player.(id) spriteAnimations')))
  end.

(** The callback of [mesh.traverse] on one mesh of the group. *)
Definition disposeChild (s : State) (child : ObjId) : State :=
  match s.(meshes) !! child with
  | Some mesh =>
      log_dispose (MaterialDisposal mesh.(material))
        (log_dispose (GeometryDisposal mesh.(geometry)) s)
  | None => s
  end.

(** The first half of [disposePlayerMesh]: forget the player the object
    belongs to.  A sprite mesh has no [userData.playerId], and the empty
    string is not truthy. *)
Definition forgetPlayer (object : ObjId) (s : State) : State :=
  match s.(playerGroups) !! object with
  | Some group =>
      let playerId := group.(userData).(playerId) in
      if bool_decide (playerId <> "") then
        let s1 :=
          match JSMap.get playerId s.(spriteTextures) with
          | Some textures =>
              let s' :=
                log_dispose (TextureDisposal textures.2)
                  (log_dispose (TextureDisposal textures.1) s) in
              mkState s'.(spriteAnimations) s'.(spriteMeshReferences)
                      (JSMap.delete playerId s'.(spriteTextures))
                      s'.(meshes) s'.(playerGroups) s'.(next_id)
                      s'.(disposed)
          | None => s
          end in
        mkState (JSMap.delete playerId s1.(spriteAnimations))
                (JSMap.delete playerId s1.(spriteMeshReferences))
                s1.(spriteTextures) s1.(meshes) s1.(playerGroups)
                s1.(next_id) s1.(disposed)
      else s
  | None => s
  end.

(** [disposePlayerMesh] on an object of the store: a sprite mesh is a
    [THREE.Mesh], a player group is a [THREE.Group] whose traversal
    visits the group and then its children. *)
Definition disposePlayerMesh (mesh : ObjId) (s : State) : State :=
  let s1 := forgetPlayer mesh s in
  match s1.(meshes) !! mesh with
  | Some _ => disposeChild s1 mesh
  | None =>
      match s1.(playerGroups) !! mesh with
      | Some group => fold_left disposeChild group.(children) s1
      | None => s1
      end
  end.

(** The calls that change the state. *)
Inductive Call : Type :=
| call_createSpritePlayerModel (player : Player) (isLocalPlayer : bool)
    (now : Z)
| call_updateSpriteAnimation (playerId : string) (isMoving : bool) (now : Z)
| call_disposePlayerMesh (mesh : ObjId).

Definition call (s : State) (c : Call) : State :=
  match c with
  | call_createSpritePlayerModel player isLocalPlayer now =>
      (createSpritePlayerModel player isLocalPlayer now s).1
  | call_updateSpriteAnimation playerId isMoving now =>
      updateSpriteAnimation playerId isMoving now s
  | call_disposePlayerMesh mesh => disposePlayerMesh mesh s
  end.

Definition calls (cs : list Call) (s : State) : State := fold_left call cs s.

(** The texture a sprite shows is the one of its current frame. *)
Definition shows_current_frame (s : State) (playerId : string) : Prop :=
  forall animData spriteMeshRef textures,
    JSMap.get playerId s.(spriteAnimations) = Some animData ->
    JSMap.get playerId s.(spriteMeshReferences) = Some spriteMeshRef ->
    JSMap.get playerId s.(spriteTextures) = Some textures ->
    exists mesh,
      s.(meshes) !! spriteMeshRef = Some mesh
      /\ mesh.(material).(map)
         = if bool_decide (animData.(currentFrame) = 1)
           then textures.1 else textures.2.

Record Invariant (s : State) : Prop := mkInvariant {
  inv_same_players_refs :
    JSMap.keys s.(spriteMeshReferences) = JSMap.keys s.(spriteAnimations);
  inv_same_players_textures :
    JSMap.keys s.(spriteTextures) = JSMap.keys s.(spriteAnimations);
  inv_players_NoDup : NoDup (JSMap.keys s.(spriteAnimations));
  inv_frames :
    Forall (fun kv => kv.2.(currentFrame) = 1 \/ kv.2.(currentFrame) = 2)
           s.(spriteAnimations);
  inv_meshes_NoDup : NoDup s.(spriteMeshReferences).*2;
  inv_meshes_allocated :
    Forall (fun kv => (kv.2 < s.(next_id))%nat) s.(spriteMeshReferences);
  inv_store_allocated :
    forall o, is_Some (s.(meshes) !! o) -> (o < s.(next_id))%nat;
  inv_shows : forall playerId, shows_current_frame s playerId
}.

End PlayerManager.

(** * getPathCoordinates

    The path rasterizer of [CubeFloorRenderer], on doubles.

    - A number is a binary64 double: [+], [-], [*], [/] and
      [Math.sqrt] are the correctly rounded operations of IEEE 754,
      [===] and [<] are its comparisons ([NaN] equals nothing, the two
      zeros are equal).
    - [Math.floor], [Math.ceil] and [Math.round] are computed from the
      mantissa [m] and the exponent [e] of a finite double [m * 2^e]:
      a double with [e >= 0] is an integer already, and otherwise the
      quotient and the remainder of [m] by [2^-e] decide.  A result
      that is zero keeps the sign of the argument; [Math.round] rounds
      a tie towards plus infinity.  Zeros, infinities and [NaN] are
      returned as they are.
    - The loops need not end, so the model counts the tests a loop may
      make ([fuel]); [None] says that they were not enough. *)

Module Path.
Import Stdlib.Floats.Floats.

(** The double of an integer between 0 and 2^53, with a sign. *)
Definition ofInteger (negative : bool) (z : Z) : float :=
  let f := of_uint63 (Uint63.of_Z z) in
  if negative then (- f)%float else f.

Definition Math_floor (v : float) : float :=
  match Prim2SF v with
  | S754_finite s m e =>
      if bool_decide (0 <= e) then v
      else
        let d := 2 ^ (- e) in
        let q := Z.pos m / d in
        let r := Z.pos m mod d in
        ofInteger s
          (if s then (if bool_decide (r = 0) then q else q + 1) else q)
  | _ => v
  end.

Definition Math_ceil (v : float) : float :=
  match Prim2SF v with
  | S754_finite s m e =>
      if bool_decide (0 <= e) then v
      else
        let d := 2 ^ (- e) in
        let q := Z.pos m / d in
        let r := Z.pos m mod d in
        ofInteger s
          (if s then q else (if bool_decide (r = 0) then q else q + 1))
  | _ => v
  end.

Definition Math_round (v : float) : float :=
  match Prim2SF v with
  | S754_finite s m e =>
      if bool_decide (0 <= e) then v
      else
        let d := 2 ^ (- e) in
        let q := Z.pos m / d in
        let r := Z.pos m mod d in
        ofInteger s
          (if s then (if bool_decide (d < 2 * r) then q + 1 else q)
           else (if bool_decide (d <= 2 * r) then q + 1 else q))
  | _ => v
  end.

Definition Math_sqrt (v : float) : float := PrimFloat.sqrt v.

(** [{ x, y }] as [getPathCoordinates] makes it. *)
Record Position : Type := mkPosition { x : float; y : float }.

(** [for (let i = start; i < bound; i++) body(i)] *)
Fixpoint for_lt {A : Type} (fuel : nat) (i bound : float)
    (body : float -> A -> option A) (acc : A) : option A :=
  match fuel with
  | O => None
  | S fuel' =>
      if (i <? bound)%float
      then match body i acc with
           | Some acc' => for_lt fuel' (i + 1)%float bound body acc'
           | None => None
           end
      else Some acc
  end.

(** [c => c.x === coord.x && c.y === coord.y] *)
Definition sameCoord (coord c : Position) : bool :=
  (c.(x) =? coord.(x))%float && (c.(y) =? coord.(y))%float.

Definition uniqueCoords (coordinates : list Position) : list Position :=
  filter_from
    (fun coord index =>
       bool_decide (findIndex (sameCoord coord) coordinates = index))
    0 coordinates.

(** What the filter keeps, given what came before: a coordinate that
    equals itself (no field is [NaN]) and equals nothing seen so far. *)
Fixpoint firstOccurrences (seen l : list Position) : list Position :=
  match l with
  | [] => []
  | c :: l' =>
      if sameCoord c c && forallb (fun c' => negb (sameCoord c c')) seen
      then c :: firstOccurrences (seen ++ [c]) l'
      else firstOccurrences (seen ++ [c]) l'
  end.

(** [width] is [None] when the caller leaves it out. *)
Definition getPathCoordinates (fuel : nat) (startX startY endX endY : float)
    (width : option float) : option (list Position) :=
  let width := default 1%float width in
  let dx := (endX - startX)%float in
  let dy := (endY - startY)%float in
  let length := Math_sqrt (dx * dx + dy * dy)%float in
  if (length =? 0)%float then
    Some [mkPosition (Math_round startX) (Math_round startY)]
  else
    let dirX := (dx / length)%float in
    let dirY := (dy / length)%float in
    let perpX := (- dirY)%float in
    let perpY := dirX in
    let steps := (Math_ceil length + 1)%float in
    match
      for_lt fuel 0%float steps
        (fun i coordinates =>
           let t := (i / (steps - 1))%float in
           let centerX := (startX + dirX * length * t)%float in
           let centerY := (startY + dirY * length * t)%float in
           for_lt fuel 0%float width
             (fun w coordinates =>
                let widthOffset := (w - Math_floor (width / 2))%float in
                let finalX :=
                  Math_round (centerX + perpX * widthOffset)%float in
                let finalY :=
                  Math_round (centerY + perpY * widthOffset)%float in
                Some (coordinates ++ [mkPosition finalX finalY]))
             coordinates)
        []
    with
    | Some coordinates => Some (uniqueCoords coordinates)
    | None => None
    end.

(** The literal [1e200]: the double nearest to 10^200. *)
Definition number_1e200 : float := 0x1.4e718d7d7625ap+664%float.

End Path.

(** ** A concrete instance

    Materials are identified with the texture tag they were made for,
    and the configured cube size is 1. *)

Definition demoMaterial (cubeType : CubeType) : CubeType := cubeType.

Definition demoWorld : @World CubeType := mkWorld ∅ ∅ O [].

Definition demoInitial : @State CubeType := initial demoWorld.

Definition demoOptions : CubeFloorOptions := mkCubeFloorOptions None None None.

(** One room tile at (1,2), one hallway tile at (1,3), and the stairs at
    (7,7) excluded. *)
Definition demoRegistered : @State CubeType :=
  registerCubes [mkCubePosition 1 3] 0x0000ff hallway
    (registerCubes [mkCubePosition 1 2; mkCubePosition 7 7] 0x00ff00 room
       (setExcludedCoordinates [mkCubePosition 7 7] demoInitial)).

(** The hallway batch is registered a second time, which turns (1,3) into
    an overlap, and (1,2) is excluded after it was registered. *)
Definition demoExcludedLater : @State CubeType :=
  setExcludedCoordinates [mkCubePosition 1 2]
    (registerCubes [mkCubePosition 1 3] 0x0000ff hallway demoRegistered).

(** [demoRegistered] rendered once on scene 0. *)
Definition demoRendered : @State CubeType :=
  (renderAllCubes demoMaterial 1%Qc 0%nat demoOptions demoRegistered).1.

(** A registered and rendered floor goes through the calls of the class. *)
Definition demoCalls : list Call :=
  [call_setExcludedCoordinates [mkCubePosition 7 7];
   call_registerCubes [mkCubePosition 1 2; mkCubePosition 7 7] 0x00ff00
     registered_room;
   call_registerCubes [mkCubePosition 1 2] 0x0000ff registered_hallway;
   call_renderAllCubes 0%nat demoOptions;
   call_unregisterCoordinates [mkCubePosition 1 2];
   call_renderAllCubes 1%nat demoOptions;
   call_dispose].

(** One other player, created at time 1000; the same player half a
    second later, walking; and a player whose id is the empty string. *)
Definition demoCharacter : PlayerManager.CharacterData :=
  PlayerManager.mkCharacterData "Guardian" "guardian" "A".

Definition demoPlayer : PlayerManager.Player :=
  PlayerManager.mkPlayer "p1" (Some demoCharacter) (0, 0, 0)%Qc.

Definition demoUnnamedPlayer : PlayerManager.Player :=
  PlayerManager.mkPlayer "" (Some demoCharacter) (0, 0, 0)%Qc.

Definition demoSprites : PlayerManager.State :=
  (PlayerManager.createSpritePlayerModel demoPlayer false 1000
     PlayerManager.initial).1.

Definition demoAnimation : PlayerManager.SpriteAnimation :=
  PlayerManager.mkSpriteAnimation (PlayerManager.mkAnimationMixer 6%nat 0%nat) 1 1000
    false PlayerManager.fr.

Definition demoWalking : PlayerManager.State :=
  PlayerManager.updateSpriteAnimation "p1" true 1600 demoSprites.

Definition demoWalkingAnimation : PlayerManager.SpriteAnimation :=
  PlayerManager.mkSpriteAnimation (PlayerManager.mkAnimationMixer 6%nat 0%nat) 2 1600
    true PlayerManager.fr.

(** * Properties *)

Section RendererFacts.
Context {Material : Type}.
Variable createMaterialWithTexture : CubeType -> Material.
Variable getCubeSize : Qc.

Local Abbreviation State := (@State Material).
Local Abbreviation World := (@World Material).
Local Abbreviation Mesh := (@Mesh Material).
Local Abbreviation floorCube := (floorCube createMaterialWithTexture).
Local Abbreviation renderCube := (renderCube createMaterialWithTexture).
Local Abbreviation passGeometry := (passGeometry getCubeSize).
Local Abbreviation renderAllCubes :=
  (renderAllCubes createMaterialWithTexture getCubeSize).

(** ** Facts about insertion-ordered maps *)

Section JSMapFacts.
Context {K V : Type} `{EqDecision K}.
Implicit Types (k : K) (v : V) (m : list (K * V)).

Lemma JSMap_get_set_eq k v m : JSMap.get k (JSMap.set k v m) = Some v.
Proof.
  induction m as [|[k' v'] m IH]; simpl.
  - by rewrite decide_True.
  - destruct (decide (k' = k)) as [->|Hne]; simpl.
    + by rewrite decide_True.
    + by rewrite decide_False.
Qed.

Lemma JSMap_get_set_ne k k' v m :
  k ≠ k' -> JSMap.get k' (JSMap.set k v m) = JSMap.get k' m.
Proof.
  intros Hne. induction m as [|[k0 v0] m IH]; simpl.
  - by rewrite decide_False.
  - destruct (decide (k0 = k)) as [->|Hk0]; simpl.
    + by rewrite !decide_False.
    + by rewrite IH.
Qed.

Lemma JSMap_get_None k m : JSMap.get k m = None <-> k ∉ JSMap.keys m.
Proof.
  unfold JSMap.keys. induction m as [|[k' v'] m IH]; simpl.
  - split; [intros _; apply not_elem_of_nil | done].
  - rewrite not_elem_of_cons. destruct (decide (k' = k)) as [->|Hne].
    + split; [done | by intros []].
    + rewrite IH. split; [intros ?; split; [congruence | done] | by intros [_ ?]].
Qed.

Lemma JSMap_get_Some_key k v m : JSMap.get k m = Some v -> k ∈ JSMap.keys m.
Proof.
  intros Hget. destruct (decide (k ∈ JSMap.keys m)) as [|Hn]; [done|].
  apply JSMap_get_None in Hn. congruence.
Qed.

(** Overwriting an occupied key leaves the iteration order alone. *)
Lemma JSMap_keys_set_occupied k v m :
  k ∈ JSMap.keys m -> JSMap.keys (JSMap.set k v m) = JSMap.keys m.
Proof.
  unfold JSMap.keys. induction m as [|[k' v'] m IH]; simpl.
  - by intros ?%elem_of_nil.
  - intros Hin. destruct (decide (k' = k)) as [->|Hne]; simpl; [done|].
    f_equal. apply IH. apply elem_of_cons in Hin as [->|]; done.
Qed.

(** A key that is not there yet goes to the end. *)
Lemma JSMap_keys_set_fresh k v m :
  k ∉ JSMap.keys m -> JSMap.keys (JSMap.set k v m) = JSMap.keys m ++ [k].
Proof.
  unfold JSMap.keys. induction m as [|[k' v'] m IH]; simpl; [done|].
  intros [Hne Hnin]%not_elem_of_cons.
  rewrite decide_False by done. simpl. f_equal. by apply IH.
Qed.
End JSMapFacts.

(** ** The registry under [registerCubes] *)

Implicit Types (s : State) (coord : CubePosition) (k : string).

Lemma registerCube_frame color type s coord :
  (registerCube color type s coord).(excludedCoordinates)
    = s.(excludedCoordinates)
  /\ (registerCube color type s coord).(sceneGroups) = s.(sceneGroups)
  /\ (registerCube color type s coord).(world) = s.(world).
Proof.
  unfold registerCube. case_bool_decide; [done|].
  by destruct (JSMap.get _ _).
Qed.

Lemma registerCubes_frame coordinates color type s :
  (registerCubes coordinates color type s).(excludedCoordinates)
    = s.(excludedCoordinates)
  /\ (registerCubes coordinates color type s).(sceneGroups) = s.(sceneGroups)
  /\ (registerCubes coordinates color type s).(world) = s.(world).
Proof.
  unfold registerCubes. revert s.
  induction coordinates as [|c cs IH]; intros s; simpl; [done|].
  destruct (IH (registerCube color type s c)) as (-> & -> & ->).
  apply registerCube_frame.
Qed.

Lemma registerCube_skip color type s coord :
  keyOf coord ∈ s.(excludedCoordinates) ->
  registerCube color type s coord = s.
Proof.
  intros Hin. unfold registerCube. fold (keyOf coord).
  by rewrite bool_decide_eq_true_2.
Qed.

Lemma registerCube_get_other color type s coord k :
  k ≠ keyOf coord ->
  JSMap.get k (registerCube color type s coord).(cubeRegistry)
    = JSMap.get k s.(cubeRegistry).
Proof.
  intros Hne. unfold registerCube. fold (keyOf coord).
  case_bool_decide; [done|].
  destruct (JSMap.get (keyOf coord) _); simpl;
    by rewrite JSMap_get_set_ne.
Qed.

Lemma registerCube_get_occupied color type s coord existing :
  keyOf coord ∉ s.(excludedCoordinates) ->
  JSMap.get (keyOf coord) s.(cubeRegistry) = Some existing ->
  JSMap.get (keyOf coord) (registerCube color type s coord).(cubeRegistry)
    = Some (mkCubeInfo coord 0x800080 overlap).
Proof.
  intros Hex Hget. unfold registerCube. fold (keyOf coord).
  rewrite bool_decide_eq_false_2 by done. rewrite Hget. simpl.
  apply JSMap_get_set_eq.
Qed.

Lemma registerCube_get_free color type s coord :
  keyOf coord ∉ s.(excludedCoordinates) ->
  JSMap.get (keyOf coord) s.(cubeRegistry) = None ->
  JSMap.get (keyOf coord) (registerCube color type s coord).(cubeRegistry)
    = Some (mkCubeInfo coord color type).
Proof.
  intros Hex Hget. unfold registerCube. fold (keyOf coord).
  rewrite bool_decide_eq_false_2 by done. rewrite Hget. simpl.
  apply JSMap_get_set_eq.
Qed.

(** Records are never removed by a registration. *)
Lemma registerCube_keeps color type s coord k :
  is_Some (JSMap.get k s.(cubeRegistry)) ->
  is_Some (JSMap.get k (registerCube color type s coord).(cubeRegistry)).
Proof.
  intros Hsome. destruct (decide (k = keyOf coord)) as [->|Hne].
  - unfold registerCube. fold (keyOf coord). case_bool_decide; [done|].
    destruct (JSMap.get (keyOf coord) _); simpl;
      rewrite JSMap_get_set_eq; eauto.
  - by rewrite registerCube_get_other.
Qed.

Lemma registerCubes_keeps coordinates color type s k :
  is_Some (JSMap.get k s.(cubeRegistry)) ->
  is_Some (JSMap.get k (registerCubes coordinates color type s).(cubeRegistry)).
Proof.
  unfold registerCubes. revert s.
  induction coordinates as [|c cs IH]; intros s Hsome; simpl; [done|].
  apply IH. by apply registerCube_keeps.
Qed.

Lemma registerCubes_snoc coordinates coord color type s :
  registerCubes (coordinates ++ [coord]) color type s
    = registerCube color type (registerCubes coordinates color type s) coord.
Proof. unfold registerCubes. by rewrite fold_left_app. Qed.

Lemma registerCubes_app pre post color type s :
  registerCubes (pre ++ post) color type s
    = registerCubes post color type (registerCubes pre color type s).
Proof. unfold registerCubes. by rewrite fold_left_app. Qed.

(** A non-excluded key of the batch is occupied once the batch is done. *)
Lemma registerCubes_occupies coordinates color type s k :
  k ∉ s.(excludedCoordinates) ->
  k ∈ keyOf <$> coordinates ->
  is_Some (JSMap.get k (registerCubes coordinates color type s).(cubeRegistry)).
Proof.
  intros Hex. induction coordinates as [|c cs IH] using rev_ind.
  - by intros ?%elem_of_nil.
  - rewrite fmap_app, elem_of_app. simpl. rewrite list_elem_of_singleton.
    rewrite registerCubes_snoc. intros [Hin| ->].
    + apply registerCube_keeps. by apply IH.
    + pose proof (registerCubes_frame cs color type s) as (Hexcl & _ & _).
      destruct (JSMap.get (keyOf c) (registerCubes cs color type s).(cubeRegistry))
        as [existing|] eqn:Hget.
      * erewrite registerCube_get_occupied; eauto. by rewrite Hexcl.
      * rewrite registerCube_get_free; eauto. by rewrite Hexcl.
Qed.

(** C1. A coordinate that [registerCubes] processes while its key is not
    excluded and already holds a record leaves the record
    [{position: coord, color: 0x800080, type: 'overlap'}], whatever the
    record held and whatever colour and type are being registered.  The
    record may come from an earlier call (it is in the registry when the
    batch starts) or from an earlier coordinate of the same batch with
    the same key; once written, the overlap record stays an overlap
    record until the end of the batch. *)
Theorem registerCubes_overlap
    (pre post : list CubePosition) (coord : CubePosition)
    (color : Z) (type : CubeInfoType) (s : State) :
  keyOf coord ∉ s.(excludedCoordinates) ->
  is_Some (JSMap.get (keyOf coord) s.(cubeRegistry))
    \/ keyOf coord ∈ keyOf <$> pre ->
  JSMap.get (keyOf coord)
      (registerCubes (pre ++ [coord]) color type s).(cubeRegistry)
    = Some (mkCubeInfo coord OVERLAP_COLOR overlap)
  /\ exists last, last ∈ coord :: post /\ keyOf last = keyOf coord
     /\ JSMap.get (keyOf coord)
          (registerCubes (pre ++ coord :: post) color type s).(cubeRegistry)
        = Some (mkCubeInfo last OVERLAP_COLOR overlap).
Proof.
  intros Hex Hocc. unfold OVERLAP_COLOR.
  pose proof (registerCubes_frame pre color type s) as (Hexcl & _ & _).
  assert (is_Some (JSMap.get (keyOf coord)
            (registerCubes pre color type s).(cubeRegistry)))
    as [existing Hget].
  { destruct Hocc as [Hsome|Hdup].
    - by apply registerCubes_keeps.
    - by apply registerCubes_occupies. }
  assert (JSMap.get (keyOf coord)
            (registerCubes (pre ++ [coord]) color type s).(cubeRegistry)
          = Some (mkCubeInfo coord 0x800080 overlap)) as Hnow.
  { rewrite registerCubes_snoc. eapply registerCube_get_occupied; [|done].
    by rewrite Hexcl. }
  split; [done|].
  (* later coordinates of the same key rewrite the overlap record *)
  enough (exists c, c ∈ coord :: post /\ keyOf c = keyOf coord
            /\ JSMap.get (keyOf coord)
                 (registerCubes (pre ++ coord :: post) color type s).(cubeRegistry)
               = Some (mkCubeInfo c 0x800080 overlap)) by done.
  replace (pre ++ coord :: post) with ((pre ++ [coord]) ++ post)
    by (by rewrite <- app_assoc).
  rewrite registerCubes_app.
  assert ((registerCubes (pre ++ [coord]) color type s).(excludedCoordinates)
          = s.(excludedCoordinates)) as Hexcl'
    by apply registerCubes_frame.
  revert Hnow Hexcl'.
  generalize (registerCubes (pre ++ [coord]) color type s) as s1.
  intros s1 Hnow Hexcl'.
  induction post as [|c cs IH] using rev_ind.
  - exists coord. split; [apply list_elem_of_here | done].
  - rewrite registerCubes_snoc.
    destruct IH as (c0 & Hin & Hk0 & Hget0).
    pose proof (registerCubes_frame cs color type s1) as (Hexcl1 & _ & _).
    destruct (decide (keyOf c = keyOf coord)) as [Heq|Hne].
    + exists c. split; [|split; [done|]].
      * rewrite app_comm_cons. apply elem_of_app. right.
        apply list_elem_of_here.
      * rewrite <- Heq. eapply registerCube_get_occupied.
        -- rewrite Hexcl1, Hexcl', Heq. done.
        -- rewrite Heq. exact Hget0.
    + exists c0. split; [|split; [done|]].
      * rewrite app_comm_cons. apply elem_of_app. by left.
      * rewrite registerCube_get_other by done. exact Hget0.
Qed.

(** C2. For a key of the exclusion set, [registerCubes] is a no-op:
    processing a coordinate with that key returns the state as it was,
    and after any batch the registry answers for that key exactly as
    before (no record is created, an existing one is left as it is),
    the exclusion set being the same. *)
Theorem registerCubes_excluded_noop
    (color : Z) (type : CubeInfoType) (s : State) (k : string) :
  k ∈ s.(excludedCoordinates) ->
  (forall coord, keyOf coord = k -> registerCube color type s coord = s)
  /\ (forall coordinates,
        JSMap.get k (registerCubes coordinates color type s).(cubeRegistry)
          = JSMap.get k s.(cubeRegistry)
        /\ (k ∈ JSMap.keys (registerCubes coordinates color type s).(cubeRegistry)
            <-> k ∈ JSMap.keys s.(cubeRegistry))
        /\ (registerCubes coordinates color type s).(excludedCoordinates)
             = s.(excludedCoordinates)).
Proof.
  intros Hin. split.
  - intros coord <-. by apply registerCube_skip.
  - intros coordinates.
    assert (JSMap.get k (registerCubes coordinates color type s).(cubeRegistry)
            = JSMap.get k s.(cubeRegistry)) as Hget.
    { induction coordinates as [|c cs IH] using rev_ind; [done|].
      rewrite registerCubes_snoc.
      pose proof (registerCubes_frame cs color type s) as (Hexcl & _ & _).
      destruct (decide (k = keyOf c)) as [->|Hne].
      - rewrite registerCube_skip; [done | by rewrite Hexcl].
      - by rewrite registerCube_get_other. }
    split; [done|]. split; [|apply registerCubes_frame].
    assert (forall m : list (string * CubeInfo),
              k ∈ JSMap.keys m <-> JSMap.get k m <> None) as Hk.
    { intros m. rewrite JSMap_get_None.
      destruct (decide (k ∈ JSMap.keys m)); naive_solver. }
    by rewrite !Hk, Hget.
Qed.

(** ** The exclusion set under [setExcludedCoordinates] *)

Lemma excludeCoordinates_fold coordinates s :
  (fold_left excludeCoordinate coordinates s).(excludedCoordinates)
    = list_to_set (keyOf <$> coordinates) ∪ s.(excludedCoordinates)
  /\ (fold_left excludeCoordinate coordinates s).(cubeRegistry)
       = s.(cubeRegistry)
  /\ (fold_left excludeCoordinate coordinates s).(sceneGroups)
       = s.(sceneGroups)
  /\ (fold_left excludeCoordinate coordinates s).(world) = s.(world).
Proof.
  revert s. induction coordinates as [|c cs IH]; intros s; simpl.
  - split; [set_solver | done].
  - destruct (IH (excludeCoordinate s c)) as (-> & -> & -> & ->).
    unfold excludeCoordinate; simpl. fold (keyOf c).
    split; [set_solver | done].
Qed.

Lemma State_eq s1 s2 :
  s1.(cubeRegistry) = s2.(cubeRegistry) ->
  s1.(sceneGroups) = s2.(sceneGroups) ->
  s1.(excludedCoordinates) = s2.(excludedCoordinates) ->
  s1.(world) = s2.(world) ->
  s1 = s2.
Proof. destruct s1, s2; simpl; congruence. Qed.

Lemma setExcludedCoordinates_fields coordinates s :
  (setExcludedCoordinates coordinates s).(excludedCoordinates)
    = list_to_set (keyOf <$> coordinates)
  /\ (setExcludedCoordinates coordinates s).(cubeRegistry) = s.(cubeRegistry)
  /\ (setExcludedCoordinates coordinates s).(sceneGroups) = s.(sceneGroups)
  /\ (setExcludedCoordinates coordinates s).(world) = s.(world).
Proof.
  unfold setExcludedCoordinates.
  destruct (excludeCoordinates_fold coordinates
              (set_excludedCoordinates ∅ s)) as (-> & -> & -> & ->).
  simpl. split; [set_solver | done].
Qed.

(** C7. [setExcludedCoordinates(coords)] leaves an exclusion set that
    holds exactly the keys of [coords], whatever it held before; calling
    it again with the same coordinates changes nothing; and the
    registry (as well as the scene table and the three.js store) is the
    one from before the call. *)
Theorem setExcludedCoordinates_replaces
    (coordinates : list CubePosition) (s : State) :
  (forall k, k ∈ (setExcludedCoordinates coordinates s).(excludedCoordinates)
             <-> k ∈ keyOf <$> coordinates)
  /\ (forall old : gset string,
        (setExcludedCoordinates coordinates
           (set_excludedCoordinates old s)).(excludedCoordinates)
          = (setExcludedCoordinates coordinates s).(excludedCoordinates))
  /\ setExcludedCoordinates coordinates (setExcludedCoordinates coordinates s)
       = setExcludedCoordinates coordinates s
  /\ (setExcludedCoordinates coordinates s).(cubeRegistry) = s.(cubeRegistry)
  /\ (setExcludedCoordinates coordinates s).(sceneGroups) = s.(sceneGroups)
  /\ (setExcludedCoordinates coordinates s).(world) = s.(world).
Proof.
  pose proof (setExcludedCoordinates_fields coordinates) as Hset.
  destruct (Hset s) as (Hex & Hreg & Hgrp & Hw).
  split; [|split; [|split]].
  - intros k. rewrite Hex. apply elem_of_list_to_set.
  - intros old.
    destruct (Hset (set_excludedCoordinates old s)) as (-> & _).
    by rewrite Hex.
  - destruct (Hset (setExcludedCoordinates coordinates s))
      as (Hex' & Hreg' & Hgrp' & Hw').
    apply State_eq; congruence.
  - done.
Qed.

(** ** Iteration order of the registry *)

Lemma getAllCoordinates_positions s :
  getAllCoordinates s = (fun kv => kv.2.(position)) <$> s.(cubeRegistry).
Proof.
  unfold getAllCoordinates, JSMap.forEach.
  generalize (cubeRegistry s) as m. intros m.
  induction m as [|kv m IH] using rev_ind; [done|].
  by rewrite fold_left_app, fmap_app, IH.
Qed.

Lemma registry_wf_keys s :
  registry_wf s -> keyOf <$> getAllCoordinates s = JSMap.keys s.(cubeRegistry).
Proof.
  rewrite getAllCoordinates_positions. unfold registry_wf, JSMap.keys.
  induction 1 as [|[k v] m Hk _ IH]; simpl in *; [done|].
  rewrite <- Hk. f_equal. exact IH.
Qed.

Lemma Forall_JSMap_set (P : string * CubeInfo -> Prop) k v
    (m : list (string * CubeInfo)) :
  Forall P m -> P (k, v) -> Forall P (JSMap.set k v m).
Proof.
  intros Hm Hkv. induction Hm as [|[k' v'] m Hk' Hm IH]; simpl.
  - by constructor.
  - destruct (decide (k' = k)) as [->|Hne]; by constructor.
Qed.

Lemma registerCube_wf color type s coord :
  registry_wf s -> registry_wf (registerCube color type s coord).
Proof.
  intros Hwf. unfold registerCube. fold (keyOf coord).
  case_bool_decide; [done|].
  destruct (JSMap.get _ _); by apply Forall_JSMap_set.
Qed.

Lemma registerCubes_wf coordinates color type s :
  registry_wf s -> registry_wf (registerCubes coordinates color type s).
Proof.
  unfold registerCubes. revert s.
  induction coordinates as [|c cs IH]; intros s Hwf; simpl; [done|].
  apply IH. by apply registerCube_wf.
Qed.

Lemma registerCube_keys color type s coord :
  JSMap.keys (registerCube color type s coord).(cubeRegistry)
    = if bool_decide (keyOf coord ∈ s.(excludedCoordinates))
      then JSMap.keys s.(cubeRegistry)
      else insert_once (JSMap.keys s.(cubeRegistry)) (keyOf coord).
Proof.
  unfold registerCube, insert_once. fold (keyOf coord).
  case_bool_decide; [done|].
  destruct (JSMap.get (keyOf coord) _) as [existing|] eqn:Hget; simpl.
  - apply JSMap_get_Some_key in Hget as Hin.
    rewrite decide_True by done. by apply JSMap_keys_set_occupied.
  - apply JSMap_get_None in Hget as Hnin.
    rewrite decide_False by done. by apply JSMap_keys_set_fresh.
Qed.

Lemma registerCubes_keys coordinates color type s :
  JSMap.keys (registerCubes coordinates color type s).(cubeRegistry)
    = insertion_order (JSMap.keys s.(cubeRegistry))
        (filter (fun k => k ∉ s.(excludedCoordinates)) (keyOf <$> coordinates)).
Proof.
  unfold registerCubes, insertion_order. revert s.
  induction coordinates as [|c cs IH]; intros s; simpl; [done|].
  rewrite IH, registerCube_keys.
  destruct (registerCube_frame color type s c) as (-> & _).
  rewrite filter_cons. case_bool_decide as Hc.
  - by rewrite decide_False by (by intros ?).
  - by rewrite decide_True by done.
Qed.

Lemma insertion_order_prefix ks inserted :
  ks `prefix_of` insertion_order ks inserted.
Proof.
  unfold insertion_order. revert ks.
  induction inserted as [|k l IH]; intros ks; simpl; [done|].
  etrans; [|apply IH]. unfold insert_once.
  case_decide; [done | by apply prefix_app_r].
Qed.

(** C10. [getAllCoordinates] returns the position of every record of
    the registry, excluded and overlap ones included, in the registry's
    iteration order, and that order is the order of first insertion:
    after a batch the keys of the returned positions are the keys from
    before, in place, followed by the newly registered keys in the order
    they were first seen.  Registering a coordinate whose key is
    already there (the overlap overwrite) moves nothing. *)
Theorem getAllCoordinates_insertion_order
    (coordinates : list CubePosition) (color : Z) (type : CubeInfoType)
    (s : State) :
  registry_wf s ->
  getAllCoordinates s = (fun kv => kv.2.(position)) <$> s.(cubeRegistry)
  /\ keyOf <$> getAllCoordinates (registerCubes coordinates color type s)
     = insertion_order (keyOf <$> getAllCoordinates s)
         (filter (fun k => k ∉ s.(excludedCoordinates))
                 (keyOf <$> coordinates))
  /\ (keyOf <$> getAllCoordinates s)
       `prefix_of`
     (keyOf <$> getAllCoordinates (registerCubes coordinates color type s))
  /\ (forall coord,
        keyOf coord ∈ keyOf <$> getAllCoordinates s ->
        keyOf <$> getAllCoordinates (registerCube color type s coord)
          = keyOf <$> getAllCoordinates s).
Proof.
  intros Hwf. split; [apply getAllCoordinates_positions|].
  assert (keyOf <$> getAllCoordinates (registerCubes coordinates color type s)
          = insertion_order (keyOf <$> getAllCoordinates s)
              (filter (fun k => k ∉ s.(excludedCoordinates))
                      (keyOf <$> coordinates))) as Horder.
  { rewrite !registry_wf_keys by (done || by apply registerCubes_wf).
    apply registerCubes_keys. }
  split; [done|]. split.
  - rewrite Horder. apply insertion_order_prefix.
  - intros coord. rewrite !registry_wf_keys
      by (done || by apply registerCube_wf).
    intros Hin. rewrite registerCube_keys. unfold insert_once.
    case_bool_decide; [done|]. by rewrite decide_True.
Qed.

(** ** Ascending loops and the area rasterizer *)

Section Loops.
Context {A : Type}.
Implicit Types (body : Z -> list A).

(** The loop equation: test, body, increment, repeat. *)
Lemma for_upto_step start stop body :
  for_upto start stop body
    = if bool_decide (start <= stop)
      then body start ++ for_upto (start + 1) stop body
      else [].
Proof.
  unfold for_upto. case_bool_decide as Hle.
  - replace (Z.to_nat (stop - start + 1))
      with (S (Z.to_nat (stop - (start + 1) + 1))) by lia.
    done.
  - by replace (Z.to_nat (stop - start + 1)) with O by lia.
Qed.

Lemma elem_of_for_upto_go n i body a :
  a ∈ for_upto_go n i body
  <-> exists j, i <= j < i + Z.of_nat n /\ a ∈ body j.
Proof.
  revert i. induction n as [|n IH]; intros i; simpl.
  - split; [by intros ?%elem_of_nil | intros (j & ? & _); lia].
  - rewrite elem_of_app, IH. split.
    + intros [Hin|(j & Hj & Hin)]; [exists i | exists j]; split; (done || lia).
    + intros (j & Hj & Hin). destruct (decide (j = i)) as [->|Hne].
      * by left.
      * right. exists j. split; [lia | done].
Qed.

Lemma elem_of_for_upto start stop body a :
  a ∈ for_upto start stop body
  <-> exists j, start <= j <= stop /\ a ∈ body j.
Proof.
  unfold for_upto. rewrite elem_of_for_upto_go.
  split; intros (j & Hj & Hin); exists j; (split; [lia | done]).
Qed.

Lemma for_upto_go_sorted (R : relation A) n i body :
  (forall j, StronglySorted R (body j)) ->
  (forall j j' a b, j < j' -> a ∈ body j -> b ∈ body j' -> R a b) ->
  StronglySorted R (for_upto_go n i body).
Proof.
  intros Hbody Hcross. revert i.
  induction n as [|n IH]; intros i; simpl; [constructor|].
  apply StronglySorted_app_2; [|apply Hbody|apply IH].
  intros a b Ha (j & Hj & Hb)%elem_of_for_upto_go.
  apply (Hcross i j); (done || lia).
Qed.

Lemma for_upto_empty start stop body :
  stop < start -> for_upto start stop body = [].
Proof.
  intros Hlt. unfold for_upto.
  by replace (Z.to_nat (stop - start + 1)) with O by lia.
Qed.
End Loops.

Lemma for_upto_ext {A : Type} start stop (body1 body2 : Z -> list A) :
  (forall j, body1 j = body2 j) ->
  for_upto start stop body1 = for_upto start stop body2.
Proof.
  intros Hext. unfold for_upto.
  generalize (Z.to_nat (stop - start + 1)) as n. intros n. revert start.
  induction n as [|n IH]; intros i; simpl; [done|]. by rewrite Hext, IH.
Qed.

Lemma for_upto_nil_body {A : Type} start stop :
  for_upto start stop (fun _ => @nil A) = [].
Proof.
  unfold for_upto. generalize (Z.to_nat (stop - start + 1)) as n.
  intros n. revert start.
  induction n as [|n IH]; intros i; simpl; [done|]. apply IH.
Qed.

(** The rectangle of the specification: its elements, its order, and
    when it is empty. *)
Lemma areaCoordinates_rectangle (startX startY endX endY : Z) :
  (forall p, p ∈ areaCoordinates startX startY endX endY
             <-> startX <= p.(x) <= endX /\ startY <= p.(y) <= endY)
  /\ StronglySorted scan_before (areaCoordinates startX startY endX endY)
  /\ (areaCoordinates startX startY endX endY = []
      <-> endX < startX \/ endY < startY).
Proof.
  unfold areaCoordinates. split; [|split].
  - intros [px py]; simpl. rewrite elem_of_for_upto. split.
    + intros (i & Hi & (j & Hj & Hin)%elem_of_for_upto).
      apply list_elem_of_singleton in Hin. injection Hin as -> ->. lia.
    + intros [Hx Hy]. exists px. split; [done|].
      apply elem_of_for_upto. exists py. split; [done|].
      by apply list_elem_of_singleton.
  - apply for_upto_go_sorted.
    + intros i. apply for_upto_go_sorted.
      * intros j. repeat constructor.
      * intros j j' a b Hlt ->%list_elem_of_singleton ->%list_elem_of_singleton.
        right. simpl. lia.
    + intros i i' a b Hlt (j & _ & ->%list_elem_of_singleton)%elem_of_for_upto
        (j' & _ & ->%list_elem_of_singleton)%elem_of_for_upto.
      left. simpl. lia.
  - split.
    + intros Hnil.
      destruct (decide (endX < startX \/ endY < startY)) as [|Hin]; [done|].
      assert (mkCubePosition startX startY
                ∈ for_upto startX endX (fun x =>
                    for_upto startY endY (fun y => [mkCubePosition x y])))
        as Hfirst.
      { apply elem_of_for_upto. exists startX. split; [lia|].
        apply elem_of_for_upto. exists startY. split; [lia|].
        apply list_elem_of_here. }
      rewrite Hnil in Hfirst. by apply elem_of_nil in Hfirst.
    + intros [Hx|Hy].
      * by apply for_upto_empty.
      * etrans; [|apply (for_upto_nil_body startX endX)].
        apply for_upto_ext. intros i. by apply for_upto_empty.
Qed.


(** Up to 2^53 in absolute value nothing is rounded. *)
Lemma roundToDouble_exact (z : Z) :
  - 2 ^ 53 <= z <= 2 ^ 53 -> roundToDouble z = z.
Proof.
  intros Hz. destruct (decide (Z.abs z < 2 ^ 53)) as [Hlt|Hge].
  - unfold roundToDouble. by rewrite bool_decide_eq_true_2.
  - assert (z = 2 ^ 53 \/ z = - 2 ^ 53) as [->| ->] by lia;
      vm_compute; reflexivity.
Qed.

Lemma increment_exact (x : Z) :
  - 2 ^ 53 <= x < 2 ^ 53 -> increment x = x + 1.
Proof. intros Hx. apply roundToDouble_exact. lia. Qed.

Example roundToDouble_samples :
  roundToDouble (2 ^ 53 + 1) = 2 ^ 53
  /\ roundToDouble (2 ^ 53 + 3) = 2 ^ 53 + 4
  /\ roundToDouble (2 ^ 54 + 2) = 2 ^ 54
  /\ roundToDouble (2 ^ 54 + 6) = 2 ^ 54 + 8
  /\ roundToDouble (- 2 ^ 53 - 1) = - 2 ^ 53.
Proof. repeat split; vm_compute; reflexivity. Qed.

(** From 2^53 on the increment is lost. *)
Lemma increment_stuck : increment (2 ^ 53) = 2 ^ 53.
Proof. vm_compute. reflexivity. Qed.

(** A loop whose counter stays below 2^53 ends, and collects what the
    bodies of [i], [i + 1], ..., [stop] append. *)
Lemma for_leq_collects {A : Type} (f : Z -> list A)
    (body : Z -> list A -> option (list A)) (fuel : nat) (i stop : Z)
    (acc : list A) :
  - 2 ^ 53 <= i -> stop < 2 ^ 53 ->
  Z.max 0 (stop - i + 1) < Z.of_nat fuel ->
  (forall j acc', i <= j <= stop -> body j acc' = Some (acc' ++ f j)) ->
  for_leq fuel i stop body acc = Some (acc ++ for_upto i stop f).
Proof.
  revert i acc. induction fuel as [|fuel IH]; intros i acc Hlo Hhi Hfuel Hbody;
    [lia|].
  simpl. rewrite for_upto_step. case_bool_decide as Hle.
  - rewrite Hbody by lia. rewrite increment_exact by lia.
    rewrite IH; [by rewrite (assoc_L (++))|lia..|].
    intros j acc' Hj. apply Hbody. lia.
  - by rewrite (right_id_L [] (++)).
Qed.

(** A loop that starts at 2^53 and is to pass 2^53 never ends. *)
Lemma for_leq_stuck {A : Type} (body : Z -> A -> option A) (fuel : nat)
    (acc : A) :
  for_leq fuel (2 ^ 53) (2 ^ 53) body acc = None.
Proof.
  revert acc. induction fuel as [|fuel IH]; intros acc; [done|].
  cbn [for_leq]. rewrite bool_decide_eq_true_2 by done.
  destruct (body (2 ^ 53) acc) as [acc'|]; [|done].
  rewrite increment_stuck. apply IH.
Qed.

(** Within the integers that are doubles and can be counted, the loops
    of [getAreaCoordinates] end and return the rectangle of the
    specification. *)
Lemma getAreaCoordinates_returns (fuel : nat) (startX startY endX endY : Z) :
  - 2 ^ 53 <= startX -> endX < 2 ^ 53 ->
  - 2 ^ 53 <= startY -> endY < 2 ^ 53 ->
  Z.max 0 (endX - startX + 1) < Z.of_nat fuel ->
  Z.max 0 (endY - startY + 1) < Z.of_nat fuel ->
  getAreaCoordinates fuel startX startY endX endY
  = Some (areaCoordinates startX startY endX endY).
Proof.
  intros HloX HhiX HloY HhiY HfuelX HfuelY.
  unfold getAreaCoordinates, areaCoordinates.
  rewrite (for_leq_collects
             (fun x => for_upto startY endY (fun y => [mkCubePosition x y])));
    [done..|].
  intros x acc _.
  by apply (for_leq_collects (fun y => [mkCubePosition x y])).
Qed.



(** ** The store under a render pass *)

Implicit Types (w : World) (g : ObjId) (scene : Scene).

Lemma groupChildren_clear g w : groupChildren g (Group_clear g w) = [].
Proof.
  unfold groupChildren, Group_clear; simpl. rewrite lookup_alter_eq.
  by destruct (groups w !! g).
Qed.

Lemma groupChildren_add g mesh w :
  is_Some (w.(groups) !! g) ->
  groupChildren g (Group_add g mesh w) = groupChildren g w ++ [mesh].
Proof.
  intros [G HG]. unfold groupChildren, Group_add; simpl.
  by rewrite lookup_alter_eq, HG.
Qed.

Lemma Group_add_allocated g g' mesh w :
  is_Some ((Group_add g mesh w).(groups) !! g') <-> is_Some (w.(groups) !! g').
Proof.
  unfold Group_add; simpl. destruct (decide (g = g')) as [->|Hne].
  - rewrite lookup_alter_eq. by rewrite fmap_is_Some.
  - by rewrite lookup_alter_ne.
Qed.

Lemma renderCubes_children excluded g geometry size offset
    (m : list (string * CubeInfo)) w :
  is_Some (w.(groups) !! g) ->
  groupChildren g
    (JSMap.forEach (renderCube excluded g geometry size offset) m w)
  = groupChildren g w
    ++ (floorCube geometry size offset
          <$> (filter (fun kv => kv.1 ∉ excluded) m).*2).
Proof.
  unfold JSMap.forEach. revert w.
  induction m as [|[k info] m IH]; intros w Halloc; simpl.
  - by rewrite app_nil_r.
  - rewrite filter_cons. unfold renderCube at 2. simpl.
    case_bool_decide as Hk.
    + rewrite decide_False by (by intros ?). by apply IH.
    + rewrite decide_True by done. rewrite IH.
      * rewrite groupChildren_add by done. simpl.
        by rewrite <- app_assoc.
      * by apply Group_add_allocated.
Qed.

Lemma renderCubes_frame excluded g geometry size offset
    (m : list (string * CubeInfo)) w :
  let w' := JSMap.forEach (renderCube excluded g geometry size offset) m w in
  w'.(scene_children) = w.(scene_children)
  /\ w'.(next_id) = w.(next_id)
  /\ w'.(disposed) = w.(disposed)
  /\ (forall g', is_Some (w'.(groups) !! g') <-> is_Some (w.(groups) !! g'))
  /\ (forall g', g' ≠ g -> w'.(groups) !! g' = w.(groups) !! g').
Proof.
  unfold JSMap.forEach. revert w.
  induction m as [|[k info] m IH]; intros w; simpl; [done|].
  destruct (IH (renderCube excluded g geometry size offset info k w))
    as (-> & -> & -> & Halloc & Hother).
  unfold renderCube in *. case_bool_decide; [done|].
  split; [done|]. split; [done|]. split; [done|]. split.
  - intros g'. by rewrite Halloc, Group_add_allocated.
  - intros g' Hne. rewrite Hother by done. simpl.
    by rewrite lookup_alter_ne.
Qed.

Lemma sceneGroupFor_registry scene s :
  (sceneGroupFor scene s).1.(cubeRegistry) = s.(cubeRegistry)
  /\ (sceneGroupFor scene s).1.(excludedCoordinates)
       = s.(excludedCoordinates).
Proof. unfold sceneGroupFor. by destruct (JSMap.get scene _). Qed.

Lemma sceneGroupFor_allocated scene s :
  State_wf s ->
  is_Some ((sceneGroupFor scene s).1.(world).(groups)
             !! (sceneGroupFor scene s).2).
Proof.
  intros Hwf. unfold sceneGroupFor.
  destruct (JSMap.get scene _) as [g|] eqn:Hget; simpl.
  - by eapply wf_tracked.
  - rewrite lookup_alter_eq, lookup_insert_eq. by eexists.
Qed.

Lemma renderAllCubes_unfold scene options s :
  renderAllCubes scene options s
  = let s1 := (sceneGroupFor scene s).1 in
    let sceneGroup := (sceneGroupFor scene s).2 in
    let w1 := Group_clear sceneGroup s1.(world) in
    (set_world
       (JSMap.forEach
          (renderCube s1.(excludedCoordinates) sceneGroup
             (passGeometry options w1)
             (default getCubeSize options.(cubeSize))
             (default 0%Qc options.(yOffset)))
          s1.(cubeRegistry)
          (new_BoxGeometry (default getCubeSize options.(cubeSize))
             (default getCubeSize options.(cubeSize))
             (default getCubeSize options.(cubeSize)) w1).1)
       s1,
     sceneGroup).
Proof. unfold renderAllCubes. by destruct (sceneGroupFor scene s). Qed.

Lemma groupChildren_new_BoxGeometry g width height depth w :
  groupChildren g (new_BoxGeometry width height depth w).1
    = groupChildren g w.
Proof. done. Qed.

(** The container right after a pass. *)
Lemma renderAllCubes_children scene options s :
  State_wf s ->
  groupChildren (renderAllCubes scene options s).2
                (renderAllCubes scene options s).1.(world)
    = floorCube
        (passGeometry options (sceneGroupFor scene s).1.(world))
        (default getCubeSize options.(cubeSize))
        (default 0%Qc options.(yOffset))
      <$> (filter (fun kv => kv.1 ∉ s.(excludedCoordinates))
                  s.(cubeRegistry)).*2.
Proof.
  intros Hwf. rewrite renderAllCubes_unfold. cbv zeta.
  cbn [fst snd]. unfold set_world. cbn [world].
  destruct (sceneGroupFor_registry scene s) as [-> ->].
  pose proof (sceneGroupFor_allocated scene s Hwf) as Halloc.
  rewrite renderCubes_children.
  - rewrite groupChildren_new_BoxGeometry, groupChildren_clear. done.
  - cbn [new_BoxGeometry fst groups Group_clear].
    rewrite lookup_alter_eq. by rewrite fmap_is_Some.
Qed.

Lemma renderAllCubes_fields scene options s :
  (renderAllCubes scene options s).1.(cubeRegistry) = s.(cubeRegistry)
  /\ (renderAllCubes scene options s).1.(excludedCoordinates)
       = s.(excludedCoordinates)
  /\ (renderAllCubes scene options s).1.(sceneGroups)
       = match JSMap.get scene s.(sceneGroups) with
         | Some _ => s.(sceneGroups)
         | None => JSMap.set scene (renderAllCubes scene options s).2
                     s.(sceneGroups)
         end.
Proof.
  rewrite renderAllCubes_unfold. simpl.
  destruct (sceneGroupFor_registry scene s) as [Hreg Hex].
  split; [done|]. split; [done|].
  unfold sceneGroupFor. by destruct (JSMap.get scene _).
Qed.

(** C3. After a render pass the container holds one cube per record
    whose key is not in the exclusion set, in registry order, and
    nothing else: records under an excluded key get no cube, whenever
    they were registered.  The material of each cube is the one the
    texture manager gives for "hallway-floor" when the record is an
    overlap or a hallway, and for "room-floor" when it is a room. *)
Theorem renderAllCubes_drawables
    (scene : Scene) (options : CubeFloorOptions) (s : State) :
  State_wf s ->
  let s' := (renderAllCubes scene options s).1 in
  let sceneGroup := (renderAllCubes scene options s).2 in
  groupChildren sceneGroup s'.(world)
    = floorCube
        (passGeometry options (sceneGroupFor scene s).1.(world))
        (default getCubeSize options.(cubeSize))
        (default 0%Qc options.(yOffset))
      <$> (filter (fun kv => kv.1 ∉ s.(excludedCoordinates))
                  s.(cubeRegistry)).*2
  /\ mesh_material <$> groupChildren sceneGroup s'.(world)
     = (fun cubeInfo =>
          match cubeInfo.(type) with
          | overlap => createMaterialWithTexture hallway_floor
          | hallway => createMaterialWithTexture hallway_floor
          | room => createMaterialWithTexture room_floor
          end)
       <$> (filter (fun kv => kv.1 ∉ s.(excludedCoordinates))
                   s.(cubeRegistry)).*2.
Proof.
  intros Hwf s' sceneGroup. subst s' sceneGroup.
  rewrite (renderAllCubes_children scene options s Hwf).
  split; [done|].
  rewrite <- list_fmap_compose. apply list_fmap_ext.
  intros _ info _. simpl. by destruct (type info).
Qed.

(** ** The invariant is kept by a render pass *)

Lemma sceneGroupFor_tracked scene g s :
  JSMap.get scene s.(sceneGroups) = Some g -> sceneGroupFor scene s = (s, g).
Proof. intros Hget. unfold sceneGroupFor. by rewrite Hget. Qed.

Lemma childrenOf_Scene_add scene scene' obj w :
  childrenOf scene' (Scene_add scene obj w)
    = if decide (scene = scene') then childrenOf scene w ++ [obj]
      else childrenOf scene' w.
Proof.
  unfold childrenOf at 1. unfold Scene_add; simpl.
  destruct (decide (scene = scene')) as [->|Hne].
  - by rewrite lookup_insert_eq.
  - by rewrite lookup_insert_ne.
Qed.

Lemma sceneGroupFor_wf scene s :
  State_wf s -> State_wf (sceneGroupFor scene s).1.
Proof.
  intros Hwf. unfold sceneGroupFor.
  destruct (JSMap.get scene _) as [g|] eqn:Hget; simpl; [done|].
  split; simpl.
  - intros scene' g'. destruct (decide (scene = scene')) as [->|Hne].
    + rewrite JSMap_get_set_eq. intros [= <-].
      rewrite lookup_alter_eq, lookup_insert_eq. by eexists.
    + rewrite JSMap_get_set_ne by done. intros Hg'.
      apply (wf_tracked s Hwf) in Hg' as Halloc.
      destruct (decide (next_id (world s) = g')) as [->|Hne'].
      * rewrite lookup_alter_eq, lookup_insert_eq. by eexists.
      * by rewrite lookup_alter_ne, lookup_insert_ne.
  - intros scene'.
    rewrite (childrenOf_Scene_add scene scene' _
               (set_group_name _ _ (new_Group (world s)).1)).
    destruct (decide (scene = scene')) as [->|Hne].
    + apply NoDup_app. split; [apply (wf_children_NoDup s Hwf)|].
      split; [|apply NoDup_singleton].
      intros o Ho ->%list_elem_of_singleton.
      apply (wf_children_allocated s Hwf) in Ho. lia.
    + apply (wf_children_NoDup s Hwf).
  - intros scene' o.
    rewrite (childrenOf_Scene_add scene scene' _
               (set_group_name _ _ (new_Group (world s)).1)).
    destruct (decide (scene = scene')) as [->|Hne].
    + intros [Ho| ->%list_elem_of_singleton]%elem_of_app; [|lia].
      apply (wf_children_allocated s Hwf) in Ho. lia.
    + intros Ho. apply (wf_children_allocated s Hwf) in Ho. lia.
  - intros g'. destruct (decide (next_id (world s) = g')) as [<-|Hne'].
    + lia.
    + rewrite lookup_alter_ne, lookup_insert_ne by done.
      intros Hg'. apply (wf_groups_allocated s Hwf) in Hg'. lia.
Qed.

Lemma renderAllCubes_scene_children scene options s :
  (renderAllCubes scene options s).1.(world).(scene_children)
    = (sceneGroupFor scene s).1.(world).(scene_children).
Proof.
  rewrite renderAllCubes_unfold. cbv zeta. cbn [fst]. unfold set_world.
  cbn [world].
  by destruct (renderCubes_frame
    (excludedCoordinates (sceneGroupFor scene s).1)
    (sceneGroupFor scene s).2
    (passGeometry options
       (Group_clear (sceneGroupFor scene s).2 (world (sceneGroupFor scene s).1)))
    (default getCubeSize (cubeSize options))
    (default 0%Qc (yOffset options))
    (cubeRegistry (sceneGroupFor scene s).1)
    (new_BoxGeometry (default getCubeSize (cubeSize options))
       (default getCubeSize (cubeSize options))
       (default getCubeSize (cubeSize options))
       (Group_clear (sceneGroupFor scene s).2
          (world (sceneGroupFor scene s).1))).1) as (-> & _).
Qed.

Lemma renderAllCubes_childrenOf scene scene' options s :
  childrenOf scene' (renderAllCubes scene options s).1.(world)
    = childrenOf scene' (sceneGroupFor scene s).1.(world).
Proof. unfold childrenOf. by rewrite renderAllCubes_scene_children. Qed.

Lemma renderAllCubes_result scene options s :
  (renderAllCubes scene options s).2 = (sceneGroupFor scene s).2.
Proof. by rewrite renderAllCubes_unfold. Qed.

Lemma renderAllCubes_sceneGroups scene options s :
  (renderAllCubes scene options s).1.(sceneGroups)
    = (sceneGroupFor scene s).1.(sceneGroups).
Proof. by rewrite renderAllCubes_unfold. Qed.

Lemma renderAllCubes_wf scene options s :
  State_wf s -> State_wf (renderAllCubes scene options s).1.
Proof.
  intros Hwf%(sceneGroupFor_wf scene).
  pose proof (renderAllCubes_scene_children scene options s) as Hsc.
  revert Hsc. rewrite renderAllCubes_unfold. cbv zeta. cbn [fst].
  unfold set_world. cbn [world].
  set (s1 := (sceneGroupFor scene s).1) in *.
  set (g := (sceneGroupFor scene s).2) in *.
  match goal with
  | |- context [JSMap.forEach ?f ?m ?w0] =>
      destruct (renderCubes_frame (excludedCoordinates s1) g
                  (passGeometry options (Group_clear g (world s1)))
                  (default getCubeSize (cubeSize options))
                  (default 0%Qc (yOffset options)) m w0)
        as (_ & Hnext & _ & Halloc & _);
      generalize dependent (JSMap.forEach f m w0)
  end.
  intros w3 Hnext Halloc Hsc.
  assert (forall g', is_Some (groups w3 !! g')
                     <-> is_Some (groups (world s1) !! g')) as Halloc'.
  { intros g'. rewrite Halloc. cbn [new_BoxGeometry fst groups Group_clear].
    destruct (decide (g = g')) as [->|Hne].
    - rewrite lookup_alter_eq. by rewrite fmap_is_Some.
    - by rewrite lookup_alter_ne. }
  cbn [new_BoxGeometry fst next_id Group_clear] in Hnext.
  assert (forall scene', childrenOf scene' w3 = childrenOf scene' (world s1))
    as Hch.
  { intros scene'. unfold childrenOf. by rewrite Hsc. }
  split; cbn [sceneGroups world].
  - intros scene' g' Hg'. apply Halloc'. by eapply wf_tracked.
  - intros scene'. rewrite Hch. by apply wf_children_NoDup.
  - intros scene' o. rewrite Hch, Hnext. intros Ho.
    apply (wf_children_allocated s1 Hwf) in Ho. lia.
  - intros g'. rewrite Halloc', Hnext. intros Hg'.
    apply (wf_groups_allocated s1 Hwf) in Hg'. lia.
Qed.

Lemma sceneGroupFor_world_frame scene s :
  (sceneGroupFor scene s).1.(world).(disposed) = s.(world).(disposed)
  /\ (forall scene', scene' ≠ scene ->
        childrenOf scene' (sceneGroupFor scene s).1.(world)
          = childrenOf scene' s.(world))
  /\ (forall g', g' ≠ (sceneGroupFor scene s).2 ->
        (sceneGroupFor scene s).1.(world).(groups) !! g'
          = s.(world).(groups) !! g').
Proof.
  unfold sceneGroupFor, new_Group.
  destruct (JSMap.get scene (sceneGroups s)) as [g|];
    cbn [fst snd world]; [done|].
  split; [done|]. split.
  - intros scene' Hne. rewrite (childrenOf_Scene_add scene scene').
    by rewrite decide_False.
  - intros g' Hne. cbn [Scene_add set_group_name groups].
    by rewrite lookup_alter_ne, lookup_insert_ne.
Qed.

(** C9. A render pass leaves the registry and the exclusion set as they
    were.  Of the class's fields only the scene table can change, and
    only by gaining the entry of a scene it did not have; in the store
    only the container of the rendered scene and that scene's children
    can change: the other scenes, the other groups and the log of
    disposals are untouched. *)
Theorem renderAllCubes_preserves_registry
    (scene : Scene) (options : CubeFloorOptions) (s : State) :
  (renderAllCubes scene options s).1.(cubeRegistry) = s.(cubeRegistry)
  /\ (renderAllCubes scene options s).1.(excludedCoordinates)
       = s.(excludedCoordinates)
  /\ (renderAllCubes scene options s).1.(sceneGroups)
       = match JSMap.get scene s.(sceneGroups) with
         | Some _ => s.(sceneGroups)
         | None => JSMap.set scene (renderAllCubes scene options s).2
                     s.(sceneGroups)
         end
  /\ (forall scene', scene' ≠ scene ->
        childrenOf scene' (renderAllCubes scene options s).1.(world)
          = childrenOf scene' s.(world))
  /\ (forall g', g' ≠ (renderAllCubes scene options s).2 ->
        (renderAllCubes scene options s).1.(world).(groups) !! g'
          = s.(world).(groups) !! g')
  /\ (renderAllCubes scene options s).1.(world).(disposed)
       = s.(world).(disposed).
Proof.
  destruct (renderAllCubes_fields scene options s) as (Hreg & Hex & Hgrp).
  destruct (sceneGroupFor_world_frame scene s) as (Hdis & Hch & Hgs).
  split; [done|]. split; [done|]. split; [done|]. split.
  { intros scene' Hne. rewrite renderAllCubes_childrenOf. by apply Hch. }
  rewrite renderAllCubes_result.
  rewrite renderAllCubes_unfold. cbv zeta. cbn [fst]. unfold set_world.
  cbn [world].
  match goal with
  | |- context [JSMap.forEach ?f ?m ?w0] =>
      destruct (renderCubes_frame
                  (excludedCoordinates (sceneGroupFor scene s).1)
                  (sceneGroupFor scene s).2
                  (passGeometry options
                     (Group_clear (sceneGroupFor scene s).2
                        (world (sceneGroupFor scene s).1)))
                  (default getCubeSize (cubeSize options))
                  (default 0%Qc (yOffset options)) m w0)
        as (_ & _ & Hdis' & _ & Hother)
  end.
  split.
  - intros g' Hne. rewrite Hother by done.
    cbn [new_BoxGeometry fst groups Group_clear].
    rewrite lookup_alter_ne by done. by apply Hgs.
  - rewrite Hdis'. exact Hdis.
Qed.

(** C6. Rendering the same scene twice in a row works on one and the
    same container: the second pass finds the container of the first,
    leaves the scene table and the children of every scene as they
    are (the container is not attached a second time), and ends with
    as many cubes in the container as the first pass, namely one per
    record that is not excluded.  The first pass reuses the container
    if the scene has one and otherwise creates it and attaches it to
    the scene. *)
Theorem renderAllCubes_twice
    (scene : Scene) (options options' : CubeFloorOptions) (s : State) :
  State_wf s ->
  let r1 := renderAllCubes scene options s in
  let r2 := renderAllCubes scene options' r1.1 in
  r2.2 = r1.2
  /\ r2.1.(sceneGroups) = r1.1.(sceneGroups)
  /\ r2.1.(world).(scene_children) = r1.1.(world).(scene_children)
  /\ length (groupChildren r2.2 r2.1.(world))
     = length (groupChildren r1.2 r1.1.(world))
  /\ length (groupChildren r1.2 r1.1.(world))
     = length (filter (fun kv => kv.1 ∉ s.(excludedCoordinates))
                      s.(cubeRegistry))
  /\ match JSMap.get scene s.(sceneGroups) with
     | Some g =>
         r1.2 = g
         /\ r1.1.(world).(scene_children) = s.(world).(scene_children)
     | None =>
         r1.2 = s.(world).(next_id)
         /\ JSMap.get scene r1.1.(sceneGroups) = Some r1.2
         /\ childrenOf scene r1.1.(world)
            = childrenOf scene s.(world) ++ [r1.2]
     end.
Proof.
  intros Hwf r1 r2. subst r1 r2.
  pose proof (renderAllCubes_wf scene options s Hwf) as Hwf1.
  destruct (renderAllCubes_fields scene options s)
    as (Hreg & Hex & Hgroups).
  assert (JSMap.get scene (renderAllCubes scene options s).1.(sceneGroups)
          = Some (renderAllCubes scene options s).2) as Htracked.
  { rewrite Hgroups.
    destruct (JSMap.get scene (sceneGroups s)) as [g|] eqn:Hget.
    - rewrite Hget. f_equal. rewrite renderAllCubes_unfold. cbv zeta.
      cbn [snd]. by rewrite (sceneGroupFor_tracked scene g s).
    - apply JSMap_get_set_eq. }
  pose proof (sceneGroupFor_tracked scene _ _ Htracked) as Hfor.
  assert ((renderAllCubes scene options'
             (renderAllCubes scene options s).1).2
          = (renderAllCubes scene options s).2) as Hsame.
  { rewrite (renderAllCubes_unfold scene options'). cbv zeta. cbn [snd].
    by rewrite Hfor. }
  split; [done|]. split.
  { destruct (renderAllCubes_fields scene options'
                (renderAllCubes scene options s).1) as (_ & _ & ->).
    by rewrite Htracked. }
  split.
  { rewrite (renderAllCubes_scene_children scene options').
    by rewrite Hfor. }
  rewrite (renderAllCubes_children scene options' _ Hwf1).
  rewrite (renderAllCubes_children scene options s Hwf).
  rewrite Hreg, Hex. rewrite !length_fmap.
  split; [done|]. split; [done|].
  rewrite renderAllCubes_scene_children, renderAllCubes_childrenOf.
  rewrite renderAllCubes_result, renderAllCubes_sceneGroups.
  unfold sceneGroupFor, new_Group.
  destruct (JSMap.get scene (sceneGroups s)) as [g|] eqn:Hget;
    cbn [fst snd world sceneGroups]; [done|].
  split; [done|]. split; [apply JSMap_get_set_eq|].
  rewrite (childrenOf_Scene_add scene scene).
  rewrite decide_True by done. done.
Qed.

(** ** Disposal *)

Lemma remove_first_subseteq g (l : list ObjId) o :
  o ∈ remove_first g l -> o ∈ l.
Proof.
  induction l as [|o' l IH]; simpl; [done|].
  destruct (decide (o' = g)) as [->|Hne].
  - apply list_elem_of_further.
  - intros [->|Hin]%elem_of_cons; [apply list_elem_of_here|].
    apply list_elem_of_further. by apply IH.
Qed.

Lemma remove_first_NoDup g (l : list ObjId) :
  NoDup l -> NoDup (remove_first g l) /\ g ∉ remove_first g l.
Proof.
  induction 1 as [|o l Hnin Hnd [IHnd IHnin]]; simpl.
  - split; [constructor | apply not_elem_of_nil].
  - destruct (decide (o = g)) as [->|Hne]; [done|]. split.
    + constructor; [|done]. intros Hin. by apply remove_first_subseteq in Hin.
    + apply not_elem_of_cons. by split.
Qed.

Lemma disposeMeshes_frame (children : list Mesh) w :
  let w' := fold_left disposeMesh children w in
  w'.(scene_children) = w.(scene_children)
  /\ w'.(groups) = w.(groups)
  /\ w'.(next_id) = w.(next_id)
  /\ w'.(disposed) = w.(disposed) ++ releasedBy children.
Proof.
  revert w. induction children as [|child l IH]; intros w; simpl.
  - by rewrite app_nil_r.
  - destruct (IH (disposeMesh w child)) as (-> & -> & -> & ->).
    simpl. unfold releasedBy. simpl. by rewrite <- !app_assoc.
Qed.

Lemma disposeSceneGroup_frame g scene w :
  let w' := disposeSceneGroup g scene w in
  w'.(groups) = w.(groups)
  /\ w'.(next_id) = w.(next_id)
  /\ w'.(disposed) = w.(disposed) ++ releasedBy (groupChildren g w)
  /\ (forall scene',
        childrenOf scene' w'
          = if decide (scene = scene')
            then remove_first g (childrenOf scene w)
            else childrenOf scene' w).
Proof.
  unfold disposeSceneGroup.
  destruct (disposeMeshes_frame
              (groupChildren g (Scene_remove scene g w))
              (Scene_remove scene g w)) as (Hsc & -> & -> & ->).
  split; [done|]. split; [done|]. split; [done|].
  intros scene'. unfold childrenOf at 1. rewrite Hsc. simpl.
  destruct (decide (scene = scene')) as [->|Hne].
  - by rewrite lookup_insert_eq.
  - by rewrite lookup_insert_ne.
Qed.

Lemma disposeSceneGroups_frame (m : list (Scene * ObjId)) w :
  let w' := JSMap.forEach disposeSceneGroup m w in
  w'.(groups) = w.(groups)
  /\ w'.(next_id) = w.(next_id)
  /\ w'.(disposed)
     = w.(disposed) ++ (m ≫= fun kv => releasedBy (groupChildren kv.2 w))
  /\ (forall scene o, o ∈ childrenOf scene w' -> o ∈ childrenOf scene w)
  /\ ((forall scene, NoDup (childrenOf scene w)) ->
      (forall scene, NoDup (childrenOf scene w'))
      /\ (forall scene g, (scene, g) ∈ m -> g ∉ childrenOf scene w')).
Proof.
  unfold JSMap.forEach. revert w.
  induction m as [|[scene0 g0] m IH]; intros w; simpl.
  - rewrite app_nil_r. repeat split; try done.
    intros scene g Hin. by apply elem_of_nil in Hin.
  - destruct (IH (disposeSceneGroup g0 scene0 w))
      as (-> & -> & -> & Hsub & Hnd).
    destruct (disposeSceneGroup_frame g0 scene0 w)
      as (Hg & -> & -> & Hch).
    split; [done|]. split; [done|]. split.
    { rewrite <- app_assoc. do 2 f_equal.
      apply list_bind_ext; [|done]. intros [sc g]. simpl.
      unfold groupChildren. by rewrite Hg. }
    assert (forall scene o,
              o ∈ childrenOf scene (disposeSceneGroup g0 scene0 w) ->
              o ∈ childrenOf scene w) as Hsub0.
    { intros scene o. rewrite Hch. case_decide as Hsc; [|done].
      subst. apply remove_first_subseteq. }
    split; [by eauto|].
    intros Hnd0.
    assert (forall scene, NoDup (childrenOf scene (disposeSceneGroup g0 scene0 w)))
      as Hnd1.
    { intros scene. rewrite Hch. case_decide; [|done].
      by apply remove_first_NoDup. }
    destruct (Hnd Hnd1) as [Hnd2 Hgone]. split; [done|].
    intros scene g [[= -> ->]|Hin]%elem_of_cons; [|by apply Hgone].
    intros Hin%Hsub. rewrite Hch, decide_True in Hin by done.
    by apply (remove_first_NoDup g0 (childrenOf scene0 w)) in Hin.
Qed.

Lemma State_wf_initial :
  State_wf (initial (mkWorld ∅ ∅ O [] : World)).
Proof.
  split; simpl.
  - intros scene g Hget. discriminate Hget.
  - intros scene. unfold childrenOf; simpl. rewrite lookup_empty.
    constructor.
  - intros scene o. unfold childrenOf; simpl. rewrite lookup_empty.
    by intros ?%elem_of_nil.
  - intros g. rewrite lookup_empty. by intros [? ?].
Qed.

Lemma dispose_wf s : State_wf s -> State_wf (dispose s).
Proof.
  intros Hwf. unfold dispose.
  destruct (disposeSceneGroups_frame (sceneGroups s) (world s))
    as (Hg & Hn & _ & Hsub & Hnd).
  destruct (Hnd (wf_children_NoDup s Hwf)) as [Hnd' _].
  split; simpl.
  - intros scene g Hget. discriminate Hget.
  - done.
  - intros scene o Ho%Hsub. rewrite Hn.
    by apply (wf_children_allocated s Hwf) in Ho.
  - intros g. rewrite Hg, Hn. apply (wf_groups_allocated s Hwf).
Qed.

(** The invariant only speaks of the scene table and the store. *)
Lemma State_wf_frame s s' :
  s'.(sceneGroups) = s.(sceneGroups) ->
  s'.(world) = s.(world) ->
  State_wf s -> State_wf s'.
Proof. intros Hg Hw [H1 H2 H3 H4]. split; rewrite ?Hg, ?Hw; done. Qed.

Lemma registerCubes_State_wf coordinates color type s :
  State_wf s -> State_wf (registerCubes coordinates color type s).
Proof.
  destruct (registerCubes_frame coordinates color type s) as (_ & Hg & Hw).
  by apply State_wf_frame.
Qed.

Lemma setExcludedCoordinates_State_wf coordinates s :
  State_wf s -> State_wf (setExcludedCoordinates coordinates s).
Proof.
  destruct (setExcludedCoordinates_fields coordinates s)
    as (_ & _ & Hg & Hw).
  by apply State_wf_frame.
Qed.

Lemma clearRegistry_State_wf s : State_wf s -> State_wf (clearRegistry s).
Proof. by apply State_wf_frame. Qed.

Lemma unregisterCoordinates_State_wf coordinates s :
  State_wf s -> State_wf (unregisterCoordinates coordinates s).
Proof.
  unfold unregisterCoordinates. revert s.
  induction coordinates as [|c cs IH]; intros s Hwf; simpl; [done|].
  apply IH. revert Hwf. by apply State_wf_frame.
Qed.

(** The first pass of a freshly loaded class. *)
Lemma renderAllCubes_initial scene options w :
  groupChildren (renderAllCubes scene options (initial w)).2
                (renderAllCubes scene options (initial w)).1.(world) = []
  /\ (renderAllCubes scene options (initial w)).1.(cubeRegistry) = []
  /\ (renderAllCubes scene options (initial w)).1.(excludedCoordinates) = ∅
  /\ (renderAllCubes scene options (initial w)).1.(sceneGroups)
     = [(scene, (renderAllCubes scene options (initial w)).2)].
Proof.
  destruct (renderAllCubes_fields scene options (initial w))
    as (Hreg & Hex & Hgrp).
  split; [|by rewrite Hreg, Hex, Hgrp].
  rewrite renderAllCubes_unfold. cbv zeta. cbn [fst snd].
  unfold set_world. cbn [world].
  destruct (sceneGroupFor_registry scene (initial w)) as [-> _].
  change (cubeRegistry (initial w)) with (@nil (string * CubeInfo)).
  unfold JSMap.forEach. cbn [fold_left].
  rewrite groupChildren_new_BoxGeometry. apply groupChildren_clear.
Qed.

(** C8. [dispose()] puts the class back in the state it starts in: the
    registry, the exclusion set and the scene table are empty.  Every
    container that was tracked is no longer a child of its scene, and
    [dispose()] has been called on the geometry and on the material of
    each of its cubes.  A second [dispose()] changes nothing at all.
    A render pass after [dispose()] is the pass of a freshly loaded
    class and yields a container without cubes, the only entry of the
    scene table. *)
Theorem dispose_resets
    (scene : Scene) (options : CubeFloorOptions) (s : State) :
  State_wf s ->
  dispose s = initial (dispose s).(world)
  /\ (forall tracked g,
        (tracked, g) ∈ s.(sceneGroups) ->
        (g ∉ childrenOf tracked (world (dispose s)))
        /\ forall child, child ∈ groupChildren g s.(world) ->
             GeometryResource child.(mesh_geometry)
               ∈ (dispose s).(world).(disposed)
             /\ MaterialResource child.(mesh_material)
                  ∈ (dispose s).(world).(disposed))
  /\ dispose (dispose s) = dispose s
  /\ (let r := renderAllCubes scene options (dispose s) in
      r = renderAllCubes scene options (initial (dispose s).(world))
      /\ groupChildren r.2 r.1.(world) = []
      /\ r.1.(cubeRegistry) = []
      /\ r.1.(excludedCoordinates) = ∅
      /\ r.1.(sceneGroups) = [(scene, r.2)]).
Proof.
  intros Hwf. split; [done|]. split; [|split; [done|]].
  - intros tracked g Hin. unfold dispose. cbn [world].
    destruct (disposeSceneGroups_frame (sceneGroups s) (world s))
      as (_ & _ & -> & _ & Hnd).
    destruct (Hnd (wf_children_NoDup s Hwf)) as [_ Hgone].
    split; [by apply Hgone|].
    intros child Hchild.
    assert (forall r, r ∈ releasedBy (groupChildren g (world s)) ->
              r ∈ disposed (world s)
                  ++ (sceneGroups s ≫= fun kv =>
                        releasedBy (groupChildren kv.2 (world s)))) as Hrel.
    { intros r Hr. apply elem_of_app. right.
      apply list_elem_of_bind. by exists (tracked, g). }
    split; apply Hrel; unfold releasedBy; apply list_elem_of_bind;
      exists child; (split; [|done]).
    + apply list_elem_of_here.
    + apply list_elem_of_further, list_elem_of_here.
  - intros r. subst r. split; [done|].
    apply (renderAllCubes_initial scene options (world (dispose s))).
Qed.

(** ** The de-duplication keeps first occurrences *)

Lemma sameCoord_true coord c : sameCoord coord c = true <-> c = coord.
Proof.
  unfold sameCoord. rewrite andb_true_iff, !bool_decide_eq_true.
  destruct c, coord; simpl. split; [intros [-> ->]; done | by intros [= -> ->]].
Qed.

Lemma findIndex_from_found {A : Type} (p : A -> bool) i (arr : list A) :
  (exists c, c ∈ arr /\ p c = true) ->
  i <= findIndex_from p i arr < i + Z.of_nat (length arr).
Proof.
  revert i. induction arr as [|c arr IH]; intros i (c0 & Hin & Hp); simpl.
  - by apply elem_of_nil in Hin.
  - destruct (p c) eqn:Hc; [lia|].
    apply elem_of_cons in Hin as [->|Hin]; [congruence|].
    pose proof (IH (i + 1) (ex_intro _ c0 (conj Hin Hp))) as Hrec. lia.
Qed.

Lemma findIndex_from_skip {A : Type} (p : A -> bool) i (pre arr : list A) :
  (forall c, c ∈ pre -> p c = false) ->
  findIndex_from p i (pre ++ arr)
    = findIndex_from p (i + Z.of_nat (length pre)) arr.
Proof.
  revert i. induction pre as [|c pre IH]; intros i Hpre; simpl.
  - f_equal. lia.
  - rewrite Hpre by apply list_elem_of_here.
    rewrite IH by (intros c' Hc'; by apply Hpre, list_elem_of_further).
    f_equal. lia.
Qed.

Lemma findIndex_from_app_l {A : Type} (p : A -> bool) i (pre arr : list A) :
  (exists c, c ∈ pre /\ p c = true) ->
  findIndex_from p i (pre ++ arr) = findIndex_from p i pre.
Proof.
  revert i. induction pre as [|c pre IH]; intros i (c0 & Hin & Hp); simpl.
  - by apply elem_of_nil in Hin.
  - destruct (p c) eqn:Hc; [done|].
    apply elem_of_cons in Hin as [->|Hin]; [congruence|].
    apply IH. by eauto.
Qed.

Lemma uniqueCoords_from (pre l : list CubePosition) :
  filter_from
    (fun coord index =>
       bool_decide (findIndex (sameCoord coord) (pre ++ l) = index))
    (Z.of_nat (length pre)) l
  = first_occurrences pre l.
Proof.
  revert pre. induction l as [|c l IH]; intros pre; simpl; [done|].
  specialize (IH (pre ++ [c])).
  rewrite <- app_assoc, length_app in IH. simpl in IH.
  replace (Z.of_nat (length pre + 1)) with (Z.of_nat (length pre) + 1)
    in IH by lia.
  rewrite IH. unfold findIndex.
  destruct (decide (c ∈ pre)) as [Hin|Hnin].
  - rewrite bool_decide_eq_false_2; [done|].
    rewrite findIndex_from_app_l
      by (exists c; split; [done | by apply sameCoord_true]).
    assert (sameCoord c c = true) as Hcc by (by apply sameCoord_true).
    pose proof (findIndex_from_found (sameCoord c) 0 pre
                  (ex_intro _ c (conj Hin Hcc))) as Hlt.
    lia.
  - rewrite bool_decide_eq_true_2; [done|].
    rewrite findIndex_from_skip.
    + simpl. replace (sameCoord c c) with true; [lia|].
      symmetry. by apply sameCoord_true.
    + intros c' Hc'. destruct (sameCoord c c') eqn:Hs; [|done].
      apply sameCoord_true in Hs. by subst.
Qed.

Lemma first_occurrences_spec (seen l : list CubePosition) :
  NoDup (first_occurrences seen l)
  /\ (forall c, c ∈ first_occurrences seen l <-> c ∈ l /\ c ∉ seen)
  /\ first_occurrences seen l `sublist_of` l.
Proof.
  revert seen. induction l as [|c l IH]; intros seen; simpl.
  - split; [constructor|]. split; [|done].
    intros c. rewrite elem_of_nil. naive_solver.
  - destruct (IH (seen ++ [c])) as (Hnd & Hel & Hsub).
    destruct (decide (c ∈ seen)) as [Hin|Hnin].
    + split; [done|]. split; [|by apply sublist_cons].
      intros c'. rewrite Hel, elem_of_cons, elem_of_app,
        list_elem_of_singleton.
      destruct (decide (c' = c)) as [->|Hne]; naive_solver.
    + split; [|split; [|by apply sublist_skip]].
      * constructor; [|done]. rewrite Hel, elem_of_app, list_elem_of_singleton.
        naive_solver.
      * intros c'. rewrite !elem_of_cons, Hel, elem_of_app,
          list_elem_of_singleton.
        destruct (decide (c' = c)) as [->|Hne]; naive_solver.
Qed.

(** The filter keeps each coordinate once, where it first occurs: the
    result has no repetition, has the elements of the input, and is a
    subsequence of it. *)
Lemma uniqueCoords_first_occurrences (coordinates : list CubePosition) :
  uniqueCoords coordinates = first_occurrences [] coordinates
  /\ NoDup (uniqueCoords coordinates)
  /\ (forall c, c ∈ uniqueCoords coordinates <-> c ∈ coordinates)
  /\ uniqueCoords coordinates `sublist_of` coordinates.
Proof.
  assert (uniqueCoords coordinates = first_occurrences [] coordinates) as ->
    by apply (uniqueCoords_from [] coordinates).
  destruct (first_occurrences_spec [] coordinates) as (Hnd & Hel & Hsub).
  split; [done|]. split; [done|]. split; [|done].
  intros c. rewrite Hel. split; [by intros [? _]|].
  intros Hin. split; [done | apply not_elem_of_nil].
Qed.

End RendererFacts.

(** * Further properties of the registry *)

Section RegistryFacts.
Context {Material : Type}.
Variable createMaterialWithTexture : CubeType -> Material.
Variable getCubeSize : Qc.

Local Abbreviation State := (@State Material).
Local Abbreviation World := (@World Material).
Local Abbreviation renderAllCubes :=
  (renderAllCubes createMaterialWithTexture getCubeSize).
Local Abbreviation call := (call createMaterialWithTexture getCubeSize).
Local Abbreviation calls := (calls createMaterialWithTexture getCubeSize).

Implicit Types (s : State) (coord c : CubePosition) (k : string).

(** ** Keys *)

Lemma pretty_N_go_comma_free (n : N) (s : string) :
  comma_free s -> comma_free (pretty_N_go n s).
Proof.
  revert s. induction (N.lt_wf_0 n) as [n _ IH]; intros s Hs.
  assert (n = 0 \/ 0 < n)%N as [->|Hpos] by lia.
  - by rewrite pretty_N_go_0.
  - rewrite pretty_N_go_step by done. apply IH.
    + by apply N.div_lt.
    + split; [|done]. unfold pretty_N_char. by repeat case_match.
Qed.

Lemma pretty_Z_comma_free (z : Z) : comma_free (pretty z).
Proof.
  assert (forall p : positive, comma_free (pretty p)) as Hpos.
  { intros p. unfold pretty, pretty_positive, pretty, pretty_N.
    case_decide; [done|]. by apply pretty_N_go_comma_free. }
  destruct z as [|p|p]; unfold pretty, pretty_Z.
  - done.
  - apply Hpos.
  - simpl. split; [done | apply Hpos].
Qed.

Lemma comma_split (s1 s2 t1 t2 : string) :
  comma_free s1 -> comma_free s2 ->
  s1 +:+ "," +:+ t1 = s2 +:+ "," +:+ t2 ->
  s1 = s2 /\ t1 = t2.
Proof.
  assert (forall t : string, "" +:+ t = t) as Hnil by done.
  assert (forall (a : ascii) (s t : string),
            String a s +:+ t = String a (s +:+ t)) as Hcons by done.
  revert s2. induction s1 as [|a s1 IH]; intros [|b s2]; simpl;
    rewrite ?Hnil, ?Hcons, ?Hnil.
  - intros _ _ Heq. by injection Heq as ->.
  - intros _ [Hb _] Heq. injection Heq as Hc _. congruence.
  - intros [Ha _] _ Heq. injection Heq as Hc _. congruence.
  - intros [_ H1] [_ H2] Heq. injection Heq as -> Heq.
    by destruct (IH s2 H1 H2 Heq) as [-> ->].
Qed.

Lemma getCubeKey_injective (x1 y1 x2 y2 : Z) :
  getCubeKey x1 y1 = getCubeKey x2 y2 -> x1 = x2 /\ y1 = y2.
Proof.
  unfold getCubeKey. intros Heq.
  apply comma_split in Heq as [Hx Hy]; try apply pretty_Z_comma_free.
  split; by apply (inj pretty).
Qed.

Global Instance keyOf_inj : Inj (=) (=) keyOf.
Proof.
  intros [x1 y1] [x2 y2]. unfold keyOf; simpl.
  intros [-> ->]%getCubeKey_injective. done.
Qed.

(** X1. Two coordinates of safe integers (below 2^53 in absolute
    value, where the key is made of the decimal numerals) get the same
    key exactly when they are the same coordinate: the comma separates
    the two numerals without ambiguity. *)
Theorem getCubeKey_distinguishes (x1 y1 x2 y2 : Z) :
  isSafeInteger x1 -> isSafeInteger y1 ->
  isSafeInteger x2 -> isSafeInteger y2 ->
  getCubeKey x1 y1 = getCubeKey x2 y2 <-> x1 = x2 /\ y1 = y2.
Proof.
  intros _ _ _ _.
  split; [apply getCubeKey_injective | by intros [-> ->]].
Qed.

(** ** Deleting from an insertion-ordered map *)

Section JSMapDelete.
Context {K V : Type} `{EqDecision K}.
Implicit Types (m : list (K * V)).

Lemma JSMap_get_delete_ne (k j : K) m :
  k <> j -> JSMap.get j (JSMap.delete k m) = JSMap.get j m.
Proof.
  intros Hne. induction m as [|[k0 v0] m IH]; simpl; [done|].
  destruct (decide (k0 = k)) as [->|Hk0]; simpl.
  - by rewrite decide_False.
  - by rewrite IH.
Qed.

Lemma filter_all {A : Type} (P : A -> Prop) `{forall a, Decision (P a)}
    (l : list A) :
  (forall a, a ∈ l -> P a) -> filter P l = l.
Proof.
  induction l as [|a l IH]; intros Hall; [done|].
  rewrite filter_cons_True by apply Hall, list_elem_of_here.
  f_equal. apply IH. intros b Hb. by apply Hall, list_elem_of_further.
Qed.

Lemma JSMap_keys_delete (k : K) m :
  NoDup (JSMap.keys m) ->
  JSMap.keys (JSMap.delete k m) = filter (fun j => j <> k) (JSMap.keys m).
Proof.
  unfold JSMap.keys. induction m as [|[k0 v0] m IH]; simpl; [done|].
  intros [Hnin Hnd]%NoDup_cons. rewrite filter_cons. simpl.
  destruct (decide (k0 = k)) as [->|Hk0].
  - rewrite decide_False by (by intros ?). symmetry.
    apply filter_all. intros j Hin ->. done.
  - rewrite decide_True by done. simpl. f_equal. by apply IH.
Qed.

Lemma JSMap_get_delete_eq (k : K) m :
  NoDup (JSMap.keys m) -> JSMap.get k (JSMap.delete k m) = None.
Proof.
  intros Hnd. apply JSMap_get_None. rewrite JSMap_keys_delete by done.
  rewrite list_elem_of_filter. by intros [? _].
Qed.

Lemma JSMap_delete_sublist (k : K) m : JSMap.delete k m `sublist_of` m.
Proof.
  induction m as [|[k0 v0] m IH]; simpl; [done|].
  destruct (decide (k0 = k)); [by apply sublist_cons | by apply sublist_skip].
Qed.

Lemma JSMap_delete_absent (k : K) m :
  JSMap.get k m = None -> JSMap.delete k m = m.
Proof.
  induction m as [|[k0 v0] m IH]; simpl; [done|].
  destruct (decide (k0 = k)); [done|]. intros Hget. by rewrite IH.
Qed.

Lemma JSMap_get_elem (k : K) (v : V) m :
  NoDup (JSMap.keys m) -> (k, v) ∈ m -> JSMap.get k m = Some v.
Proof.
  unfold JSMap.keys. induction m as [|[k0 v0] m IH]; simpl.
  - by intros _ ?%elem_of_nil.
  - intros [Hnin Hnd]%NoDup_cons [Heq|Hin]%elem_of_cons.
    + injection Heq as -> ->. by rewrite decide_True.
    + destruct (decide (k0 = k)) as [->|Hne]; [|by apply IH].
      destruct Hnin. apply list_elem_of_fmap. by exists (k, v).
Qed.
End JSMapDelete.

(** ** More on [registerCubes] *)

Lemma registerCubes_get_other coordinates color type s k :
  k ∉ keyOf <$> coordinates ->
  JSMap.get k (registerCubes coordinates color type s).(cubeRegistry)
    = JSMap.get k s.(cubeRegistry).
Proof.
  induction coordinates as [|c' cs IH] using rev_ind; [done|].
  rewrite fmap_app, not_elem_of_app. simpl.
  rewrite not_elem_of_cons. intros (Hcs & Hc' & _).
  rewrite registerCubes_snoc, registerCube_get_other by done. by apply IH.
Qed.

Lemma registerCubes_excludedCoordinates coordinates color type s :
  (registerCubes coordinates color type s).(excludedCoordinates)
    = s.(excludedCoordinates).
Proof. apply registerCubes_frame. Qed.

(** An occupied, non-excluded key that the batch touches ends as the
    overlap record of the coordinate it belongs to. *)
Lemma registerCubes_get_occupied coordinates color type s c :
  c ∈ coordinates ->
  keyOf c ∉ s.(excludedCoordinates) ->
  is_Some (JSMap.get (keyOf c) s.(cubeRegistry)) ->
  JSMap.get (keyOf c) (registerCubes coordinates color type s).(cubeRegistry)
    = Some (mkCubeInfo c 0x800080 overlap).
Proof.
  intros Hin Hex Hsome.
  induction coordinates as [|c' cs IH] using rev_ind.
  { by apply elem_of_nil in Hin. }
  rewrite registerCubes_snoc.
  destruct (decide (c' = c)) as [->|Hne].
  - destruct (registerCubes_keeps cs color type s (keyOf c) Hsome)
      as [existing Hget].
    eapply registerCube_get_occupied; [|done].
    by rewrite registerCubes_excludedCoordinates.
  - rewrite registerCube_get_other by (intros Heq; by apply (inj keyOf) in Heq).
    apply IH. apply elem_of_app in Hin as [Hin|Hin]; [done|].
    apply list_elem_of_singleton in Hin. congruence.
Qed.

(** X2. A first registration stores what it was given: when the
    coordinates of a batch are pairwise different, a coordinate whose
    key is neither excluded nor in the registry ends with the record
    [{position, color, type}] of the call. *)
Theorem registerCubes_first_registration
    (coordinates : list CubePosition) (color : Z) (type : CubeInfoType)
    (s : State) (c : CubePosition) :
  NoDup coordinates ->
  c ∈ coordinates ->
  keyOf c ∉ s.(excludedCoordinates) ->
  JSMap.get (keyOf c) s.(cubeRegistry) = None ->
  JSMap.get (keyOf c) (registerCubes coordinates color type s).(cubeRegistry)
    = Some (mkCubeInfo c color type).
Proof.
  intros Hnd Hin Hex Hfree.
  apply list_elem_of_split in Hin as (pre & post & ->).
  apply NoDup_app in Hnd as (_ & Hpre & Hpost%NoDup_cons).
  destruct Hpost as [Hpost _].
  assert (forall l : list CubePosition, c ∉ l -> keyOf c ∉ keyOf <$> l)
    as Hkeys.
  { intros l Hl (c' & Heq & Hc')%list_elem_of_fmap.
    apply (inj keyOf) in Heq. by subst. }
  replace (pre ++ c :: post) with ((pre ++ [c]) ++ post)
    by (by rewrite <- app_assoc).
  rewrite registerCubes_app, registerCubes_get_other by by apply Hkeys.
  rewrite registerCubes_snoc. apply registerCube_get_free.
  - by rewrite registerCubes_excludedCoordinates.
  - rewrite registerCubes_get_other; [done|].
    apply Hkeys. intros Hc. by apply (Hpre c Hc), list_elem_of_here.
Qed.

(** X3. Registering is not idempotent: after the same batch has been
    registered twice (with whatever colours and types), every coordinate
    of it that is not excluded is an overlap record with the overlap
    colour. *)
Theorem registerCubes_twice_overlap
    (coordinates : list CubePosition) (color color' : Z)
    (type type' : CubeInfoType) (s : State) (c : CubePosition) :
  c ∈ coordinates ->
  keyOf c ∉ s.(excludedCoordinates) ->
  JSMap.get (keyOf c)
    (registerCubes coordinates color' type'
       (registerCubes coordinates color type s)).(cubeRegistry)
  = Some (mkCubeInfo c 0x800080 overlap).
Proof.
  intros Hin Hex. apply registerCubes_get_occupied; [done|..].
  - by rewrite registerCubes_excludedCoordinates.
  - apply registerCubes_occupies; [done|].
    apply list_elem_of_fmap. by exists c.
Qed.

Lemma registry_wf_lookup s k info :
  registry_wf s -> JSMap.get k s.(cubeRegistry) = Some info ->
  keyOf info.(position) = k.
Proof.
  unfold registry_wf. generalize (cubeRegistry s) as m. intros m.
  induction 1 as [|[k0 v0] m Hk0 _ IH]; simpl; [done|].
  destruct (decide (k0 = k)) as [->|Hne]; [|done].
  intros Hv. injection Hv as ->. done.
Qed.

(** X4. Overlap is not undone by registering: a purple overlap record
    is the same record after any further [registerCubes] call, whatever
    is registered. *)
Theorem registerCubes_overlap_is_final
    (coordinates : list CubePosition) (newColor : Z)
    (newType : CubeInfoType)
    (s : State) (k : string) (info : CubeInfo) :
  registry_wf s ->
  JSMap.get k s.(cubeRegistry) = Some info ->
  info.(type) = overlap ->
  info.(color) = 0x800080 ->
  JSMap.get k (registerCubes coordinates newColor newType s).(cubeRegistry)
    = Some info.
Proof.
  intros Hwf Hget Htype Hcolor.
  pose proof (registry_wf_lookup s k info Hwf Hget) as Hk.
  induction coordinates as [|c' cs IH] using rev_ind; [done|].
  rewrite registerCubes_snoc.
  destruct (decide (k = keyOf c')) as [Heq|Hne].
  - destruct (decide (k ∈ s.(excludedCoordinates))) as [Hex|Hex].
    + rewrite registerCube_skip; [done|].
      by rewrite registerCubes_excludedCoordinates, <- Heq.
    + rewrite Heq. erewrite registerCube_get_occupied.
      * rewrite <- Hk in Heq. apply (inj keyOf) in Heq. subst c'.
        destruct info as [pos col ty]; simpl in *. by subst.
      * by rewrite registerCubes_excludedCoordinates, <- Heq.
      * rewrite <- Heq. exact IH.
  - by rewrite registerCube_get_other.
Qed.

(** ** [unregisterCoordinates] *)

Lemma unregisterCoordinates_frame coordinates s :
  (unregisterCoordinates coordinates s).(excludedCoordinates)
    = s.(excludedCoordinates)
  /\ (unregisterCoordinates coordinates s).(sceneGroups) = s.(sceneGroups)
  /\ (unregisterCoordinates coordinates s).(world) = s.(world).
Proof.
  unfold unregisterCoordinates. revert s.
  induction coordinates as [|c' cs IH]; intros s; simpl; [done|].
  by destruct (IH (unregisterCoordinate s c')) as (-> & -> & ->).
Qed.

Lemma unregisterCoordinates_snoc coordinates c s :
  (unregisterCoordinates (coordinates ++ [c]) s).(cubeRegistry)
    = JSMap.delete (keyOf c) (unregisterCoordinates coordinates s).(cubeRegistry).
Proof. unfold unregisterCoordinates. by rewrite fold_left_app. Qed.

Lemma unregisterCoordinates_keys coordinates s :
  NoDup (JSMap.keys s.(cubeRegistry)) ->
  JSMap.keys (unregisterCoordinates coordinates s).(cubeRegistry)
    = filter (fun j => j ∉ keyOf <$> coordinates) (JSMap.keys s.(cubeRegistry)).
Proof.
  intros Hnd. induction coordinates as [|c' cs IH] using rev_ind.
  - symmetry. apply filter_all. intros j _. apply not_elem_of_nil.
  - rewrite unregisterCoordinates_snoc, JSMap_keys_delete.
    + rewrite IH, list_filter_filter. apply list_filter_iff. intros j.
      rewrite fmap_app, not_elem_of_app. simpl.
      rewrite not_elem_of_cons. split; [|tauto].
      intros [? ?]. split; [done|]. split; [done | apply not_elem_of_nil].
    + rewrite IH. by apply NoDup_filter.
Qed.

Lemma unregisterCoordinates_get coordinates s k :
  NoDup (JSMap.keys s.(cubeRegistry)) ->
  JSMap.get k (unregisterCoordinates coordinates s).(cubeRegistry)
    = if decide (k ∈ keyOf <$> coordinates) then None
      else JSMap.get k s.(cubeRegistry).
Proof.
  intros Hnd. induction coordinates as [|c' cs IH] using rev_ind.
  - rewrite decide_False; [done | apply not_elem_of_nil].
  - rewrite unregisterCoordinates_snoc.
    assert (NoDup (JSMap.keys (unregisterCoordinates cs s).(cubeRegistry)))
      as Hnd'.
    { rewrite unregisterCoordinates_keys by done. by apply NoDup_filter. }
    destruct (decide (k = keyOf c')) as [->|Hne].
    + rewrite JSMap_get_delete_eq by done. rewrite decide_True; [done|].
      rewrite fmap_app, elem_of_app. right. apply list_elem_of_here.
    + rewrite JSMap_get_delete_ne, IH by done.
      destruct (decide (k ∈ keyOf <$> cs)) as [Hin|Hnin].
      * rewrite decide_True; [done|]. rewrite fmap_app, elem_of_app. by left.
      * rewrite decide_False; [done|].
        rewrite fmap_app, not_elem_of_app. split; [done|]. simpl.
        rewrite not_elem_of_cons. split; [done | apply not_elem_of_nil].
Qed.

(** X5. [unregisterCoordinates] takes out exactly the records under the
    keys of the given coordinates: those keys hold nothing afterwards
    (also when they held nothing before), every other key holds what it
    held, the remaining keys keep their order, and the exclusion set,
    the scene table and the store are not touched. *)
Theorem unregisterCoordinates_removes
    (coordinates : list CubePosition) (s : State) (k : string) :
  NoDup (JSMap.keys s.(cubeRegistry)) ->
  JSMap.get k (unregisterCoordinates coordinates s).(cubeRegistry)
    = (if decide (k ∈ keyOf <$> coordinates) then None
       else JSMap.get k s.(cubeRegistry))
  /\ JSMap.keys (unregisterCoordinates coordinates s).(cubeRegistry)
     = filter (fun j => j ∉ keyOf <$> coordinates)
              (JSMap.keys s.(cubeRegistry))
  /\ (unregisterCoordinates coordinates s).(excludedCoordinates)
     = s.(excludedCoordinates)
  /\ (unregisterCoordinates coordinates s).(sceneGroups) = s.(sceneGroups)
  /\ (unregisterCoordinates coordinates s).(world) = s.(world).
Proof.
  intros Hnd. split; [by apply unregisterCoordinates_get|].
  split; [by apply unregisterCoordinates_keys|].
  apply unregisterCoordinates_frame.
Qed.

(** X6. Unregistering is the way back from an overlap: after
    [unregisterCoordinates([c])] and [registerCubes([c], color, type)]
    the key of [c] holds the plain record [{c, color, type}], whatever
    it held before, and it is now the last key in iteration order. *)
Theorem unregister_then_register
    (c : CubePosition) (color : Z) (type : CubeInfoType) (s : State) :
  NoDup (JSMap.keys s.(cubeRegistry)) ->
  keyOf c ∉ s.(excludedCoordinates) ->
  JSMap.get (keyOf c)
    (registerCubes [c] color type
       (unregisterCoordinates [c] s)).(cubeRegistry)
  = Some (mkCubeInfo c color type)
  /\ JSMap.keys
       (registerCubes [c] color type
          (unregisterCoordinates [c] s)).(cubeRegistry)
     = filter (fun j => j <> keyOf c) (JSMap.keys s.(cubeRegistry))
       ++ [keyOf c].
Proof.
  intros Hnd Hex.
  assert (JSMap.get (keyOf c) (unregisterCoordinates [c] s).(cubeRegistry)
          = None) as Hgone.
  { rewrite unregisterCoordinates_get by done.
    rewrite decide_True; [done|]. simpl. apply list_elem_of_here. }
  destruct (unregisterCoordinates_frame [c] s) as (Hexcl & _ & _).
  split.
  - apply (registerCube_get_free color type (unregisterCoordinates [c] s) c);
      [by rewrite Hexcl | done].
  - change (registerCubes [c] color type (unregisterCoordinates [c] s))
      with (registerCube color type (unregisterCoordinates [c] s) c).
    rewrite registerCube_keys, bool_decide_eq_false_2 by by rewrite Hexcl.
    unfold insert_once. rewrite decide_False by by apply JSMap_get_None.
    f_equal. simpl. fold (keyOf c). by apply JSMap_keys_delete.
Qed.

(** ** Registering and listing *)

Lemma insertion_order_first_occurrences (seen acc cs : list CubePosition) :
  (forall c, c ∈ seen <-> c ∈ acc) ->
  insertion_order (keyOf <$> acc) (keyOf <$> cs)
    = keyOf <$> (acc ++ first_occurrences seen cs).
Proof.
  unfold insertion_order. revert seen acc.
  induction cs as [|c cs IH]; intros seen acc Hseen; simpl.
  - by rewrite app_nil_r.
  - unfold insert_once at 2.
    destruct (decide (c ∈ seen)) as [Hin|Hnin].
    + rewrite decide_True
        by (apply list_elem_of_fmap; exists c; split; [done|by apply Hseen]).
      apply IH. intros c'. rewrite elem_of_app, list_elem_of_singleton.
      rewrite Hseen. split; [intros [?| ->]; [done|by apply Hseen] | by left].
    + rewrite decide_False.
      2:{ intros (c' & Heq & Hc')%list_elem_of_fmap.
          apply (inj keyOf) in Heq. subst c'. by apply Hnin, Hseen. }
      replace ((keyOf <$> acc) ++ [keyOf c])
        with (keyOf <$> (acc ++ [c])) by (by rewrite fmap_app).
      etrans; [apply (IH (seen ++ [c]) (acc ++ [c]))|].
      * intros c'. rewrite !elem_of_app, Hseen. done.
      * by rewrite <- app_assoc.
Qed.

Lemma filter_keyOf_fmap (e : gset string) (cs : list CubePosition) :
  filter (fun k => k ∉ e) (keyOf <$> cs)
    = keyOf <$> filter (fun c => keyOf c ∉ e) cs.
Proof.
  induction cs as [|c cs IH]; [done|].
  rewrite fmap_cons, !filter_cons, IH. by case_decide.
Qed.

Lemma first_occurrences_NoDup_id (seen cs : list CubePosition) :
  NoDup cs -> (forall c, c ∈ cs -> c ∉ seen) ->
  first_occurrences seen cs = cs.
Proof.
  revert seen. induction cs as [|c cs IH]; intros seen Hnd Hseen; simpl.
  - done.
  - apply NoDup_cons in Hnd as [Hnin Hnd].
    rewrite decide_False by apply Hseen, list_elem_of_here.
    f_equal. apply IH; [done|].
    intros c' Hc'. rewrite not_elem_of_app, list_elem_of_singleton.
    split; [by apply Hseen, list_elem_of_further | by intros ->].
Qed.

Lemma StronglySorted_scan_NoDup (l : list CubePosition) :
  StronglySorted scan_before l -> NoDup l.
Proof.
  induction 1 as [|p l Hl IH Hall]; constructor; [|done].
  intros Hin. rewrite Forall_forall in Hall.
  destruct (Hall p Hin) as [Hlt|[_ Hlt]]; lia.
Qed.


(** ** What every sequence of calls keeps *)

Lemma insertion_order_NoDup (ks inserted : list string) :
  NoDup ks -> NoDup (insertion_order ks inserted).
Proof.
  unfold insertion_order. revert ks.
  induction inserted as [|j l IH]; intros ks Hnd; simpl; [done|].
  apply IH. unfold insert_once. case_decide; [done|].
  apply NoDup_app. split; [done|]. split; [|apply NoDup_singleton].
  by intros j' Hin ->%list_elem_of_singleton.
Qed.

Lemma Forall_JSMap_delete (P : string * CubeInfo -> Prop) k
    (m : list (string * CubeInfo)) :
  Forall P m -> Forall P (JSMap.delete k m).
Proof.
  induction 1 as [|[k0 v0] m H0 Hm IH]; simpl; [done|].
  destruct (decide (k0 = k)); [done | by constructor].
Qed.

Lemma registerCubes_overlap_color coordinates (newColor : Z) newType s :
  newType <> overlap ->
  Forall (fun kv => kv.2.(type) = overlap -> kv.2.(color) = 0x800080)
         s.(cubeRegistry) ->
  Forall (fun kv => kv.2.(type) = overlap -> kv.2.(color) = 0x800080)
         (registerCubes coordinates newColor newType s).(cubeRegistry).
Proof.
  intros Hty. unfold registerCubes. revert s.
  induction coordinates as [|c' cs IH]; intros s Hall; simpl; [done|].
  apply IH. unfold registerCube. case_bool_decide; [done|].
  destruct (JSMap.get _ _); simpl; by apply Forall_JSMap_set.
Qed.

Lemma unregisterCoordinates_Forall (P : string * CubeInfo -> Prop)
    coordinates s :
  Forall P s.(cubeRegistry) ->
  Forall P (unregisterCoordinates coordinates s).(cubeRegistry).
Proof.
  intros Hall. induction coordinates as [|c' cs IH] using rev_ind; [done|].
  rewrite unregisterCoordinates_snoc. by apply Forall_JSMap_delete.
Qed.

Lemma JSMap_set_fresh {K V : Type} `{EqDecision K} (j : K) (v : V)
    (m : list (K * V)) :
  JSMap.get j m = None -> JSMap.set j v m = m ++ [(j, v)].
Proof.
  induction m as [|[k0 v0] m IH]; simpl; [done|].
  destruct (decide (k0 = j)); [done|]. intros Hget. by rewrite IH.
Qed.

Lemma Registry_inv_registry s s' :
  s'.(sceneGroups) = s.(sceneGroups) ->
  NoDup (JSMap.keys s'.(cubeRegistry)) ->
  registry_wf s' ->
  Forall (fun kv => kv.2.(type) = overlap -> kv.2.(color) = 0x800080)
         s'.(cubeRegistry) ->
  Registry_inv s -> Registry_inv s'.
Proof.
  intros Hg Hnd Hwf Hov [_ _ _ H4 H5]. split; rewrite ?Hg; done.
Qed.

Lemma renderAllCubes_Registry_inv scene options s :
  State_wf s -> Registry_inv s ->
  Registry_inv (renderAllCubes scene options s).1.
Proof.
  intros Hwf [H1 H2 H3 H4 H5].
  destruct (renderAllCubes_fields createMaterialWithTexture getCubeSize
              scene options s) as (Hreg & Hex & Hgrp).
  split; unfold registry_wf; rewrite ?Hreg; try done.
  - rewrite Hgrp. destruct (JSMap.get scene (sceneGroups s)) eqn:Hget; [done|].
    rewrite JSMap_keys_set_fresh by by apply JSMap_get_None.
    apply NoDup_app. split; [done|]. split; [|apply NoDup_singleton].
    intros j Hj ->%list_elem_of_singleton. by apply JSMap_get_None in Hget.
  - rewrite Hgrp. destruct (JSMap.get scene (sceneGroups s)) eqn:Hget; [done|].
    rewrite JSMap_set_fresh, fmap_app by done. simpl.
    apply NoDup_app. split; [done|]. split; [|apply NoDup_singleton].
    intros g Hg Hnew%list_elem_of_singleton.
    apply list_elem_of_fmap in Hg as ([scene' g'] & Heq & Hin).
    simpl in Heq. subst g'.
    apply (JSMap_get_elem scene' g) in Hin; [|done].
    apply (wf_tracked s Hwf), (wf_groups_allocated s Hwf) in Hin.
    rewrite Hnew, renderAllCubes_result in Hin. unfold sceneGroupFor in Hin.
    rewrite Hget in Hin. simpl in Hin. lia.
Qed.

Lemma call_keeps_invariants s (c : Call) :
  State_wf s -> Registry_inv s ->
  State_wf (call s c) /\ Registry_inv (call s c).
Proof.
  intros Hwf Hinv. pose proof Hinv as [H1 H2 H3 H4 H5].
  destruct c as [|coordinates|coordinates|coordinates color newType
                 |scene options|]; simpl.
  - split; [by apply clearRegistry_State_wf|].
    split; simpl; (done || constructor).
  - split; [by apply setExcludedCoordinates_State_wf|].
    destruct (setExcludedCoordinates_fields coordinates s)
      as (_ & Hreg & Hgrp & _).
    apply (Registry_inv_registry s); unfold registry_wf; rewrite ?Hreg; done.
  - split; [by apply unregisterCoordinates_State_wf|].
    destruct (unregisterCoordinates_frame coordinates s) as (_ & Hgrp & _).
    apply (Registry_inv_registry s); [done|..|done].
    + rewrite unregisterCoordinates_keys by done. by apply NoDup_filter.
    + by apply unregisterCoordinates_Forall.
    + by apply unregisterCoordinates_Forall.
  - split; [by apply registerCubes_State_wf|].
    destruct (registerCubes_frame coordinates color (registeredType newType) s)
      as (_ & Hgrp & _).
    apply (Registry_inv_registry s); [done|..|done].
    + rewrite registerCubes_keys. by apply insertion_order_NoDup.
    + by apply registerCubes_wf.
    + apply registerCubes_overlap_color; [by destruct newType | done].
  - split; [by apply renderAllCubes_wf | by apply renderAllCubes_Registry_inv].
  - split; [by apply dispose_wf|]. split; simpl; constructor.
Qed.

Lemma sceneGroupFor_attached scene s :
  Containers_attached s -> Containers_attached (sceneGroupFor scene s).1.
Proof.
  intros Hatt scene' g. unfold sceneGroupFor.
  destruct (JSMap.get scene (sceneGroups s)) as [tracked|] eqn:Hget;
    [apply Hatt|].
  unfold new_Group. cbn [fst sceneGroups world].
  rewrite childrenOf_Scene_add.
  destruct (decide (scene = scene')) as [<-|Hne].
  - rewrite JSMap_get_set_eq. intros [= <-].
    apply elem_of_app. right. apply list_elem_of_here.
  - rewrite JSMap_get_set_ne by done. apply Hatt.
Qed.

Lemma call_keeps_attached s (c : Call) :
  Containers_attached s -> Containers_attached (call s c).
Proof.
  intros Hatt.
  destruct c as [|coordinates|coordinates|coordinates color newType
                 |scene options|]; simpl.
  - exact Hatt.
  - destruct (setExcludedCoordinates_fields coordinates s)
      as (_ & _ & Hgrp & Hworld).
    intros scene g. rewrite Hgrp, Hworld. apply Hatt.
  - destruct (unregisterCoordinates_frame coordinates s)
      as (_ & Hgrp & Hworld).
    intros scene g. rewrite Hgrp, Hworld. apply Hatt.
  - destruct (registerCubes_frame coordinates color (registeredType newType) s)
      as (_ & Hgrp & Hworld).
    intros scene g. rewrite Hgrp, Hworld. apply Hatt.
  - intros scene' g.
    rewrite (renderAllCubes_sceneGroups createMaterialWithTexture getCubeSize),
      (renderAllCubes_childrenOf createMaterialWithTexture getCubeSize).
    by apply sceneGroupFor_attached.
  - intros scene g Hget. discriminate Hget.
Qed.

(** X8. What holds after any sequence of calls of the class, started
    in a state where it holds (the initial state is one): the store
    invariant (every tracked container is an allocated group, no object
    is twice a child of a scene); one record per key, each under the
    key of its own position; every overlap record has the overlap
    colour; no two scenes share a container; every tracked container is
    a child of its scene; and [getAllCoordinates] lists no coordinate
    twice. *)
Theorem calls_keep_invariants (cs : list Call) (s : State) :
  State_wf s -> Registry_inv s -> Containers_attached s ->
  State_wf (calls cs s)
  /\ Registry_inv (calls cs s)
  /\ Containers_attached (calls cs s)
  /\ NoDup (getAllCoordinates (calls cs s)).
Proof.
  intros Hwf Hinv Hatt.
  assert (State_wf (calls cs s) /\ Registry_inv (calls cs s)
          /\ Containers_attached (calls cs s)) as (Hwf' & Hinv' & Hatt').
  { unfold calls. revert s Hwf Hinv Hatt.
    induction cs as [|c cs IH]; intros s Hwf Hinv Hatt; simpl; [done|].
    destruct (call_keeps_invariants s c Hwf Hinv) as [Hwf1 Hinv1].
    pose proof (call_keeps_attached s c Hatt) as Hatt1.
    by apply IH. }
  split; [done|]. split; [done|]. split; [done|].
  apply (NoDup_fmap_1 keyOf).
  rewrite registry_wf_keys by apply Hinv'. apply Hinv'.
Qed.

(** ** Several scenes *)

Lemma renderAllCubes_tracked scene options s :
  JSMap.get scene (renderAllCubes scene options s).1.(sceneGroups)
    = Some (renderAllCubes scene options s).2.
Proof.
  destruct (renderAllCubes_fields createMaterialWithTexture getCubeSize
              scene options s) as (_ & _ & ->).
  destruct (JSMap.get scene (sceneGroups s)) as [g|] eqn:Hget.
  - rewrite Hget, renderAllCubes_result.
    by rewrite (sceneGroupFor_tracked scene g s).
  - apply JSMap_get_set_eq.
Qed.

Lemma renderAllCubes_tracked_other scene scene' options s :
  scene <> scene' ->
  JSMap.get scene' (renderAllCubes scene options s).1.(sceneGroups)
    = JSMap.get scene' s.(sceneGroups).
Proof.
  intros Hne.
  destruct (renderAllCubes_fields createMaterialWithTexture getCubeSize
              scene options s) as (_ & _ & ->).
  destruct (JSMap.get scene (sceneGroups s)); [done|].
  by apply JSMap_get_set_ne.
Qed.

Lemma renderAllCubes_other_groups scene options s g' :
  g' <> (renderAllCubes scene options s).2 ->
  (renderAllCubes scene options s).1.(world).(groups) !! g'
    = s.(world).(groups) !! g'.
Proof.
  destruct (sceneGroupFor_world_frame scene s) as (_ & _ & Hgs).
  rewrite renderAllCubes_result. intros Hne.
  rewrite renderAllCubes_unfold. cbv zeta. cbn [fst]. unfold set_world.
  cbn [world].
  match goal with
  | |- context [JSMap.forEach ?f ?m ?w0] =>
      destruct (renderCubes_frame createMaterialWithTexture
                  (excludedCoordinates (sceneGroupFor scene s).1)
                  (sceneGroupFor scene s).2
                  (passGeometry getCubeSize options
                     (Group_clear (sceneGroupFor scene s).2
                        (world (sceneGroupFor scene s).1)))
                  (default getCubeSize (cubeSize options))
                  (default 0%Qc (yOffset options)) m w0)
        as (_ & _ & _ & _ & Hother)
  end.
  rewrite Hother by done. cbn [new_BoxGeometry fst groups Group_clear].
  rewrite lookup_alter_ne by done. by apply Hgs.
Qed.

Lemma JSMap_values_inj {K V : Type} `{EqDecision K} (a b : K) (v : V)
    (m : list (K * V)) :
  NoDup m.*2 ->
  JSMap.get a m = Some v -> JSMap.get b m = Some v -> a = b.
Proof.
  induction m as [|[k0 v0] m IH]; simpl; [done|].
  intros [Hnin Hnd]%NoDup_cons.
  assert (forall j, JSMap.get j m = Some v0 -> False) as Hfresh.
  { intros j Hj. apply Hnin. clear -Hj.
    induction m as [|[k1 v1] m IH]; simpl in *; [done|].
    destruct (decide (k1 = j)).
    - injection Hj as ->. apply list_elem_of_here.
    - apply list_elem_of_further. by apply IH. }
  destruct (decide (k0 = a)) as [Ha|Ha], (decide (k0 = b)) as [Hb|Hb].
  - congruence.
  - intros Hv Hb'. injection Hv as ->. by destruct (Hfresh b).
  - intros Ha' Hv. injection Hv as ->. by destruct (Hfresh a).
  - by apply IH.
Qed.

(** X9. Each scene has a container of its own: rendering two different
    scenes one after the other gives two different containers, both
    tracked, the second pass does not touch the cubes the first pass put
    in its container, and both containers end with the same number of
    cubes. *)
Theorem renderAllCubes_two_scenes
    (scene1 scene2 : Scene) (options1 options2 : CubeFloorOptions)
    (s : State) :
  State_wf s -> Registry_inv s -> scene1 <> scene2 ->
  let r1 := renderAllCubes scene1 options1 s in
  let r2 := renderAllCubes scene2 options2 r1.1 in
  r2.2 <> r1.2
  /\ JSMap.get scene1 r2.1.(sceneGroups) = Some r1.2
  /\ JSMap.get scene2 r2.1.(sceneGroups) = Some r2.2
  /\ groupChildren r1.2 r2.1.(world) = groupChildren r1.2 r1.1.(world)
  /\ length (groupChildren r2.2 r2.1.(world))
     = length (groupChildren r1.2 r1.1.(world)).
Proof.
  intros Hwf Hinv Hne r1 r2. subst r1 r2.
  set (r1 := renderAllCubes scene1 options1 s).
  pose proof (renderAllCubes_wf createMaterialWithTexture getCubeSize
                scene1 options1 s Hwf) as Hwf1.
  pose proof (renderAllCubes_Registry_inv scene1 options1 s Hwf Hinv)
    as Hinv1.
  fold r1 in Hwf1, Hinv1.
  pose proof (renderAllCubes_Registry_inv scene2 options2 r1.1 Hwf1 Hinv1)
    as Hinv2.
  assert (JSMap.get scene1 (renderAllCubes scene2 options2 r1.1).1.(sceneGroups)
          = Some r1.2) as Hg1.
  { rewrite renderAllCubes_tracked_other by done.
    apply renderAllCubes_tracked. }
  pose proof (renderAllCubes_tracked scene2 options2 r1.1) as Hg2.
  assert ((renderAllCubes scene2 options2 r1.1).2 <> r1.2) as Hdiff.
  { intros Heq. rewrite Heq in Hg2. apply Hne.
    eapply JSMap_values_inj; [apply Hinv2 | exact Hg1 | exact Hg2]. }
  split; [done|]. split; [done|]. split; [done|]. split.
  - unfold groupChildren. by rewrite renderAllCubes_other_groups.
  - rewrite (renderAllCubes_children createMaterialWithTexture getCubeSize
               scene2 options2 r1.1 Hwf1).
    unfold r1.
    rewrite (renderAllCubes_children createMaterialWithTexture getCubeSize
               scene1 options1 s Hwf).
    destruct (renderAllCubes_fields createMaterialWithTexture getCubeSize
                scene1 options1 s) as (-> & -> & _).
    by rewrite !length_fmap.
Qed.

(** X10. [clearRegistry] empties the registry and the exclusion set
    but draws nothing: the container of a scene keeps the cubes of the
    last pass until the scene is rendered again, and that pass, on the
    same container and without attaching it again, leaves it empty. *)
Theorem clearRegistry_then_render
    (scene : Scene) (options : CubeFloorOptions) (s : State) (g : ObjId) :
  State_wf s ->
  JSMap.get scene s.(sceneGroups) = Some g ->
  getAllCoordinates (clearRegistry s) = []
  /\ groupChildren g (clearRegistry s).(world) = groupChildren g s.(world)
  /\ (renderAllCubes scene options (clearRegistry s)).2 = g
  /\ groupChildren g (renderAllCubes scene options (clearRegistry s)).1.(world)
     = []
  /\ (renderAllCubes scene options (clearRegistry s)).1.(world).(scene_children)
     = s.(world).(scene_children).
Proof.
  intros Hwf Hget. split; [done|]. split; [done|].
  assert ((renderAllCubes scene options (clearRegistry s)).2 = g) as Hg.
  { rewrite renderAllCubes_result.
    by rewrite (sceneGroupFor_tracked scene g (clearRegistry s)). }
  split; [done|]. split.
  - rewrite <- Hg at 1.
    rewrite (renderAllCubes_children createMaterialWithTexture getCubeSize
               scene options (clearRegistry s))
      by by apply clearRegistry_State_wf.
    done.
  - rewrite renderAllCubes_scene_children.
    by rewrite (sceneGroupFor_tracked scene g (clearRegistry s)).
Qed.

(** ** What [dispose] leaves in the scenes *)

Lemma remove_first_elem (g o : ObjId) (l : list ObjId) :
  NoDup l -> o ∈ remove_first g l <-> o ∈ l /\ o <> g.
Proof.
  induction 1 as [|o' l Hnin Hnd IH]; simpl.
  - rewrite elem_of_nil. tauto.
  - destruct (decide (o' = g)) as [->|Hne].
    + rewrite elem_of_cons. split.
      * intros Hin. split; [by right|]. by intros ->.
      * by intros [[->|Hin] Hog].
    + rewrite !elem_of_cons, IH. split.
      * intros [->|[Hin Hog]]; [by split; [left|] | by split; [right|]].
      * intros [[->|Hin] Hog]; [by left | by right].
Qed.

Lemma disposeSceneGroups_children (m : list (Scene * ObjId)) (w : World)
    (scene : Scene) (o : ObjId) :
  (forall sc, NoDup (childrenOf sc w)) ->
  o ∈ childrenOf scene (JSMap.forEach disposeSceneGroup m w)
  <-> o ∈ childrenOf scene w /\ (scene, o) ∉ m.
Proof.
  unfold JSMap.forEach. revert w.
  induction m as [|[scene0 g0] m IH]; intros w Hnd; simpl.
  - split; [intros ?; split; [done | apply not_elem_of_nil] | by intros [? _]].
  - destruct (disposeSceneGroup_frame g0 scene0 w) as (_ & _ & _ & Hch).
    rewrite IH.
    2:{ intros sc. rewrite Hch. case_decide; [|done].
        by apply remove_first_NoDup. }
    rewrite Hch, not_elem_of_cons.
    destruct (decide (scene0 = scene)) as [->|Hne].
    + rewrite remove_first_elem by done. split.
      * intros [[Hin Hog] Hm]. split; [done|]. split; [|done].
        intros Heq. injection Heq as ->. done.
      * intros [Hin [Hhd Hm]]. split; [|done]. split; [done|].
        intros ->. done.
    + split.
      * intros [Hin Hm]. split; [done|]. split; [|done].
        intros Heq. injection Heq as -> _. done.
      * by intros [Hin [_ Hm]].
Qed.

(** X11. [dispose] takes out of every scene exactly the containers the
    class tracked for it: every other child of a scene is still its
    child.  The [dispose()] calls it makes are, for each tracked
    container in the order of the scene table, the geometry and the
    material of each of its cubes; the group objects themselves keep
    their cubes. *)
Theorem dispose_only_containers (s : State) (scene : Scene) (o : ObjId) :
  State_wf s ->
  (o ∈ childrenOf scene (dispose s).(world)
   <-> o ∈ childrenOf scene s.(world) /\ (scene, o) ∉ s.(sceneGroups))
  /\ (dispose s).(world).(disposed)
     = s.(world).(disposed)
       ++ (s.(sceneGroups) ≫= fun kv =>
             releasedBy (groupChildren kv.2 s.(world)))
  /\ (dispose s).(world).(groups) = s.(world).(groups).
Proof.
  intros Hwf. unfold dispose. cbn [world].
  destruct (disposeSceneGroups_frame (sceneGroups s) (world s))
    as (Hg & _ & Hlog & _).
  split; [|by split].
  apply disposeSceneGroups_children. apply (wf_children_NoDup s Hwf).
Qed.

(** ** The size of an area *)

Lemma length_for_upto_go {A : Type} (n : nat) (i : Z) (body : Z -> list A)
    (len : nat) :
  (forall j, length (body j) = len) ->
  length (for_upto_go n i body) = (n * len)%nat.
Proof.
  intros Hlen. revert i. induction n as [|n IH]; intros i; simpl; [done|].
  by rewrite length_app, Hlen, IH.
Qed.


Lemma Registry_inv_initial (w : World) : Registry_inv (initial w).
Proof. split; simpl; try constructor. Qed.

End RegistryFacts.

(** * Properties of PlayerManager *)

Module PlayerManagerFacts.
Import PlayerManager.

(** ** The colour of a player *)

Lemma ToInt32_range (n : Z) : - 2 ^ 31 <= ToInt32 n < 2 ^ 31.
Proof.
  unfold ToInt32.
  pose proof (Z.mod_pos_bound (n + 2 ^ 31) (2 ^ 32)). lia.
Qed.

Lemma ToInt32_wraps (n : Z) : exists q, ToInt32 n = n + q * 2 ^ 32.
Proof.
  unfold ToInt32. exists (- ((n + 2 ^ 31) / 2 ^ 32)).
  pose proof (Z.div_mod (n + 2 ^ 31) (2 ^ 32)). lia.
Qed.

Lemma ToInt32_plus (n q : Z) : ToInt32 (n + q * 2 ^ 32) = ToInt32 n.
Proof.
  unfold ToInt32.
  replace (n + q * 2 ^ 32 + 2 ^ 31) with (n + 2 ^ 31 + q * 2 ^ 32) by lia.
  by rewrite Z_mod_plus_full.
Qed.

Lemma ToInt32_small (n : Z) : - 2 ^ 31 <= n < 2 ^ 31 -> ToInt32 n = n.
Proof. intros Hn. unfold ToInt32. rewrite Z.mod_small; lia. Qed.

Lemma hashStep_times_31 (a b : Z) : hashStep a b = ToInt32 (31 * a + b).
Proof.
  unfold hashStep, bitAnd, shiftLeft. rewrite Z.land_diag.
  change (Z.land 5 31) with 5. rewrite Z.shiftl_mul_pow2 by lia.
  destruct (ToInt32_wraps a) as [q1 ->].
  destruct (ToInt32_wraps ((a + q1 * 2 ^ 32) * 2 ^ 5)) as [q2 ->].
  replace ((a + q1 * 2 ^ 32) * 2 ^ 5 + q2 * 2 ^ 32 - a + b)
    with (31 * a + b + (32 * q1 + q2) * 2 ^ 32) by lia.
  apply ToInt32_plus.
Qed.

Lemma hashOf_from (playerId : list Z) (a a' : Z) :
  a = ToInt32 a' ->
  fold_left hashStep playerId a
    = ToInt32 (fold_left (fun a b => 31 * a + b) playerId a').
Proof.
  revert a a'. induction playerId as [|b l IH]; intros a a' Ha; simpl.
  - done.
  - apply IH. rewrite hashStep_times_31, Ha.
    destruct (ToInt32_wraps a') as [q ->].
    replace (31 * (a' + q * 2 ^ 32) + b)
      with (31 * a' + b + (31 * q) * 2 ^ 32) by lia.
    apply ToInt32_plus.
Qed.

(** X13. The hash of [generatePlayerColor] is the polynomial hash with
    multiplier 31 (the [hashCode] of Java strings) wrapped to 32 bits:
    the shift-and-subtract step multiplies by 31 modulo 2^32.  The
    colour is the palette entry at the absolute value of that hash
    modulo 8. *)
Theorem generatePlayerColor_hash (playerId : list Z) :
  hashOf playerId = ToInt32 (polynomialHash playerId)
  /\ generatePlayerColor playerId
     = colors !! Z.to_nat (Z.abs (ToInt32 (polynomialHash playerId)) mod 8).
Proof.
  assert (hashOf playerId = ToInt32 (polynomialHash playerId)) as Hhash.
  { unfold hashOf, polynomialHash. by apply hashOf_from. }
  split; [done|].
  unfold generatePlayerColor. rewrite Hhash.
  change (Z.of_nat (length colors)) with 8.
  rewrite Z.rem_mod_nonneg by lia. done.
Qed.

(** X14. [generatePlayerColor] returns one of the eight colours of the
    palette for every player id, the empty one included: the index is
    never outside the array, also when the hash is the most negative
    32-bit integer. *)
Theorem generatePlayerColor_in_palette (playerId : list Z) :
  exists color,
    generatePlayerColor playerId = Some color /\ color ∈ colors.
Proof.
  unfold generatePlayerColor.
  change (Z.of_nat (length colors)) with 8.
  rewrite Z.rem_mod_nonneg by lia.
  pose proof (Z.mod_pos_bound (Z.abs (hashOf playerId)) 8).
  destruct (lookup_lt_is_Some_2 colors
              (Z.to_nat (Z.abs (hashOf playerId) mod 8))) as [color Hcolor].
  { change (length colors) with 8%nat. lia. }
  exists color. split; [done|]. by eapply list_elem_of_lookup_2.
Qed.

(** ** Maps, once more *)

Section MapFacts.
Context {K V : Type} `{EqDecision K}.
Implicit Types (m : list (K * V)).

Lemma keys_set (j : K) (v : V) m :
  JSMap.keys (JSMap.set j v m)
    = if decide (j ∈ JSMap.keys m) then JSMap.keys m
      else JSMap.keys m ++ [j].
Proof.
  case_decide.
  - by apply JSMap_keys_set_occupied.
  - by apply JSMap_keys_set_fresh.
Qed.

Lemma Forall_set (P : K * V -> Prop) (j : K) (v : V) m :
  Forall P m -> (forall j', P (j', v)) -> Forall P (JSMap.set j v m).
Proof.
  intros Hm Hv. induction Hm as [|[k0 v0] m H0 Hm IH]; simpl.
  - by constructor.
  - destruct (decide (k0 = j)); by constructor.
Qed.

Lemma Forall_delete (P : K * V -> Prop) (j : K) m :
  Forall P m -> Forall P (JSMap.delete j m).
Proof.
  induction 1 as [|[k0 v0] m H0 Hm IH]; simpl; [done|].
  destruct (decide (k0 = j)); [done | by constructor].
Qed.

Lemma values_set_NoDup (j : K) (v : V) m :
  NoDup m.*2 -> v ∉ m.*2 -> NoDup (JSMap.set j v m).*2.
Proof.
  induction m as [|[k0 v0] m IH]; simpl.
  - intros _ _. apply NoDup_singleton.
  - intros [Hnin Hnd]%NoDup_cons [Hne Hv]%not_elem_of_cons.
    destruct (decide (k0 = j)); simpl.
    + by apply NoDup_cons.
    + apply NoDup_cons. split; [|by apply IH].
      intros Hin. apply Hnin.
      clear -Hin Hne. induction m as [|[k1 v1] m IH]; simpl in *.
      * apply list_elem_of_singleton in Hin. congruence.
      * destruct (decide (k1 = j)); simpl in *.
        -- apply elem_of_cons in Hin as [?|Hin]; [congruence|].
           by apply list_elem_of_further.
        -- apply elem_of_cons in Hin as [->|Hin];
             [apply list_elem_of_here|].
           apply list_elem_of_further. by apply IH.
Qed.

Lemma values_delete_NoDup (j : K) m :
  NoDup m.*2 -> NoDup (JSMap.delete j m).*2.
Proof.
  intros Hnd.
  apply (sublist_NoDup (JSMap.delete j m).*2 m.*2); [exact Hnd|].
  apply fmap_sublist, JSMap_delete_sublist.
Qed.

Lemma get_Forall (P : K * V -> Prop) (j : K) (v : V) m :
  Forall P m -> JSMap.get j m = Some v -> exists j', P (j', v).
Proof.
  induction 1 as [|[k0 v0] m H0 Hm IH]; simpl; [done|].
  destruct (decide (k0 = j)); [|done].
  intros Hv. injection Hv as ->. by exists k0.
Qed.

Lemma delete_set_fresh (j : K) (v : V) m :
  JSMap.get j m = None -> JSMap.delete j (JSMap.set j v m) = m.
Proof.
  induction m as [|[k0 v0] m IH]; simpl.
  - intros _. by rewrite decide_True.
  - destruct (decide (k0 = j)) as [->|Hne]; [done|]. intros Hget.
    simpl. rewrite decide_False by done. by rewrite IH.
Qed.
End MapFacts.

(** ** The sprite animation *)

Implicit Types (s : State) (playerId : string).

Lemma Invariant_initial : Invariant initial.
Proof.
  split; simpl; try done; try constructor.
  intros o. rewrite lookup_empty. by intros [? ?].
Qed.

(** Storing new animation data for a tracked player, and refreshing the
    texture of its sprite when the frame may have changed. *)
Lemma Invariant_animation_step s playerId animData animData'
    (refresh : bool) :
  Invariant s ->
  JSMap.get playerId s.(spriteAnimations) = Some animData ->
  animData'.(currentFrame) = 1 \/ animData'.(currentFrame) = 2 ->
  (refresh = false -> animData'.(currentFrame) = animData.(currentFrame)) ->
  Invariant
    (if refresh
     then updateSpriteTexture playerId
            (set_spriteAnimations
               (JSMap.set playerId animData' s.(spriteAnimations)) s)
     else set_spriteAnimations
            (JSMap.set playerId animData' s.(spriteAnimations)) s).
Proof.
  intros [Hrefs Htex Hnd Hfr Hvals Halloc Hstore Hshows] Hget Hframe Hsame.
  assert (JSMap.keys (JSMap.set playerId animData' s.(spriteAnimations))
          = JSMap.keys s.(spriteAnimations)) as Hkeys.
  { apply JSMap_keys_set_occupied. by eapply JSMap_get_Some_key. }
  assert (forall p, p <> playerId ->
            JSMap.get p (JSMap.set playerId animData' s.(spriteAnimations))
            = JSMap.get p s.(spriteAnimations)) as Hother.
  { intros p Hp. by apply JSMap_get_set_ne. }
  assert (Forall (fun kv => kv.2.(currentFrame) = 1 \/ kv.2.(currentFrame) = 2)
            (JSMap.set playerId animData' s.(spriteAnimations))) as Hfr'.
  { by apply Forall_set. }
  set (s1 := set_spriteAnimations
               (JSMap.set playerId animData' s.(spriteAnimations)) s).
  assert (forall p, p <> playerId -> shows_current_frame s1 p) as Hshows1.
  { intros p Hp a m t Ha Hm Ht. simpl in Ha. rewrite Hother in Ha by done.
    by apply (Hshows p a m t). }
  destruct refresh.
  - unfold updateSpriteTexture.
    replace (JSMap.get playerId (spriteAnimations s1)) with (Some animData')
      by (symmetry; apply JSMap_get_set_eq).
    destruct (JSMap.get playerId (spriteMeshReferences s1))
      as [spriteMeshRef|] eqn:Hm.
    2:{ split; simpl; rewrite ?Hkeys; try done.
        intros p. destruct (decide (p = playerId)) as [->|Hp];
          [|by apply Hshows1].
        intros a m t _ Hm'. simpl in Hm, Hm'. congruence. }
    destruct (JSMap.get playerId (spriteTextures s1)) as [textures|] eqn:Ht.
    2:{ split; simpl; rewrite ?Hkeys; try done.
        intros p. destruct (decide (p = playerId)) as [->|Hp];
          [|by apply Hshows1].
        intros a m t _ _ Ht'. simpl in Ht, Ht'. congruence. }
    simpl in Hm, Ht.
    destruct (Hshows playerId animData spriteMeshRef textures Hget Hm Ht)
      as (mesh & Hmesh & _).
    split; simpl; rewrite ?Hkeys; try done.
    + intros o. destruct (decide (spriteMeshRef = o)) as [->|Hne].
      * intros _. apply Hstore. by eexists.
      * rewrite lookup_alter_ne by done. apply Hstore.
    + intros p. destruct (decide (p = playerId)) as [->|Hp].
      * intros a m t Ha Hm' Ht'. simpl in *.
        rewrite JSMap_get_set_eq in Ha. injection Ha as <-.
        rewrite Hm in Hm'. injection Hm' as <-.
        rewrite Ht in Ht'. injection Ht' as <-.
        rewrite lookup_alter_eq, Hmesh. simpl. by eexists.
      * intros a m t Ha Hm' Ht'. simpl in *.
        rewrite Hother in Ha by done.
        destruct (Hshows p a m t Ha Hm' Ht') as (mesh' & Hmesh' & Hmap).
        exists mesh'. split; [|done].
        rewrite lookup_alter_ne; [done|].
        intros ->. apply Hp. by eapply JSMap_values_inj.
  - split; simpl; rewrite ?Hkeys; try done.
    intros p. destruct (decide (p = playerId)) as [->|Hp];
      [|by apply Hshows1].
    intros a m t Ha Hm Ht. simpl in *.
    rewrite JSMap_get_set_eq in Ha. injection Ha as <-.
    rewrite (Hsame eq_refl). by apply (Hshows playerId animData m t).
Qed.

Lemma updateSpriteAnimation_Invariant playerId (moving : bool) (now : Z) s :
  Invariant s -> Invariant (updateSpriteAnimation playerId moving now s).
Proof.
  intros Hinv. unfold updateSpriteAnimation.
  destruct (JSMap.get playerId (spriteAnimations s)) as [animData|] eqn:Hget;
    [|done].
  assert (animData.(currentFrame) = 1 \/ animData.(currentFrame) = 2)
    as Hframe.
  { destruct (get_Forall _ _ _ _ (inv_frames s Hinv) Hget) as [? ?]. done. }
  cbv zeta.
  set (animData1 := mkSpriteAnimation (mixer animData) (currentFrame animData)
                      (lastFrameTime animData) moving (direction animData)).
  pose proof (Invariant_animation_step s playerId animData animData1 false
                Hinv Hget Hframe (fun _ => eq_refl)) as Hinv1.
  cbv iota in Hinv1.
  set (s1 := set_spriteAnimations
               (JSMap.set playerId animData1 (spriteAnimations s)) s) in *.
  assert (JSMap.get playerId (spriteAnimations s1) = Some animData1) as Hget1
    by apply JSMap_get_set_eq.
  destruct (moving && bool_decide (now - lastFrameTime animData1 > 500)).
  - apply (Invariant_animation_step s1 playerId animData1 _ true Hinv1 Hget1);
      simpl; [case_bool_decide; by auto | done].
  - destruct (negb moving); [|done].
    case_bool_decide; [|done].
    apply (Invariant_animation_step s1 playerId animData1 _ true Hinv1 Hget1);
      simpl; [by left | done].
Qed.

Lemma createSpritePlayerModel_Invariant player (isLocal : bool) (now : Z) s :
  Invariant s -> Invariant (createSpritePlayerModel player isLocal now s).1.
Proof.
  intros Hinv. unfold createSpritePlayerModel.
  destruct (character player) as [character|]; [|done].
  destruct Hinv as [Hrefs Htex Hnd Hfr Hvals Halloc Hstore Hshows].
  cbv zeta. cbn [fst].
  assert ((next_id s + 5)%nat ∉ (spriteMeshReferences s).*2) as Hfresh.
  { intros Hin. apply list_elem_of_fmap in Hin as ([j o] & Ho & Hin).
    rewrite Forall_forall in Halloc. apply Halloc in Hin. simpl in *. lia. }
  split; cbn [spriteAnimations spriteMeshReferences spriteTextures meshes
              playerGroups next_id disposed].
  - by rewrite !keys_set, Hrefs.
  - by rewrite !keys_set, Htex.
  - rewrite keys_set. destruct (decide _) as [Hin|Hin]; [done|].
    apply NoDup_app. split_and!; [done| |apply NoDup_singleton].
    intros j Hj Hj'%list_elem_of_singleton. by rewrite Hj' in Hj.
  - apply Forall_set; [done|]. intros j. by left.
  - by apply values_set_NoDup.
  - apply Forall_set.
    + eapply Forall_impl; [exact Halloc|]. simpl. lia.
    + intros j. simpl. lia.
  - intros o. destruct (decide (o = (next_id s + 5)%nat)) as [->|Hne]; [lia|].
    rewrite lookup_insert_ne by done. intros Ho%Hstore. lia.
  - intros p a m t. cbn [spriteAnimations spriteMeshReferences spriteTextures
                         meshes].
    destruct (decide (p = id player)) as [->|Hp].
    + rewrite !JSMap_get_set_eq. intros [= <-] [= <-] [= <-].
      rewrite lookup_insert_eq. by eexists.
    + rewrite !JSMap_get_set_ne by done. intros Ha Hm Ht.
      destruct (Hshows p a m t Ha Hm Ht) as (mesh & Hmesh & Hmap).
      exists mesh. split; [|done].
      rewrite lookup_insert_ne; [done|]. intros <-.
      assert (is_Some (meshes s !! (next_id s + 5)%nat)) as Hs by by eexists.
      apply Hstore in Hs. lia.
Qed.

(** Disposal calls only extend the log. *)
Lemma Invariant_ext s s' :
  spriteAnimations s' = spriteAnimations s ->
  spriteMeshReferences s' = spriteMeshReferences s ->
  spriteTextures s' = spriteTextures s ->
  meshes s' = meshes s ->
  next_id s' = next_id s ->
  Invariant s -> Invariant s'.
Proof.
  destruct s, s'. simpl. intros -> -> -> -> -> [? ? ? ? ? ? ? Hshows].
  split; done.
Qed.

Lemma disposeChild_fields s child :
  let s' := disposeChild s child in
  spriteAnimations s' = spriteAnimations s
  /\ spriteMeshReferences s' = spriteMeshReferences s
  /\ spriteTextures s' = spriteTextures s
  /\ meshes s' = meshes s
  /\ playerGroups s' = playerGroups s
  /\ next_id s' = next_id s.
Proof. unfold disposeChild. by destruct (meshes s !! child). Qed.

Lemma disposeChildren_fields l s :
  let s' := fold_left disposeChild l s in
  spriteAnimations s' = spriteAnimations s
  /\ spriteMeshReferences s' = spriteMeshReferences s
  /\ spriteTextures s' = spriteTextures s
  /\ meshes s' = meshes s
  /\ playerGroups s' = playerGroups s
  /\ next_id s' = next_id s.
Proof.
  revert s. induction l as [|c l IH]; intros s; simpl; [done|].
  destruct (IH (disposeChild s c)) as (-> & -> & -> & -> & -> & ->).
  apply disposeChild_fields.
Qed.

Lemma forgetPlayer_fields object s :
  let s' := forgetPlayer object s in
  meshes s' = meshes s /\ playerGroups s' = playerGroups s
  /\ next_id s' = next_id s
  /\ ((spriteAnimations s' = spriteAnimations s
       /\ spriteMeshReferences s' = spriteMeshReferences s
       /\ spriteTextures s' = spriteTextures s)
      \/ exists group,
           playerGroups s !! object = Some group
           /\ playerId (userData group) <> ""
           /\ spriteAnimations s'
              = JSMap.delete (playerId (userData group)) (spriteAnimations s)
           /\ spriteMeshReferences s'
              = JSMap.delete (playerId (userData group))
                  (spriteMeshReferences s)
           /\ spriteTextures s'
              = JSMap.delete (playerId (userData group)) (spriteTextures s)).
Proof.
  unfold forgetPlayer.
  destruct (playerGroups s !! object) as [group|] eqn:Hgroup;
    [|by split_and!; [..|left]].
  case_bool_decide as Hid; [|by split_and!; [..|left]].
  destruct (JSMap.get _ (spriteTextures s)) as [textures|] eqn:Ht; simpl.
  - split_and!; [done..|]. right. by exists group.
  - split_and!; [done..|]. right. exists group. split_and!; try done.
    symmetry. by apply JSMap_delete_absent.
Qed.

Lemma forgetPlayer_Invariant object s :
  Invariant s -> Invariant (forgetPlayer object s).
Proof.
  intros Hinv.
  destruct (forgetPlayer_fields object s)
    as (Hmeshes & _ & Hnext & [(Ha & Hm & Ht)|(group & _ & _ & Ha & Hm & Ht)]).
  { by apply (Invariant_ext s). }
  destruct Hinv as [Hrefs Htex Hnd Hfr Hvals Halloc Hstore Hshows].
  set (p := playerId (userData group)) in *.
  assert (NoDup (JSMap.keys (spriteMeshReferences s))) as Hndm
    by by rewrite Hrefs.
  assert (NoDup (JSMap.keys (spriteTextures s))) as Hndt by by rewrite Htex.
  split; rewrite ?Ha, ?Hm, ?Ht, ?Hmeshes, ?Hnext.
  - by rewrite !JSMap_keys_delete, Hrefs.
  - by rewrite !JSMap_keys_delete, Htex.
  - rewrite JSMap_keys_delete by done. by apply NoDup_filter.
  - by apply Forall_delete.
  - by apply values_delete_NoDup.
  - by apply Forall_delete.
  - done.
  - intros q a m t. rewrite Ha, Hm, Ht, Hmeshes.
    destruct (decide (p = q)) as [<-|Hq].
    + by rewrite JSMap_get_delete_eq.
    + rewrite !JSMap_get_delete_ne by done. apply Hshows.
Qed.

Lemma disposePlayerMesh_Invariant mesh s :
  Invariant s -> Invariant (disposePlayerMesh mesh s).
Proof.
  intros Hinv%(forgetPlayer_Invariant mesh). unfold disposePlayerMesh.
  cbv zeta. destruct (meshes _ !! mesh).
  - destruct (disposeChild_fields (forgetPlayer mesh s) mesh)
      as (? & ? & ? & ? & _ & ?). by eapply Invariant_ext.
  - destruct (playerGroups _ !! mesh) as [group|]; [|done].
    destruct (disposeChildren_fields (children group) (forgetPlayer mesh s))
      as (? & ? & ? & ? & _ & ?). by eapply Invariant_ext.
Qed.

Lemma call_Invariant c s : Invariant s -> Invariant (call s c).
Proof.
  destruct c; simpl.
  - apply createSpritePlayerModel_Invariant.
  - apply updateSpriteAnimation_Invariant.
  - apply disposePlayerMesh_Invariant.
Qed.

Lemma calls_Invariant cs s : Invariant s -> Invariant (calls cs s).
Proof.
  revert s. induction cs as [|c cs IH]; intros s Hinv; [done|].
  apply IH, call_Invariant, Hinv.
Qed.

Lemma set_same {K V : Type} `{EqDecision K} (j : K) (v : V)
    (m : list (K * V)) :
  JSMap.get j m = Some v -> JSMap.set j v m = m.
Proof.
  induction m as [|[k0 v0] m IH]; simpl; [done|].
  destruct (decide (k0 = j)) as [->|Hne].
  - by intros [= ->].
  - intros Hget. by rewrite IH.
Qed.

Lemma set_set {K V : Type} `{EqDecision K} (j : K) (v v' : V)
    (m : list (K * V)) :
  JSMap.set j v' (JSMap.set j v m) = JSMap.set j v' m.
Proof.
  induction m as [|[k0 v0] m IH]; simpl.
  - by rewrite decide_True.
  - destruct (decide (k0 = j)) as [->|Hne]; simpl.
    + by rewrite decide_True.
    + by rewrite decide_False, IH.
Qed.

Lemma get_tracked {K V : Type} `{EqDecision K} (j : K) (m : list (K * V)) :
  j ∈ JSMap.keys m -> is_Some (JSMap.get j m).
Proof.
  intros Hin. destruct (JSMap.get j m) eqn:Hget; [by eexists|].
  by apply JSMap_get_None in Hget.
Qed.

Lemma set_spriteAnimations_same s :
  set_spriteAnimations (spriteAnimations s) s = s.
Proof. by destruct s. Qed.

Lemma updateSpriteTexture_fields playerId s :
  let s' := updateSpriteTexture playerId s in
  spriteAnimations s' = spriteAnimations s
  /\ spriteMeshReferences s' = spriteMeshReferences s
  /\ spriteTextures s' = spriteTextures s
  /\ playerGroups s' = playerGroups s
  /\ next_id s' = next_id s
  /\ disposed s' = disposed s.
Proof.
  unfold updateSpriteTexture.
  destruct (JSMap.get playerId (spriteAnimations s)); [|done].
  destruct (JSMap.get playerId (spriteMeshReferences s)); [|done].
  by destruct (JSMap.get playerId (spriteTextures s)).
Qed.

(** What a tracked player's sprite shows, read off the invariant. *)
Lemma Invariant_shows s playerId animData :
  Invariant s ->
  JSMap.get playerId (spriteAnimations s) = Some animData ->
  (currentFrame animData = 1 \/ currentFrame animData = 2)
  /\ exists spriteMeshRef textures mesh,
       JSMap.get playerId (spriteMeshReferences s) = Some spriteMeshRef
       /\ JSMap.get playerId (spriteTextures s) = Some textures
       /\ meshes s !! spriteMeshRef = Some mesh
       /\ map (material mesh)
          = if bool_decide (currentFrame animData = 1)
            then textures.1 else textures.2.
Proof.
  intros [Hrefs Htex Hnd Hfr Hvals Halloc Hstore Hshows] Hget.
  split.
  { by destruct (get_Forall _ _ _ _ Hfr Hget) as [? ?]. }
  pose proof (JSMap_get_Some_key _ _ _ Hget) as Hin.
  destruct (get_tracked playerId (spriteMeshReferences s)) as [m Hm];
    [by rewrite Hrefs|].
  destruct (get_tracked playerId (spriteTextures s)) as [t Ht];
    [by rewrite Htex|].
  destruct (Hshows playerId animData m t Hget Hm Ht) as (mesh & ? & ?).
  by exists m, t, mesh.
Qed.

Lemma updateSpriteAnimation_toggles playerId animData (now : Z) s :
  JSMap.get playerId (spriteAnimations s) = Some animData ->
  now - lastFrameTime animData > 500 ->
  JSMap.get playerId
    (spriteAnimations (updateSpriteAnimation playerId true now s))
  = Some (mkSpriteAnimation (mixer animData)
            (if bool_decide (currentFrame animData = 1) then 2 else 1)
            now true (direction animData)).
Proof.
  intros Hget Hlate. unfold updateSpriteAnimation. rewrite Hget. cbv zeta.
  cbn [lastFrameTime currentFrame mixer direction andb].
  rewrite bool_decide_eq_true_2 by done.
  destruct (updateSpriteTexture_fields playerId
              (set_spriteAnimations
                 (JSMap.set playerId
                    (mkSpriteAnimation (mixer animData)
                       (if bool_decide (currentFrame animData = 1)
                        then 2 else 1) now true (direction animData))
                    (spriteAnimations
                       (set_spriteAnimations
                          (JSMap.set playerId
                             (mkSpriteAnimation (mixer animData)
                                (currentFrame animData)
                                (lastFrameTime animData) true
                                (direction animData))
                             (spriteAnimations s)) s)))
                 (set_spriteAnimations
                    (JSMap.set playerId
                       (mkSpriteAnimation (mixer animData)
                          (currentFrame animData) (lastFrameTime animData)
                          true (direction animData))
                       (spriteAnimations s)) s))) as (-> & _).
  apply JSMap_get_set_eq.
Qed.

Lemma updateSpriteAnimation_holds playerId animData (now : Z) s :
  JSMap.get playerId (spriteAnimations s) = Some animData ->
  isMoving animData = true ->
  now - lastFrameTime animData <= 500 ->
  updateSpriteAnimation playerId true now s = s.
Proof.
  intros Hget Hmoving Hearly. unfold updateSpriteAnimation. rewrite Hget.
  cbv zeta. cbn [lastFrameTime currentFrame mixer direction andb negb].
  rewrite bool_decide_eq_false_2 by lia.
  rewrite set_same; [apply set_spriteAnimations_same|].
  rewrite Hget. f_equal. destruct animData. simpl in *. by subst.
Qed.

(** X15. After any sequence of [createSpritePlayerModel],
    [updateSpriteAnimation] and [disposePlayerMesh] calls from the
    initial state, the three maps hold the same players in the same
    order, no two players share a sprite mesh, every frame number is 1
    or 2, and the sprite mesh of every tracked player exists and shows
    the pre-loaded texture of the player's current frame. *)
Theorem calls_keep_sprites_consistent (cs : list Call) :
  let s := calls cs initial in
  JSMap.keys (spriteMeshReferences s) = JSMap.keys (spriteAnimations s)
  /\ JSMap.keys (spriteTextures s) = JSMap.keys (spriteAnimations s)
  /\ NoDup (JSMap.keys (spriteAnimations s))
  /\ NoDup (spriteMeshReferences s).*2
  /\ forall playerId animData,
       JSMap.get playerId (spriteAnimations s) = Some animData ->
       (currentFrame animData = 1 \/ currentFrame animData = 2)
       /\ exists spriteMeshRef textures mesh,
            JSMap.get playerId (spriteMeshReferences s) = Some spriteMeshRef
            /\ JSMap.get playerId (spriteTextures s) = Some textures
            /\ meshes s !! spriteMeshRef = Some mesh
            /\ map (material mesh)
               = if bool_decide (currentFrame animData = 1)
                 then textures.1 else textures.2.
Proof.
  intros s.
  assert (Invariant s) as Hinv by apply calls_Invariant, Invariant_initial.
  split_and!; try apply Hinv.
  intros playerId animData. by apply Invariant_shows.
Qed.

(** X16. A frame lasts at least 500 ms: a moving update that comes more
    than 500 ms after the last frame change switches to the other frame
    and records the time, and a moving update at most 500 ms after that
    changes nothing at all. *)
Theorem updateSpriteAnimation_frame_hold playerId animData (now now' : Z) s :
  JSMap.get playerId (spriteAnimations s) = Some animData ->
  now - lastFrameTime animData > 500 ->
  now' - now <= 500 ->
  let s1 := updateSpriteAnimation playerId true now s in
  JSMap.get playerId (spriteAnimations s1)
  = Some (mkSpriteAnimation (mixer animData)
            (if bool_decide (currentFrame animData = 1) then 2 else 1)
            now true (direction animData))
  /\ updateSpriteAnimation playerId true now' s1 = s1.
Proof.
  intros Hget Hlate Hearly s1.
  pose proof (updateSpriteAnimation_toggles _ _ _ _ Hget Hlate) as Hget1.
  split; [exact Hget1|].
  by apply (updateSpriteAnimation_holds _ _ _ _ Hget1).
Qed.

(** X17. A tracked player that stops is shown on frame 1: after
    [updateSpriteAnimation(playerId, false)] the frame is 1, the time of
    the last frame change is as before, the sprite mesh shows the
    frame-1 texture, and a second such update changes nothing. *)
Theorem updateSpriteAnimation_stop playerId animData (now now' : Z) s :
  Invariant s ->
  JSMap.get playerId (spriteAnimations s) = Some animData ->
  let s1 := updateSpriteAnimation playerId false now s in
  JSMap.get playerId (spriteAnimations s1)
  = Some (mkSpriteAnimation (mixer animData) 1 (lastFrameTime animData)
            false (direction animData))
  /\ (exists spriteMeshRef textures mesh,
        JSMap.get playerId (spriteMeshReferences s1) = Some spriteMeshRef
        /\ JSMap.get playerId (spriteTextures s1) = Some textures
        /\ meshes s1 !! spriteMeshRef = Some mesh
        /\ map (material mesh) = textures.1)
  /\ updateSpriteAnimation playerId false now' s1 = s1.
Proof.
  intros Hinv Hget s1.
  assert (JSMap.get playerId (spriteAnimations s1)
          = Some (mkSpriteAnimation (mixer animData) 1
                    (lastFrameTime animData) false (direction animData)))
    as Hget1.
  { subst s1. unfold updateSpriteAnimation. rewrite Hget. cbv zeta.
    cbn [lastFrameTime currentFrame mixer direction andb negb].
    case_bool_decide as Hframe.
    - match goal with
      | |- context [updateSpriteTexture ?p ?s'] =>
          destruct (updateSpriteTexture_fields p s') as (-> & _)
      end.
      apply JSMap_get_set_eq.
    - cbn [spriteAnimations set_spriteAnimations].
      rewrite JSMap_get_set_eq. do 2 f_equal.
      destruct (decide (currentFrame animData = 1)); [done|].
      by destruct Hframe. }
  split; [exact Hget1|]. split.
  - pose proof (updateSpriteAnimation_Invariant playerId false now s Hinv)
      as Hinv1.
    destruct (Invariant_shows _ _ _ Hinv1 Hget1)
      as (_ & m & t & mesh & ? & ? & ? & Hmap).
    by exists m, t, mesh.
  - unfold updateSpriteAnimation. rewrite Hget1. cbv zeta.
    cbn [lastFrameTime currentFrame mixer direction andb negb].
    rewrite bool_decide_eq_false_2 by (intros Hne; by apply Hne).
    rewrite set_same by done. apply set_spriteAnimations_same.
Qed.

(** X18. Creating a sprite model for a player that has a non-empty id
    and is not tracked, and disposing the returned model, leaves the
    three maps as they were; the disposal calls are, in this order, on
    the two pre-loaded textures, the sprite geometry and the sprite
    material. *)
Theorem create_then_dispose player c (isLocal : bool) (now : Z) s :
  Invariant s ->
  character player = Some c ->
  id player <> "" ->
  JSMap.get (id player) (spriteAnimations s) = None ->
  let created := createSpritePlayerModel player isLocal now s in
  let s' := disposePlayerMesh (next_id s) created.1 in
  (exists mixer,
     created.2 = Returns (mkPlayerModel (next_id s) (Some mixer)))
  /\ spriteAnimations s' = spriteAnimations s
  /\ spriteMeshReferences s' = spriteMeshReferences s
  /\ spriteTextures s' = spriteTextures s
  /\ exists textures spriteMeshRef mesh,
       JSMap.get (id player) (spriteTextures created.1) = Some textures
       /\ JSMap.get (id player) (spriteMeshReferences created.1)
          = Some spriteMeshRef
       /\ meshes created.1 !! spriteMeshRef = Some mesh
       /\ disposed s'
          = disposed s
            ++ [TextureDisposal textures.1; TextureDisposal textures.2;
                GeometryDisposal (geometry mesh);
                MaterialDisposal (material mesh)].
Proof.
  intros Hinv Hc Hid Hfresh.
  assert (JSMap.get (id player) (spriteMeshReferences s) = None) as Hm.
  { apply JSMap_get_None. rewrite (inv_same_players_refs s Hinv).
    by apply JSMap_get_None. }
  assert (JSMap.get (id player) (spriteTextures s) = None) as Ht.
  { apply JSMap_get_None. rewrite (inv_same_players_textures s Hinv).
    by apply JSMap_get_None. }
  assert (meshes s !! next_id s = None) as Hnone.
  { destruct (meshes s !! next_id s) eqn:Hsome; [|done].
    assert (is_Some (meshes s !! next_id s)) as Hs by by eexists.
    apply (inv_store_allocated s Hinv) in Hs. lia. }
  unfold createSpritePlayerModel. rewrite Hc. cbv zeta. cbn [fst snd].
  split.
  { rewrite JSMap_get_set_eq. by eexists. }
  unfold disposePlayerMesh, forgetPlayer. cbv zeta.
  cbn [playerGroups spriteTextures spriteAnimations spriteMeshReferences
       meshes next_id disposed].
  rewrite lookup_insert_eq. cbn [userData playerId].
  rewrite bool_decide_eq_true_2 by done.
  rewrite !JSMap_get_set_eq.
  cbn [playerGroups spriteTextures spriteAnimations spriteMeshReferences
       meshes next_id disposed log_dispose].
  rewrite lookup_insert_ne by lia. rewrite Hnone.
  rewrite lookup_insert_eq. cbn [children fold_left disposeChild].
  unfold disposeChild.
  cbn [playerGroups spriteTextures spriteAnimations spriteMeshReferences
       meshes next_id disposed log_dispose].
  rewrite lookup_insert_eq.
  cbn [playerGroups spriteTextures spriteAnimations spriteMeshReferences
       meshes next_id disposed log_dispose].
  rewrite !delete_set_fresh by done.
  split_and!; [done..|].
  do 3 eexists. split; [reflexivity|]. split; [reflexivity|].
  split; [apply lookup_insert_eq|].
  by rewrite <- !(assoc_L (++)).
Qed.

(** X19. A player whose id is the empty string is never forgotten:
    [disposePlayerMesh] on its model disposes the geometry and the
    material of the sprite, but the three maps keep the entries of the
    player and its two textures are not disposed. *)
Theorem dispose_keeps_unnamed_player player c (isLocal : bool) (now : Z) s :
  Invariant s ->
  character player = Some c ->
  id player = "" ->
  let created := createSpritePlayerModel player isLocal now s in
  let s' := disposePlayerMesh (next_id s) created.1 in
  spriteAnimations s' = spriteAnimations created.1
  /\ spriteMeshReferences s' = spriteMeshReferences created.1
  /\ spriteTextures s' = spriteTextures created.1
  /\ is_Some (JSMap.get "" (spriteAnimations s'))
  /\ exists mesh,
       meshes created.1 !! (next_id s + 5)%nat = Some mesh
       /\ disposed s'
          = disposed s
            ++ [GeometryDisposal (geometry mesh);
                MaterialDisposal (material mesh)].
Proof.
  intros Hinv Hc Hid.
  assert (meshes s !! next_id s = None) as Hnone.
  { destruct (meshes s !! next_id s) eqn:Hsome; [|done].
    assert (is_Some (meshes s !! next_id s)) as Hs by by eexists.
    apply (inv_store_allocated s Hinv) in Hs. lia. }
  unfold createSpritePlayerModel. rewrite Hc, Hid. cbv zeta. cbn [fst snd].
  unfold disposePlayerMesh, forgetPlayer. cbv zeta.
  cbn [playerGroups spriteTextures spriteAnimations spriteMeshReferences
       meshes next_id disposed].
  rewrite lookup_insert_eq. cbn [userData playerId].
  rewrite bool_decide_eq_false_2 by (intros Hne; by apply Hne).
  cbn [playerGroups spriteTextures spriteAnimations spriteMeshReferences
       meshes next_id disposed log_dispose].
  rewrite lookup_insert_ne by lia. rewrite Hnone.
  rewrite lookup_insert_eq. cbn [children fold_left disposeChild].
  unfold disposeChild.
  cbn [playerGroups spriteTextures spriteAnimations spriteMeshReferences
       meshes next_id disposed log_dispose].
  rewrite lookup_insert_eq.
  cbn [playerGroups spriteTextures spriteAnimations spriteMeshReferences
       meshes next_id disposed log_dispose].
  split_and!; [done..| |].
  - rewrite JSMap_get_set_eq. by eexists.
  - eexists. split; [apply lookup_insert_eq|].
    by rewrite <- !(assoc_L (++)).
Qed.

End PlayerManagerFacts.

(** * Properties of getPathCoordinates *)

Module PathFacts.
Import Stdlib.Floats.Floats Stdlib.Numbers.Cyclic.Int63.Uint63.
Import Path.

(** ** Exact steps of the specification of binary64

    What the rounding functions of [SpecFloat] do on a mantissa that
    ends in zero bits: they cut the zero bits off and round nothing. *)

Lemma iter_pos_nat {A : Type} (f : A -> A) (p : positive) (a : A) :
  SpecFloat.iter_pos f p a = Nat.iter (Pos.to_nat p) f a.
Proof.
  revert a. induction p as [p IH|p IH|]; intros a; cbn [SpecFloat.iter_pos].
  - rewrite !IH, Pos2Nat.inj_xI.
    replace (S (2 * Pos.to_nat p))%nat
      with (Pos.to_nat p + (Pos.to_nat p + 1))%nat by lia.
    rewrite !Nat.iter_add. done.
  - rewrite !IH, Pos2Nat.inj_xO.
    replace (2 * Pos.to_nat p)%nat with (Pos.to_nat p + Pos.to_nat p)%nat by lia.
    by rewrite Nat.iter_add.
  - done.
Qed.

Lemma shr_1_exact (n : nat) (m : Z) :
  0 < m ->
  Nat.iter n shr_1 (Build_shr_record (m * 2 ^ Z.of_nat n) false false)
  = Build_shr_record m false false.
Proof.
  intros Hm. revert m Hm. induction n as [|n IH]; intros m Hm.
  - simpl. f_equal. lia.
  - rewrite Nat.iter_succ_r.
    replace (m * 2 ^ Z.of_nat (S n)) with (2 * (m * 2 ^ Z.of_nat n))
      by (rewrite Nat2Z.inj_succ, Z.pow_succ_r by lia; lia).
    assert (0 < m * 2 ^ Z.of_nat n) as Hpos by (apply Z.mul_pos_pos; lia).
    destruct (m * 2 ^ Z.of_nat n) as [|q|q] eqn:Hq; [lia| |lia].
    change (2 * Z.pos q) with (Z.pos q~0). cbn [shr_1 orb].
    rewrite <- Hq. by apply IH.
Qed.

Lemma shr_exact (m e n : Z) :
  0 < m -> 0 <= n ->
  shr (Build_shr_record (m * 2 ^ n) false false) e n
  = (Build_shr_record m false false, e + n).
Proof.
  intros Hm Hn. unfold shr. destruct n as [|p|p]; [|  |lia].
  - by rewrite Z.pow_0_r, Z.mul_1_r, Z.add_0_r.
  - rewrite iter_pos_nat. f_equal.
    rewrite <- (positive_nat_Z p) at 1. by apply shr_1_exact.
Qed.

Lemma Zdigits2_log2 (m : Z) : 0 < m -> Zdigits2 m = Z.log2 m + 1.
Proof.
  destruct m as [|p|p]; [lia| |lia]. intros _. simpl.
  induction p as [p IH|p IH|]; simpl in *.
  - rewrite Pos2Z.inj_succ, IH. destruct p; simpl; lia.
  - rewrite Pos2Z.inj_succ, IH. destruct p; simpl; lia.
  - done.
Qed.

Lemma iter_xO (m k : positive) : Z.pos (Pos.iter xO m k) = Z.pos m * 2 ^ Z.pos k.
Proof.
  rewrite Pos2Nat.inj_iter. rewrite <- (positive_nat_Z k).
  induction (Pos.to_nat k) as [|n IH].
  - simpl. lia.
  - rewrite Nat2Z.inj_succ, Z.pow_succ_r by lia. cbn [Nat.iter nat_rect].
    rewrite Pos2Z.inj_xO. unfold Nat.iter in IH. rewrite IH. lia.
Qed.

Lemma Zdigits2_53 (m n : Z) :
  2 ^ 52 <= m < 2 ^ 53 -> 0 <= n -> Zdigits2 (m * 2 ^ n) = 53 + n.
Proof.
  intros Hm Hn. rewrite Zdigits2_log2 by (apply Z.mul_pos_pos; lia).
  rewrite Z.log2_mul_pow2 by lia.
  assert (Z.log2 m = 52) as ->; [|lia].
  apply Z.log2_unique; lia.
Qed.

(** Rounding a 53-bit mantissa followed by [n] zero bits cuts the zero
    bits off and rounds nothing. *)
Lemma binary_round_aux_exact (m e n : Z) :
  2 ^ 52 <= m < 2 ^ 53 -> 0 <= n -> - 1074 <= e + n <= 971 ->
  binary_round_aux prec emax false (m * 2 ^ n) e loc_Exact
  = S754_finite false (Z.to_pos m) (e + n).
Proof.
  intros Hm Hn He. unfold binary_round_aux, shr_fexp.
  rewrite Zdigits2_53 by done.
  replace (fexp prec emax (53 + n + e) - e) with n
    by (unfold fexp, SpecFloat.emin, prec, emax; lia).
  cbn [shr_record_of_loc]. rewrite shr_exact by lia.
  cbn [shr_m loc_of_shr_record round_nearest_even].
  assert (Zdigits2 m = 53) as ->.
  { pose proof (Zdigits2_53 m 0 Hm ltac:(lia)) as Hd.
    by rewrite Z.pow_0_r, Z.mul_1_r, Z.add_0_r in Hd. }
  replace (fexp prec emax (53 + (e + n)) - (e + n)) with 0
    by (unfold fexp, SpecFloat.emin, prec, emax; lia).
  cbn [shr shr_m].
  destruct m as [|p|p]; [lia| |lia].
  replace (e + n <=? emax - prec) with true
    by (symmetry; apply Z.leb_le; unfold prec, emax; lia).
  done.
Qed.

(** The double of a positive integer below 2^53, given with [s] trailing zero bits. *)
Lemma binary_normalize_integer (N s : Z) :
  0 < N < 2 ^ 53 -> 0 <= s ->
  binary_normalize prec emax (N * 2 ^ s) (- s) false
  = S754_finite false (Z.to_pos (N * 2 ^ (52 - Z.log2 N))) (Z.log2 N - 52).
Proof.
  intros HN Hs.
  assert (0 <= Z.log2 N < 53) as Hlog.
  { split; [apply Z.log2_nonneg|]. apply Z.log2_lt_pow2; lia. }
  pose proof (Z.log2_spec N ltac:(lia)) as Hspec.
  set (t := Z.log2 N) in *.
  assert (2 ^ 52 <= N * 2 ^ (52 - t) < 2 ^ 53) as Hm0.
  { replace (2 ^ 52) with (2 ^ t * 2 ^ (52 - t))
      by (rewrite <- Z.pow_add_r by lia; f_equal; lia).
    replace (2 ^ 53) with (2 ^ Z.succ t * 2 ^ (52 - t))
      by (rewrite <- Z.pow_add_r by lia; f_equal; lia).
    assert (0 < 2 ^ (52 - t)) by (apply Z.pow_pos_nonneg; lia).
    nia. }
  set (m0 := N * 2 ^ (52 - t)) in *.
  assert (0 < N * 2 ^ s) as Hpos by (apply Z.mul_pos_pos; lia).
  assert (Z.log2 (N * 2 ^ s) = t + s) as Hlogs.
  { rewrite Z.log2_mul_pow2 by lia. lia. }
  destruct (N * 2 ^ s) as [|M|M] eqn:HM; [lia| |lia].
  unfold binary_normalize, binary_round.
  pose proof (Zdigits2_log2 (Z.pos M) ltac:(lia)) as Hdig.
  cbn [Zdigits2] in Hdig.
  rewrite Hdig, Hlogs.
  replace (fexp prec emax (t + s + 1 + - s)) with (t - 52)
    by (unfold fexp, SpecFloat.emin, prec, emax; lia).
  unfold shl_align.
  destruct (t - 52 - - s) as [|k|k] eqn:Hk.
  - replace (Z.pos M) with (m0 * 2 ^ 0).
    + rewrite binary_round_aux_exact by lia. f_equal. lia.
    + rewrite <- HM. unfold m0. replace s with (52 - t) by lia. lia.
  - replace (Z.pos M) with (m0 * 2 ^ Z.pos k).
    + rewrite binary_round_aux_exact by lia. f_equal. lia.
    + rewrite <- HM. unfold m0. rewrite <- Z.mul_assoc, <- Z.pow_add_r by lia.
      do 2 f_equal. lia.
  - rewrite iter_xO, <- HM.
    replace (N * 2 ^ s * 2 ^ Z.pos k) with (m0 * 2 ^ 0).
    + rewrite binary_round_aux_exact by lia. f_equal. lia.
    + unfold m0. rewrite Z.pow_0_r, Z.mul_1_r.
      rewrite <- Z.mul_assoc, <- Z.pow_add_r by lia. do 2 f_equal. lia.
Qed.

Lemma Prim2SF_ofInteger (k : Z) :
  0 < k < 2 ^ 53 ->
  Prim2SF (ofInteger false k)
  = S754_finite false (Z.to_pos (k * 2 ^ (52 - Z.log2 k))) (Z.log2 k - 52).
Proof.
  intros Hk. unfold ofInteger. rewrite of_uint63_spec.
  rewrite Uint63.of_Z_spec.
  assert (wB = 2 ^ 63) as -> by reflexivity.
  rewrite Z.mod_small by lia.
  pose proof (binary_normalize_integer k 0 Hk ltac:(lia)) as Hn.
  by rewrite Z.pow_0_r, Z.mul_1_r in Hn.
Qed.

(** Counting in doubles is exact up to 2^53 and stops there. *)
Lemma counter_step (k : Z) :
  0 <= k < 2 ^ 53 -> (ofInteger false k + 1)%float = ofInteger false (k + 1).
Proof.
  intros Hk.
  destruct (decide (k = 0)) as [->|Hk0]; [by vm_compute|].
  destruct (decide (k = 2 ^ 53 - 1)) as [->|Hk1]; [by vm_compute|].
  apply Prim2SF_inj. rewrite FloatAxioms.add_spec.
  rewrite !Prim2SF_ofInteger by lia.
  replace (Prim2SF 1) with (S754_finite false (Z.to_pos (2 ^ 52)) (-52))
    by (by vm_compute).
  assert (0 <= Z.log2 k < 53) as Hlog.
  { split; [apply Z.log2_nonneg|]. apply Z.log2_lt_pow2; lia. }
  pose proof (Z.log2_spec k ltac:(lia)) as Hspec.
  assert (0 < k * 2 ^ (52 - Z.log2 k)) as Hpos
    by (apply Z.mul_pos_pos; [lia|apply Z.pow_pos_nonneg; lia]).
  unfold SF64add, SFadd.
  replace (Z.min (Z.log2 k - 52) (-52)) with (-52) by lia.
  assert (Z.pos (shl_align (Z.to_pos (k * 2 ^ (52 - Z.log2 k)))
                   (Z.log2 k - 52) (-52)).1 = k * 2 ^ 52) as ->.
  { unfold shl_align.
    destruct (-52 - (Z.log2 k - 52)) as [|p|p] eqn:Hp; [|lia|]; cbn [fst].
    - rewrite Z2Pos.id by done. do 2 f_equal. lia.
    - rewrite iter_xO, Z2Pos.id by done.
      rewrite <- Z.mul_assoc, <- Z.pow_add_r by lia. do 2 f_equal. lia. }
  assert (Z.pos (shl_align (Z.to_pos (2 ^ 52)) (-52) (-52)).1 = 2 ^ 52) as ->
    by reflexivity.
  cbn [cond_Zopp].
  replace (k * 2 ^ 52 + 2 ^ 52) with ((k + 1) * 2 ^ 52) by lia.
  apply (binary_normalize_integer (k + 1) 52); lia.
Qed.

Lemma counter_stuck :
  (ofInteger false (2 ^ 53) + 1)%float = ofInteger false (2 ^ 53).
Proof. by vm_compute. Qed.

Lemma counter_below_infinity (k : Z) :
  0 <= k <= 2 ^ 53 -> (ofInteger false k <? infinity)%float = true.
Proof.
  intros Hk. rewrite FloatAxioms.ltb_spec.
  destruct (decide (k = 0)) as [->|Hk0]; [by vm_compute|].
  destruct (decide (k = 2 ^ 53)) as [->|Hk1]; [by vm_compute|].
  rewrite Prim2SF_ofInteger by lia. by vm_compute.
Qed.

Lemma for_lt_infinity {A : Type} (body : float -> A -> option A)
    (fuel : nat) (k : Z) (acc : A) :
  0 <= k <= 2 ^ 53 ->
  for_lt fuel (ofInteger false k) infinity body acc = None.
Proof.
  revert k acc. induction fuel as [|fuel IH]; intros k acc Hk; [done|].
  cbn [for_lt]. rewrite counter_below_infinity by done.
  destruct (body (ofInteger false k) acc) as [acc'|]; [|done].
  destruct (decide (k = 2 ^ 53)) as [->|Hne].
  - rewrite counter_stuck. by apply IH.
  - rewrite counter_step by lia. apply IH. lia.
Qed.

(** The integer model of a loop counter ([increment]) is the addition
    of doubles: exact below 2^53, without effect at 2^53. *)
Lemma increment_on_doubles (k : Z) :
  0 <= k <= 2 ^ 53 ->
  (ofInteger false k + 1)%float = ofInteger false (increment k).
Proof.
  intros Hk. destruct (decide (k = 2 ^ 53)) as [->|Hne].
  - by rewrite increment_stuck, counter_stuck.
  - rewrite increment_exact, counter_step by lia. done.
Qed.

(** [roundToDouble] against the conversion of the kernel, which rounds
    an integer below 2^63 to the nearest double. *)
Example roundToDouble_on_doubles :
  Forall (fun z => of_uint63 (Uint63.of_Z z)
                   = of_uint63 (Uint63.of_Z (roundToDouble z)))
    [2 ^ 53 - 1; 2 ^ 53; 2 ^ 53 + 1; 2 ^ 53 + 2; 2 ^ 53 + 3; 2 ^ 54 + 2;
     2 ^ 54 + 6; 2 ^ 60 + 129; 2 ^ 62 + 513]
  /\ Forall (fun z => roundToDouble z <> z)
       [2 ^ 53 + 1; 2 ^ 53 + 3; 2 ^ 54 + 2; 2 ^ 60 + 129].
Proof.
  split; repeat (constructor; [by vm_compute|]); constructor.
Qed.

(** ** The degenerate path *)

Lemma Prim2SF_finite (v : float) :
  PrimFloat.is_finite v = true ->
  (exists s, Prim2SF v = S754_zero s)
  \/ (exists s m e, Prim2SF v = S754_finite s m e).
Proof.
  unfold is_finite, Prim2SF. intros Hfin.
  destruct (PrimFloat.is_nan v); [done|].
  destruct (PrimFloat.is_infinity v); [done|].
  destruct (PrimFloat.is_zero v); [left; by eexists|].
  destruct (Z.frexp v) as [r exp].
  destruct (shr_fexp _ _ _ _ _) as [shr e'].
  destruct (shr_m shr); [left|right|left]; by repeat eexists.
Qed.

Lemma sub_diag (v : float) : PrimFloat.is_finite v = true -> (v - v)%float = 0%float.
Proof.
  intros Hfin. apply Prim2SF_inj. rewrite FloatAxioms.sub_spec.
  change (Prim2SF 0) with (S754_zero false).
  destruct (Prim2SF_finite v Hfin) as [[s ->]|(s & m & e & ->)].
  - by destruct s.
  - unfold SF64sub, SFsub. rewrite Z.min_id.
    by rewrite Z.sub_diag.
Qed.

(** X21. When start and end are the same finite point the direction
    has length 0 and [getPathCoordinates] returns the single point
    [(Math.round(startX), Math.round(startY))], whatever the width and
    without entering a loop. *)
Theorem getPathCoordinates_single (fuel : nat) (startX startY : float)
    (width : option float) :
  PrimFloat.is_finite startX = true -> PrimFloat.is_finite startY = true ->
  getPathCoordinates fuel startX startY startX startY width
  = Some [mkPosition (Math_round startX) (Math_round startY)].
Proof.
  intros HX HY. unfold getPathCoordinates. cbv zeta.
  rewrite !sub_diag by done.
  by replace (Math_sqrt (0 * 0 + 0 * 0) =? 0)%float with true
    by (by vm_compute).
Qed.

(** Witness of X21: the point (2.5, -0.5) is rounded to (3, -0). *)
Lemma getPathCoordinates_single_witness :
  PrimFloat.is_finite 2.5 = true /\ PrimFloat.is_finite (-0.5) = true
  /\ getPathCoordinates 0 2.5 (-0.5) 2.5 (-0.5) (Some 3%float)
     = Some [mkPosition 3 (-0)].
Proof.
  assert (PrimFloat.is_finite 2.5 = true) as HX by reflexivity.
  assert (PrimFloat.is_finite (-0.5) = true) as HY by reflexivity.
  split; [exact HX|]. split; [exact HY|].
  exact (getPathCoordinates_single 0 2.5 (-0.5) (Some 3%float) HX HY).
Defined.

(** ** The de-duplication on doubles *)

(** [===] on doubles: equal doubles that are not [NaN], or two zeros. *)
Lemma SFeqb_true (a b : spec_float) :
  SFeqb a b = true
  <-> (exists s s', a = S754_zero s /\ b = S754_zero s')
      \/ (a = b /\ a <> S754_nan).
Proof.
  unfold SFeqb. split.
  - destruct a as [s1|s1| |s1 m1 e1], b as [s2|s2| |s2 m2 e2]; simpl;
      try done; try (destruct s1; done); try (destruct s2; done).
    + intros _. left. by exists s1, s2.
    + destruct s1, s2; try done; intros _; by right.
    + destruct s1, s2; try done;
        destruct (e1 ?= e2) eqn:He; try done;
        apply Z.compare_eq in He; subst e2;
        destruct (Pos.compare_cont Eq m1 m2) eqn:Hm; try done;
        apply Pos.compare_eq in Hm; subst m2; intros _; by right.
  - intros [(s & s' & -> & ->)|[<- Hnan]]; [done|].
    destruct a as [s1|s1| |s1 m1 e1]; simpl; try done.
    + by destruct s1.
    + destruct s1; rewrite Z.compare_refl;
        change (Pos.compare_cont Eq m1 m1) with (m1 ?= m1)%positive;
        by rewrite Pos.compare_refl.
Qed.

Lemma eqb_sym (a b : float) : (a =? b)%float = (b =? a)%float.
Proof.
  rewrite !FloatAxioms.eqb_spec.
  destruct (SFeqb (Prim2SF a) (Prim2SF b)) eqn:Hab,
           (SFeqb (Prim2SF b) (Prim2SF a)) eqn:Hba; try done.
  - apply SFeqb_true in Hab. rewrite <- Hba. symmetry. apply SFeqb_true.
    destruct Hab as [(s & s' & Ha & Hb)|[Heq Hnan]].
    + left. by exists s', s.
    + right. split; [done|]. by rewrite <- Heq.
  - apply SFeqb_true in Hba. rewrite <- Hab. apply SFeqb_true.
    destruct Hba as [(s & s' & Ha & Hb)|[Heq Hnan]].
    + left. by exists s', s.
    + right. split; [done|]. by rewrite <- Heq.
Qed.

Lemma eqb_trans (a b c : float) :
  (a =? b)%float = true -> (b =? c)%float = true -> (a =? c)%float = true.
Proof.
  rewrite !FloatAxioms.eqb_spec, !SFeqb_true.
  intros [(s & s' & Ha & Hb)|[Hab Hnan]] [(t & t' & Hb' & Hc)|[Hbc Hnan']].
  - left. by exists s, t'.
  - left. exists s, s'. split; [done|]. by rewrite <- Hbc.
  - left. exists t, t'. split; [|done]. by rewrite Hab.
  - right. split; [congruence|done].
Qed.

Lemma sameCoord_sym (a b : Position) : sameCoord a b = sameCoord b a.
Proof. unfold sameCoord. by rewrite (eqb_sym (x b)), (eqb_sym (y b)). Qed.

Lemma sameCoord_trans (a b c : Position) :
  sameCoord a b = true -> sameCoord b c = true -> sameCoord a c = true.
Proof.
  unfold sameCoord. rewrite !andb_true_iff.
  intros [Hx Hy] [Hx' Hy']. split; by eapply eqb_trans.
Qed.

Lemma sameCoord_left (a b : Position) :
  sameCoord a b = true -> sameCoord a a = true /\ sameCoord b b = true.
Proof.
  intros Hab. split.
  - apply (sameCoord_trans a b a); [done|]. by rewrite sameCoord_sym.
  - apply (sameCoord_trans b a b); [|done]. by rewrite sameCoord_sym.
Qed.

Lemma findIndex_from_range {A : Type} (p : A -> bool) (i : Z)
    (arr : list A) :
  findIndex_from p i arr = -1 \/ i <= findIndex_from p i arr.
Proof.
  revert i. induction arr as [|c arr IH]; intros i; simpl; [by left|].
  destruct (p c); [right; lia|].
  destruct (IH (i + 1)) as [->|Hle]; [by left | right; lia].
Qed.

Lemma forallb_negb_false {A : Type} (p : A -> bool) (l : list A) :
  forallb (fun a => negb (p a)) l = false ->
  exists a, a ∈ l /\ p a = true.
Proof.
  induction l as [|a l IH]; simpl; [done|].
  destruct (p a) eqn:Ha; simpl.
  - intros _. exists a. split; [apply list_elem_of_here|done].
  - intros (a' & Hin & Hp)%IH. exists a'.
    split; [by apply list_elem_of_further|done].
Qed.

Lemma forallb_negb_true {A : Type} (p : A -> bool) (l : list A) :
  forallb (fun a => negb (p a)) l = true ->
  forall a, a ∈ l -> p a = false.
Proof.
  rewrite forallb_forall. intros Hall a Ha.
  apply negb_true_iff, Hall. by apply list_elem_of_In.
Qed.

Lemma uniqueCoords_from_seen (pre l : list Position) :
  filter_from
    (fun coord index =>
       bool_decide (findIndex (sameCoord coord) (pre ++ l) = index))
    (Z.of_nat (length pre)) l
  = firstOccurrences pre l.
Proof.
  revert pre. induction l as [|c l IH]; intros pre; simpl; [done|].
  specialize (IH (pre ++ [c])).
  rewrite <- app_assoc, length_app in IH. simpl in IH.
  replace (Z.of_nat (length pre + 1)) with (Z.of_nat (length pre) + 1)
    in IH by lia.
  rewrite IH. unfold findIndex.
  destruct (forallb (fun c' => negb (sameCoord c c')) pre) eqn:Hpre.
  - rewrite findIndex_from_skip by by apply forallb_negb_true.
    simpl. destruct (sameCoord c c) eqn:Hcc; simpl.
    + by rewrite bool_decide_eq_true_2 by lia.
    + rewrite bool_decide_eq_false_2; [done|].
      destruct (findIndex_from_range (sameCoord c)
                  (0 + Z.of_nat (length pre) + 1) l) as [->|Hle]; lia.
  - rewrite andb_false_r.
    apply forallb_negb_false in Hpre as Hex.
    rewrite bool_decide_eq_false_2; [done|].
    rewrite findIndex_from_app_l by done.
    pose proof (findIndex_from_found (sameCoord c) 0 pre Hex). lia.
Qed.

Lemma firstOccurrences_spec (seen l : list Position) :
  firstOccurrences seen l `sublist_of` l
  /\ Forall (fun c => sameCoord c c = true
                      /\ forall c', c' ∈ seen -> sameCoord c c' = false)
       (firstOccurrences seen l)
  /\ ForallOrdPairs (fun a b => sameCoord a b = false)
       (firstOccurrences seen l)
  /\ (forall c, c ∈ l -> sameCoord c c = true ->
        exists c', c' ∈ seen ++ firstOccurrences seen l
                   /\ sameCoord c c' = true).
Proof.
  revert seen. induction l as [|c l IH]; intros seen; simpl.
  - split; [done|]. split; [constructor|]. split; [constructor|].
    intros c Hc. by apply elem_of_nil in Hc.
  - destruct (IH (seen ++ [c])) as (Hsub & Hall & Hpairs & Hcomplete).
    assert (Forall (fun b => sameCoord b b = true
                             /\ forall c', c' ∈ seen -> sameCoord b c' = false)
              (firstOccurrences (seen ++ [c]) l)) as Hall'.
    { eapply Forall_impl; [exact Hall|]. intros b [Hb Hseen]. split; [done|].
      intros c' Hc'. apply Hseen. apply elem_of_app. by left. }
    destruct (sameCoord c c) eqn:Hcc; simpl;
      [destruct (forallb (fun c' => negb (sameCoord c c')) seen) eqn:Hnew|].
    + split; [by apply sublist_skip|]. split; [|split].
      * constructor; [|done]. split; [done|]. by apply forallb_negb_true.
      * constructor; [|done].
        eapply Forall_impl; [exact Hall|]. intros b [_ Hseen]. simpl.
        rewrite sameCoord_sym. apply Hseen. apply elem_of_app. right.
        apply list_elem_of_here.
      * intros c0 Hc0 Hself. apply elem_of_cons in Hc0 as [->|Hc0].
        -- exists c. split; [|done]. apply elem_of_app. right.
           apply list_elem_of_here.
        -- destruct (Hcomplete c0 Hc0 Hself) as (c' & Hc' & Hs).
           exists c'. split; [|done].
           by rewrite <- app_assoc in Hc'.
    + apply forallb_negb_false in Hnew as (c'' & Hc'' & Hs'').
      split; [by apply sublist_cons|]. split; [done|]. split; [done|].
      intros c0 Hc0 Hself. apply elem_of_cons in Hc0 as [->|Hc0].
      * exists c''. split; [|done]. apply elem_of_app. by left.
      * destruct (Hcomplete c0 Hc0 Hself) as (c' & Hc' & Hs).
        rewrite <- app_assoc in Hc'.
        apply elem_of_app in Hc' as [Hc'|Hc'].
        -- exists c'. split; [|done]. apply elem_of_app. by left.
        -- apply elem_of_cons in Hc' as [->|Hc'].
           ++ exists c''. split; [apply elem_of_app; by left|].
              by apply (sameCoord_trans c0 c c'').
           ++ exists c'. split; [|done]. apply elem_of_app. by right.
    + split; [by apply sublist_cons|]. split; [done|]. split; [done|].
      intros c0 Hc0 Hself. apply elem_of_cons in Hc0 as [->|Hc0];
        [congruence|].
      destruct (Hcomplete c0 Hc0 Hself) as (c' & Hc' & Hs).
      rewrite <- app_assoc in Hc'.
      apply elem_of_app in Hc' as [Hc'|Hc'].
      * exists c'. split; [|done]. apply elem_of_app. by left.
      * apply elem_of_cons in Hc' as [->|Hc'].
        -- destruct (sameCoord_left _ _ Hs) as [_ Hcc']. congruence.
        -- exists c'. split; [|done]. apply elem_of_app. by right.
Qed.

(** X22. The filter that ends [getPathCoordinates], on doubles: it
    keeps a subsequence of the generated coordinates in which no two
    elements are equal as pairs (under [===], either way round) and no
    field is [NaN]; every generated coordinate without a [NaN] field is
    equal to one that is kept; and what is kept is each such coordinate
    where it first occurs. *)
Theorem uniqueCoords_first_comparable (coordinates : list Position) :
  uniqueCoords coordinates = firstOccurrences [] coordinates
  /\ uniqueCoords coordinates `sublist_of` coordinates
  /\ ForallOrdPairs (fun a b => sameCoord a b = false /\ sameCoord b a = false)
       (uniqueCoords coordinates)
  /\ Forall (fun c => sameCoord c c = true) (uniqueCoords coordinates)
  /\ (forall c, c ∈ coordinates -> sameCoord c c = true ->
        exists c', c' ∈ uniqueCoords coordinates /\ sameCoord c c' = true).
Proof.
  assert (uniqueCoords coordinates = firstOccurrences [] coordinates) as ->
    by apply (uniqueCoords_from_seen [] coordinates).
  destruct (firstOccurrences_spec [] coordinates)
    as (Hsub & Hall & Hpairs & Hcomplete).
  split; [done|]. split; [done|]. split; [|split].
  - clear -Hpairs. induction Hpairs as [|a l Ha Hl IH]; constructor; [|done].
    eapply Forall_impl; [exact Ha|]. intros b Hab. simpl in *.
    split; [done|]. by rewrite sameCoord_sym.
  - eapply Forall_impl; [exact Hall|]. by intros c [Hc _].
  - exact Hcomplete.
Qed.

(** A coordinate with a [NaN] field is dropped, and the two zeros are
    one coordinate. *)
Example uniqueCoords_NaN :
  uniqueCoords [mkPosition nan 0; mkPosition 0 0; mkPosition (-0) 0;
                mkPosition 1 0; mkPosition 0 0]
  = [mkPosition 0 0; mkPosition 1 0].
Proof. vm_compute. reflexivity. Qed.

(** ** The specification's examples, and the run that does not end *)

Example single_point_sample :
  getPathCoordinates 1 0 0 0 0 None = Some [mkPosition 0 0].
Proof. vm_compute. reflexivity. Qed.

Example straight_path_sample :
  getPathCoordinates 5 0 0 3 0 (Some 1%float)
  = Some [mkPosition 0 0; mkPosition 1 0; mkPosition 2 0; mkPosition 3 0].
Proof. vm_compute. reflexivity. Qed.

(** A diagonal of width 3: rounding makes the same cell more than once,
    and the filter keeps the first of each. *)
Example wide_diagonal_sample :
  length <$> getPathCoordinates 5 0 0 2 2 (Some 3%float) = Some 11%nat.
Proof. vm_compute. reflexivity. Qed.


End PathFacts.

(** * The concrete instance, evaluated *)

Example getCubeKey_sample : getCubeKey (-3) 14 = "-3,14".
Proof. vm_compute. reflexivity. Qed.

Example demoRegistered_registry :
  demoRegistered.(cubeRegistry)
  = [("1,2", mkCubeInfo (mkCubePosition 1 2) 0x00ff00 room);
     ("1,3", mkCubeInfo (mkCubePosition 1 3) 0x0000ff hallway)].
Proof. vm_compute. reflexivity. Qed.

(** Room, then hallway on the same tile; and the other way round. *)
Example room_then_hallway :
  (registerCubes [mkCubePosition 4 5] 0x0000ff hallway
     (registerCubes [mkCubePosition 4 5] 0x00ff00 room demoInitial)).(cubeRegistry)
  = [("4,5", mkCubeInfo (mkCubePosition 4 5) 0x800080 overlap)]
  /\ (registerCubes [mkCubePosition 4 5] 0x00ff00 room
        (registerCubes [mkCubePosition 4 5] 0x0000ff hallway demoInitial)).(cubeRegistry)
     = [("4,5", mkCubeInfo (mkCubePosition 4 5) 0x800080 overlap)].
Proof. split; vm_compute; reflexivity. Qed.

Example clearRegistry_then_getAllCoordinates :
  getAllCoordinates (clearRegistry demoRegistered) = [].
Proof. reflexivity. Qed.

Lemma demoRegistered_wf : State_wf demoRegistered.
Proof.
  unfold demoRegistered.
  do 2 apply registerCubes_State_wf.
  apply setExcludedCoordinates_State_wf. apply State_wf_initial.
Qed.

Lemma demoExcludedLater_wf : State_wf demoExcludedLater.
Proof.
  unfold demoExcludedLater.
  apply setExcludedCoordinates_State_wf, registerCubes_State_wf.
  apply demoRegistered_wf.
Qed.

Lemma demoRendered_wf : State_wf demoRendered.
Proof. apply renderAllCubes_wf, demoRegistered_wf. Qed.

Ltac by_evaluation := apply (bool_decide_unpack _); vm_compute; exact I.

(** Witness of C1: (9,9) is registered twice as a room in one batch. *)
Lemma registerCubes_overlap_witness :
  (keyOf (mkCubePosition 9 9) ∉ demoRegistered.(excludedCoordinates))
  /\ (is_Some (JSMap.get (keyOf (mkCubePosition 9 9))
                 demoRegistered.(cubeRegistry))
      \/ keyOf (mkCubePosition 9 9) ∈ keyOf <$> [mkCubePosition 9 9])
  /\ JSMap.get (keyOf (mkCubePosition 9 9))
       (registerCubes ([mkCubePosition 9 9] ++ [mkCubePosition 9 9])
          0x00ff00 room demoRegistered).(cubeRegistry)
     = Some (mkCubeInfo (mkCubePosition 9 9) OVERLAP_COLOR overlap).
Proof.
  assert (keyOf (mkCubePosition 9 9) ∉ demoRegistered.(excludedCoordinates))
    as Hex by by_evaluation.
  assert (is_Some (JSMap.get (keyOf (mkCubePosition 9 9))
                     demoRegistered.(cubeRegistry))
          \/ keyOf (mkCubePosition 9 9) ∈ keyOf <$> [mkCubePosition 9 9])
    as Hocc by (right; by_evaluation).
  split; [exact Hex|]. split; [exact Hocc|].
  exact (proj1 (registerCubes_overlap [mkCubePosition 9 9] []
                  (mkCubePosition 9 9) 0x00ff00 room demoRegistered
                  Hex Hocc)).
Defined.

(** Witness of C2: (7,7) is excluded and stays out of the registry. *)
Lemma registerCubes_excluded_noop_witness :
  (keyOf (mkCubePosition 7 7) ∈ demoRegistered.(excludedCoordinates))
  /\ JSMap.get (keyOf (mkCubePosition 7 7))
       (registerCubes [mkCubePosition 7 7; mkCubePosition 2 2] 0x0000ff
          hallway demoRegistered).(cubeRegistry)
     = JSMap.get (keyOf (mkCubePosition 7 7)) demoRegistered.(cubeRegistry).
Proof.
  assert (keyOf (mkCubePosition 7 7) ∈ demoRegistered.(excludedCoordinates))
    as Hin by by_evaluation.
  split; [exact Hin|].
  exact (proj1 (proj2 (registerCubes_excluded_noop 0x0000ff hallway
                         demoRegistered (keyOf (mkCubePosition 7 7)) Hin)
                 [mkCubePosition 7 7; mkCubePosition 2 2])).
Defined.



(** Witness of C10: an overlap on (1,2) and a new tile (0,0). *)
Lemma getAllCoordinates_insertion_order_witness :
  registry_wf demoRegistered
  /\ keyOf <$> getAllCoordinates
       (registerCubes [mkCubePosition 0 0; mkCubePosition 1 2] 0x0000ff
          hallway demoRegistered)
     = insertion_order (keyOf <$> getAllCoordinates demoRegistered)
         (filter (fun k => k ∉ demoRegistered.(excludedCoordinates))
                 (keyOf <$> [mkCubePosition 0 0; mkCubePosition 1 2])).
Proof.
  assert (registry_wf demoRegistered) as Hwf by by_evaluation.
  split; [exact Hwf|].
  exact (proj1 (proj2 (getAllCoordinates_insertion_order
                         [mkCubePosition 0 0; mkCubePosition 1 2] 0x0000ff
                         hallway demoRegistered Hwf))).
Defined.

(** Witness of C3: of an excluded room and an overlap, only the overlap is
    drawn, with the hallway material. *)
Lemma renderAllCubes_drawables_witness :
  State_wf demoExcludedLater
  /\ mesh_material
       <$> groupChildren
             (renderAllCubes demoMaterial 1%Qc 0%nat demoOptions
                demoExcludedLater).2
             (renderAllCubes demoMaterial 1%Qc 0%nat demoOptions
                demoExcludedLater).1.(world)
     = [hallway_floor].
Proof.
  split; [exact demoExcludedLater_wf|].
  pose proof (proj2 (renderAllCubes_drawables demoMaterial 1%Qc 0%nat
                       demoOptions demoExcludedLater demoExcludedLater_wf))
    as Hdraw.
  cbv zeta in Hdraw. rewrite Hdraw. vm_compute. reflexivity.
Defined.

(** Witness of C6: two passes over two tiles. *)
Lemma renderAllCubes_twice_witness :
  State_wf demoRegistered
  /\ length (groupChildren
               (renderAllCubes demoMaterial 1%Qc 0%nat demoOptions
                  demoRendered).2
               (renderAllCubes demoMaterial 1%Qc 0%nat demoOptions
                  demoRendered).1.(world))
     = length (groupChildren
                 (renderAllCubes demoMaterial 1%Qc 0%nat demoOptions
                    demoRegistered).2
                 demoRendered.(world)).
Proof.
  split; [exact demoRegistered_wf|].
  exact (proj1 (proj2 (proj2 (proj2
           (renderAllCubes_twice demoMaterial 1%Qc 0%nat demoOptions
              demoOptions demoRegistered demoRegistered_wf))))).
Defined.

(** Witness of C8: disposal after one pass. *)
Lemma dispose_resets_witness :
  State_wf demoRendered
  /\ dispose demoRendered = initial (world (dispose demoRendered))
  /\ dispose (dispose demoRendered) = dispose demoRendered.
Proof.
  split; [exact demoRendered_wf|].
  pose proof (dispose_resets demoMaterial 1%Qc 0%nat demoOptions
                demoRendered demoRendered_wf) as (Hinit & _ & Hagain & _).
  split; [exact Hinit | exact Hagain].
Defined.

Example demoRendered_cubes :
  mesh_name <$> groupChildren 0%nat demoRendered.(world)
  = ["FloorCube_room_1_2"; "FloorCube_hallway_1_3"].
Proof. vm_compute. reflexivity. Qed.

Example demoRendered_attached :
  childrenOf 0%nat demoRendered.(world) = [0%nat]
  /\ demoRendered.(sceneGroups) = [(0%nat, 0%nat)].
Proof. split; vm_compute; reflexivity. Qed.

Example demoRendered_disposed :
  childrenOf 0%nat (world (dispose demoRendered)) = []
  /\ length (disposed (world (dispose demoRendered))) = 4%nat.
Proof. split; vm_compute; reflexivity. Qed.

Example uniqueCoords_sample :
  uniqueCoords [mkCubePosition 0 0; mkCubePosition 1 0; mkCubePosition 0 0;
                mkCubePosition 2 0; mkCubePosition 1 0]
  = [mkCubePosition 0 0; mkCubePosition 1 0; mkCubePosition 2 0].
Proof. vm_compute. reflexivity. Qed.

(** Excluded and overlap records are listed like any other. *)
Example demoExcludedLater_coordinates :
  getAllCoordinates demoExcludedLater
  = [mkCubePosition 1 2; mkCubePosition 1 3]
  /\ keyOf (mkCubePosition 1 2) ∈ demoExcludedLater.(excludedCoordinates).
Proof. split; [vm_compute; reflexivity | by_evaluation]. Qed.

Example getAreaCoordinates_reversed :
  getAreaCoordinates 1 3 0 1 5 = Some [].
Proof. reflexivity. Qed.

(** ** The registry, evaluated *)

Lemma demoRegistered_inv : Registry_inv demoRegistered.
Proof.
  pose proof (State_wf_initial (Material := CubeType)) as Hwf.
  pose proof (Registry_inv_initial (demoWorld)) as Hinv.
  destruct (call_keeps_invariants demoMaterial 1%Qc _
              (call_setExcludedCoordinates [mkCubePosition 7 7]) Hwf Hinv)
    as [Hwf1 Hinv1].
  destruct (call_keeps_invariants demoMaterial 1%Qc _
              (call_registerCubes [mkCubePosition 1 2; mkCubePosition 7 7]
                 0x00ff00 registered_room) Hwf1 Hinv1) as [Hwf2 Hinv2].
  destruct (call_keeps_invariants demoMaterial 1%Qc _
              (call_registerCubes [mkCubePosition 1 3] 0x0000ff
                 registered_hallway) Hwf2 Hinv2) as [Hwf3 Hinv3].
  exact Hinv3.
Qed.

(** Witness of X1: (12,3) and (1,23) have different keys. *)
Lemma getCubeKey_distinguishes_witness :
  isSafeInteger 12 /\ isSafeInteger 3 /\ isSafeInteger 1 /\ isSafeInteger 23
  /\ (getCubeKey 12 3 = getCubeKey 1 23 <-> 12 = 1 /\ 3 = 23).
Proof.
  assert (isSafeInteger 12) as H1 by (unfold isSafeInteger; lia).
  assert (isSafeInteger 3) as H2 by (unfold isSafeInteger; lia).
  assert (isSafeInteger 1) as H3 by (unfold isSafeInteger; lia).
  assert (isSafeInteger 23) as H4 by (unfold isSafeInteger; lia).
  split; [exact H1|]. split; [exact H2|]. split; [exact H3|].
  split; [exact H4|].
  exact (getCubeKey_distinguishes 12 3 1 23 H1 H2 H3 H4).
Defined.

(** Witness of X2: (5,5) is new and not excluded. *)
Lemma registerCubes_first_registration_witness :
  NoDup [mkCubePosition 5 5; mkCubePosition 6 6]
  /\ mkCubePosition 5 5 ∈ [mkCubePosition 5 5; mkCubePosition 6 6]
  /\ (keyOf (mkCubePosition 5 5) ∉ demoRegistered.(excludedCoordinates))
  /\ JSMap.get (keyOf (mkCubePosition 5 5)) demoRegistered.(cubeRegistry)
     = None
  /\ JSMap.get (keyOf (mkCubePosition 5 5))
       (registerCubes [mkCubePosition 5 5; mkCubePosition 6 6] 0x00ff00 room
          demoRegistered).(cubeRegistry)
     = Some (mkCubeInfo (mkCubePosition 5 5) 0x00ff00 room).
Proof.
  assert (NoDup [mkCubePosition 5 5; mkCubePosition 6 6]) as Hnd
    by by_evaluation.
  assert (mkCubePosition 5 5 ∈ [mkCubePosition 5 5; mkCubePosition 6 6])
    as Hin by by_evaluation.
  assert (keyOf (mkCubePosition 5 5) ∉ demoRegistered.(excludedCoordinates))
    as Hex by by_evaluation.
  assert (JSMap.get (keyOf (mkCubePosition 5 5)) demoRegistered.(cubeRegistry)
          = None) as Hnone by (vm_compute; reflexivity).
  split; [exact Hnd|]. split; [exact Hin|]. split; [exact Hex|].
  split; [exact Hnone|].
  exact (registerCubes_first_registration
           [mkCubePosition 5 5; mkCubePosition 6 6] 0x00ff00 room
           demoRegistered (mkCubePosition 5 5) Hnd Hin Hex Hnone).
Defined.

(** Witness of X3: the hallway tile (1,3), registered once more as a
    hallway and then as a room. *)
Lemma registerCubes_twice_overlap_witness :
  mkCubePosition 1 3 ∈ [mkCubePosition 1 3]
  /\ (keyOf (mkCubePosition 1 3) ∉ demoInitial.(excludedCoordinates))
  /\ JSMap.get (keyOf (mkCubePosition 1 3))
       (registerCubes [mkCubePosition 1 3] 0x00ff00 room
          (registerCubes [mkCubePosition 1 3] 0x0000ff hallway
             demoInitial)).(cubeRegistry)
     = Some (mkCubeInfo (mkCubePosition 1 3) 0x800080 overlap).
Proof.
  assert (mkCubePosition 1 3 ∈ [mkCubePosition 1 3]) as Hin by by_evaluation.
  assert (keyOf (mkCubePosition 1 3) ∉ demoInitial.(excludedCoordinates))
    as Hex by by_evaluation.
  split; [exact Hin|]. split; [exact Hex|].
  exact (registerCubes_twice_overlap [mkCubePosition 1 3] 0x0000ff 0x00ff00
           hallway room demoInitial (mkCubePosition 1 3) Hin Hex).
Defined.

(** Witness of X4: the overlap on (1,3) stays when (1,3) is registered
    as a room. *)
Lemma registerCubes_overlap_is_final_witness :
  registry_wf demoExcludedLater
  /\ JSMap.get "1,3" demoExcludedLater.(cubeRegistry)
     = Some (mkCubeInfo (mkCubePosition 1 3) 0x800080 overlap)
  /\ JSMap.get "1,3"
       (registerCubes [mkCubePosition 1 3; mkCubePosition 2 2] 0x00ff00 room
          demoExcludedLater).(cubeRegistry)
     = Some (mkCubeInfo (mkCubePosition 1 3) 0x800080 overlap).
Proof.
  assert (registry_wf demoExcludedLater) as Hwf by by_evaluation.
  assert (JSMap.get "1,3" demoExcludedLater.(cubeRegistry)
          = Some (mkCubeInfo (mkCubePosition 1 3) 0x800080 overlap))
    as Hget by (vm_compute; reflexivity).
  split; [exact Hwf|]. split; [exact Hget|].
  exact (registerCubes_overlap_is_final
           [mkCubePosition 1 3; mkCubePosition 2 2] 0x00ff00 room
           demoExcludedLater "1,3"
           (mkCubeInfo (mkCubePosition 1 3) 0x800080 overlap)
           Hwf Hget eq_refl eq_refl).
Defined.

(** Witness of X5: (1,2) is taken out, (1,3) stays. *)
Lemma unregisterCoordinates_removes_witness :
  NoDup (JSMap.keys demoRegistered.(cubeRegistry))
  /\ JSMap.keys
       (unregisterCoordinates [mkCubePosition 1 2; mkCubePosition 4 4]
          demoRegistered).(cubeRegistry)
     = ["1,3"].
Proof.
  assert (NoDup (JSMap.keys demoRegistered.(cubeRegistry))) as Hnd
    by by_evaluation.
  split; [exact Hnd|].
  pose proof (proj1 (proj2 (unregisterCoordinates_removes
                              [mkCubePosition 1 2; mkCubePosition 4 4]
                              demoRegistered "1,2" Hnd))) as Hkeys.
  rewrite Hkeys. vm_compute. reflexivity.
Defined.

(** Witness of X6: the overlap on (1,3) becomes a room again. *)
Lemma unregister_then_register_witness :
  NoDup (JSMap.keys demoExcludedLater.(cubeRegistry))
  /\ (keyOf (mkCubePosition 1 3) ∉ demoExcludedLater.(excludedCoordinates))
  /\ JSMap.get (keyOf (mkCubePosition 1 3))
       (registerCubes [mkCubePosition 1 3] 0x00ff00 room
          (unregisterCoordinates [mkCubePosition 1 3]
             demoExcludedLater)).(cubeRegistry)
     = Some (mkCubeInfo (mkCubePosition 1 3) 0x00ff00 room).
Proof.
  assert (NoDup (JSMap.keys demoExcludedLater.(cubeRegistry))) as Hnd
    by by_evaluation.
  assert (keyOf (mkCubePosition 1 3)
          ∉ demoExcludedLater.(excludedCoordinates)) as Hex by by_evaluation.
  split; [exact Hnd|]. split; [exact Hex|].
  exact (proj1 (unregister_then_register (mkCubePosition 1 3) 0x00ff00 room
                  demoExcludedLater Hnd Hex)).
Defined.


(** Witness of X8: seven calls from the initial state; the container
    of scene 0 is among the children of scene 0 after the first five. *)
Lemma calls_keep_invariants_witness :
  State_wf demoInitial
  /\ Registry_inv demoInitial
  /\ Containers_attached demoInitial
  /\ Containers_attached (calls demoMaterial 1%Qc (take 5 demoCalls) demoInitial)
  /\ NoDup (getAllCoordinates (calls demoMaterial 1%Qc demoCalls demoInitial)).
Proof.
  assert (Containers_attached demoInitial) as Hatt
    by (intros scene g Hget; discriminate Hget).
  split; [exact State_wf_initial|].
  split; [exact (Registry_inv_initial demoWorld)|].
  split; [exact Hatt|].
  split.
  - exact (proj1 (proj2 (proj2
             (calls_keep_invariants demoMaterial 1%Qc (take 5 demoCalls)
                demoInitial State_wf_initial
                (Registry_inv_initial demoWorld) Hatt)))).
  - exact (proj2 (proj2 (proj2
             (calls_keep_invariants demoMaterial 1%Qc demoCalls
                demoInitial State_wf_initial
                (Registry_inv_initial demoWorld) Hatt)))).
Defined.

Example demoCalls_attached :
  JSMap.get 0%nat
    (calls demoMaterial 1%Qc (take 5 demoCalls) demoInitial).(sceneGroups)
  = Some 0%nat
  /\ childrenOf 0%nat
       (calls demoMaterial 1%Qc (take 5 demoCalls) demoInitial).(world)
     = [0%nat].
Proof. split; vm_compute; reflexivity. Qed.

(** Witness of X9: the floor rendered on scenes 0 and 1. *)
Lemma renderAllCubes_two_scenes_witness :
  State_wf demoRegistered
  /\ Registry_inv demoRegistered
  /\ 0%nat <> 1%nat
  /\ (renderAllCubes demoMaterial 1%Qc 1%nat demoOptions demoRendered).2
     <> (renderAllCubes demoMaterial 1%Qc 0%nat demoOptions demoRegistered).2.
Proof.
  assert (0%nat <> 1%nat) as Hne by lia.
  split; [exact demoRegistered_wf|]. split; [exact demoRegistered_inv|].
  split; [exact Hne|].
  exact (proj1 (renderAllCubes_two_scenes demoMaterial 1%Qc 0%nat 1%nat
                  demoOptions demoOptions demoRegistered demoRegistered_wf
                  demoRegistered_inv Hne)).
Defined.

(** Witness of X10: the rendered floor, cleared and rendered again. *)
Lemma clearRegistry_then_render_witness :
  State_wf demoRendered
  /\ JSMap.get 0%nat demoRendered.(sceneGroups) = Some 0%nat
  /\ groupChildren 0%nat (clearRegistry demoRendered).(world)
     = groupChildren 0%nat demoRendered.(world)
  /\ groupChildren 0%nat
       (renderAllCubes demoMaterial 1%Qc 0%nat demoOptions
          (clearRegistry demoRendered)).1.(world)
     = [].
Proof.
  assert (JSMap.get 0%nat demoRendered.(sceneGroups) = Some 0%nat) as Hget
    by (vm_compute; reflexivity).
  split; [exact demoRendered_wf|]. split; [exact Hget|].
  pose proof (clearRegistry_then_render demoMaterial 1%Qc 0%nat demoOptions
                demoRendered 0%nat demoRendered_wf Hget)
    as (_ & Hkeeps & _ & Hempty & _).
  split; [exact Hkeeps | exact Hempty].
Defined.

(** Witness of X11: disposal of the rendered floor. *)
Lemma dispose_only_containers_witness :
  State_wf demoRendered
  /\ (dispose demoRendered).(world).(groups) = demoRendered.(world).(groups).
Proof.
  split; [exact demoRendered_wf|].
  exact (proj2 (proj2 (dispose_only_containers demoRendered 0%nat 0%nat
                         demoRendered_wf))).
Defined.

(** ** The sprites, evaluated *)

Example generatePlayerColor_sample :
  PlayerManager.generatePlayerColor (PlayerManager.codeUnits "p1")
  = Some "#4ecdc4".
Proof. vm_compute. reflexivity. Qed.

Lemma demoSprites_Invariant : PlayerManager.Invariant demoSprites.
Proof.
  apply PlayerManagerFacts.createSpritePlayerModel_Invariant,
    PlayerManagerFacts.Invariant_initial.
Qed.

Lemma demoWalking_Invariant : PlayerManager.Invariant demoWalking.
Proof.
  apply PlayerManagerFacts.updateSpriteAnimation_Invariant,
    demoSprites_Invariant.
Qed.

(** Witness of X16: a frame change at 1600 and an update at 2000. *)
Lemma updateSpriteAnimation_frame_hold_witness :
  JSMap.get "p1" (PlayerManager.spriteAnimations demoSprites)
  = Some demoAnimation
  /\ 1600 - PlayerManager.lastFrameTime demoAnimation > 500
  /\ 2000 - 1600 <= 500
  /\ PlayerManager.updateSpriteAnimation "p1" true 2000 demoWalking
     = demoWalking.
Proof.
  assert (JSMap.get "p1" (PlayerManager.spriteAnimations demoSprites)
          = Some demoAnimation) as Hget by (vm_compute; reflexivity).
  assert (1600 - PlayerManager.lastFrameTime demoAnimation > 500) as Hlate
    by (simpl; lia).
  assert (2000 - 1600 <= 500) as Hearly by lia.
  split; [exact Hget|]. split; [exact Hlate|]. split; [exact Hearly|].
  exact (proj2 (PlayerManagerFacts.updateSpriteAnimation_frame_hold "p1"
                  demoAnimation 1600 2000 demoSprites Hget Hlate Hearly)).
Defined.

(** Witness of X17: the walking player stops on frame 2. *)
Lemma updateSpriteAnimation_stop_witness :
  PlayerManager.Invariant demoWalking
  /\ JSMap.get "p1" (PlayerManager.spriteAnimations demoWalking)
     = Some demoWalkingAnimation
  /\ JSMap.get "p1"
       (PlayerManager.spriteAnimations
          (PlayerManager.updateSpriteAnimation "p1" false 1700 demoWalking))
     = Some (PlayerManager.mkSpriteAnimation
               (PlayerManager.mkAnimationMixer 6%nat 0%nat) 1 1600 false
               PlayerManager.fr).
Proof.
  assert (JSMap.get "p1" (PlayerManager.spriteAnimations demoWalking)
          = Some demoWalkingAnimation) as Hget by (vm_compute; reflexivity).
  split; [exact demoWalking_Invariant|]. split; [exact Hget|].
  exact (proj1 (PlayerManagerFacts.updateSpriteAnimation_stop "p1"
                  demoWalkingAnimation 1700 1800 demoWalking
                  demoWalking_Invariant Hget)).
Defined.

(** Witness of X18: the first player, created and disposed. *)
Lemma create_then_dispose_witness :
  PlayerManager.Invariant PlayerManager.initial
  /\ PlayerManager.character demoPlayer = Some demoCharacter
  /\ PlayerManager.id demoPlayer <> ""
  /\ JSMap.get (PlayerManager.id demoPlayer)
       (PlayerManager.spriteAnimations PlayerManager.initial) = None
  /\ PlayerManager.spriteAnimations
       (PlayerManager.disposePlayerMesh
          (PlayerManager.next_id PlayerManager.initial) demoSprites)
     = PlayerManager.spriteAnimations PlayerManager.initial.
Proof.
  assert (PlayerManager.id demoPlayer <> "") as Hid by by_evaluation.
  split; [exact PlayerManagerFacts.Invariant_initial|].
  split; [reflexivity|]. split; [exact Hid|]. split; [reflexivity|].
  exact (proj1 (proj2 (PlayerManagerFacts.create_then_dispose demoPlayer
                         demoCharacter false 1000 PlayerManager.initial
                         PlayerManagerFacts.Invariant_initial eq_refl Hid
                         eq_refl))).
Defined.

(** Witness of X19: a player without a name, created and disposed. *)
Lemma dispose_keeps_unnamed_player_witness :
  PlayerManager.Invariant PlayerManager.initial
  /\ PlayerManager.character demoUnnamedPlayer = Some demoCharacter
  /\ PlayerManager.id demoUnnamedPlayer = ""
  /\ is_Some
       (JSMap.get ""
          (PlayerManager.spriteAnimations
             (PlayerManager.disposePlayerMesh
                (PlayerManager.next_id PlayerManager.initial)
                (PlayerManager.createSpritePlayerModel demoUnnamedPlayer
                   false 1000 PlayerManager.initial).1))).
Proof.
  split; [exact PlayerManagerFacts.Invariant_initial|].
  split; [reflexivity|]. split; [reflexivity|].
  exact (proj1 (proj2 (proj2 (proj2
           (PlayerManagerFacts.dispose_keeps_unnamed_player
              demoUnnamedPlayer demoCharacter false 1000
              PlayerManager.initial PlayerManagerFacts.Invariant_initial
              eq_refl eq_refl))))).
Defined.

Example demoWalking_texture :
  PlayerManager.texture_url
    <$> (PlayerManager.map
           <$> (PlayerManager.material
                  <$> PlayerManager.meshes demoWalking !! 5%nat))
  = Some "/assets/sprites/last-guardian-sprites/guardianA_fr2.gif".
Proof. vm_compute. reflexivity. Qed.

Example disposePlayerMesh_log_sample :
  length (PlayerManager.disposed
            (PlayerManager.disposePlayerMesh 0%nat demoSprites)) = 4%nat.
Proof. vm_compute. reflexivity. Qed.
